(** * ethBenchmark: scoring, verdict and time-budget core

    A shallow embedding of the scoring engine of the benchmark tool
    ([internal/report/report.go]), of the time-budget allocator and the
    runner ([internal/benchmark/config.go]) and of the result-building
    parts of the probes ([internal/cpu], [internal/memory],
    [internal/disk]).

    Go's [float64] is modelled as IEEE 754 binary64: every arithmetic
    operation computes the exact rational result and rounds it to the
    nearest representable value, ties to even, with overflow to infinity,
    gradual underflow, signed zeros and NaN.  Each operation is rounded
    on its own, as the Go compiler does on amd64; for the weighted total
    the values a compiler that fuses [x*y + z] into one rounding (arm64)
    may produce are listed in [spec.totals].  Go's [int],
    [int64], [uint64] and [time.Duration] are 64-bit integers carried in
    [Z] with the wrap-around written out.

    The file has four parts: the definitions (the binary64 model, the
    program, the reference definitions the statements compare it with),
    the properties of the binary64 model, the properties of the scoring
    core, and the properties of the probes, the runner and the report. *)

From Stdlib Require Import ZArith QArith Qround Qabs Qpower Lia Lqa Bool.
From Stdlib Require Import String List.
From Stdlib Require Import SpecFloat.
From Stdlib Require PrimFloat FloatOps.
Import ListNotations.

Open Scope Z_scope.

(** ** Binary64 *)

Module F64.

(** The carrier is the standard library's [spec_float]: signed zeros,
    infinities, NaN, and finite values [(-1)^s * m * 2^e]. *)
Definition float64 : Type := spec_float.

Definition emin : Z := -1074.
Definition emax : Z := 971.

(** A value is a canonical binary64 number when its mantissa has at most
    53 bits, its exponent lies in the binary64 range, and the mantissa is
    normalised unless the exponent is the least one (subnormals). *)
Definition valid (x : float64) : bool :=
  match x with
  | S754_finite _ m e =>
      (Zpos m <? 2 ^ 53) && (emin <=? e) && (e <=? emax)
      && ((2 ^ 52 <=? Zpos m) || (e =? emin))
  | _ => true
  end.

Definition is_nan (x : float64) : bool :=
  match x with S754_nan => true | _ => false end.

Definition is_finite (x : float64) : bool :=
  match x with S754_zero _ | S754_finite _ _ _ => true | _ => false end.

(** The rational number a finite value denotes (0 for the others). *)
Definition F2Q (x : float64) : Q :=
  match x with
  | S754_finite s m e => (inject_Z (cond_Zopp s (Zpos m)) * 2 ^ e)%Q
  | _ => 0%Q
  end.

(** [ilog2 a] is the integer [e] with [2^e <= a < 2^(e+1)], for [a > 0]. *)
Definition ilog2 (a : Q) : Z :=
  let e0 := Z.log2 (Qnum a) - Z.log2 (Zpos (Qden a)) in
  if Qle_bool (2 ^ e0) a then e0 else e0 - 1.

(** Nearest integer, ties to even. *)
Definition rne (x : Q) : Z :=
  let f := Qfloor x in
  match (x - inject_Z f ?= 1 # 2)%Q with
  | Lt => f
  | Eq => if Z.even f then f else f + 1
  | Gt => f + 1
  end.

(** Exponent of the unit in the last place of a positive rational. *)
Definition ulp_exp (a : Q) : Z := Z.max (ilog2 a - 52) emin.

(** The float of sign [s], integer mantissa [0 <= m <= 2^53] and exponent
    [k]: renormalises a mantissa that rounding carried to [2^53] and
    overflows to infinity past the largest exponent. *)
Definition mkfloat (s : bool) (m k : Z) : float64 :=
  if m =? 0 then S754_zero s
  else if m =? 2 ^ 53 then
    if k + 1 <=? emax then S754_finite s (2 ^ 52)%positive (k + 1)
    else S754_infinity s
  else if k <=? emax then S754_finite s (Z.to_pos m) k
  else S754_infinity s.

Definition round_pos (s : bool) (a : Q) : float64 :=
  let k := ulp_exp a in mkfloat s (rne (a / 2 ^ k)) k.

(** Round to nearest, ties to even. *)
Definition round (a : Q) : float64 :=
  match (a ?= 0)%Q with
  | Eq => S754_zero false
  | Gt => round_pos false a
  | Lt => round_pos true (- a)
  end.

Definition sign_of (x : float64) : bool :=
  match x with
  | S754_zero s | S754_infinity s | S754_finite s _ _ => s
  | S754_nan => false
  end.

Definition is_zero (x : float64) : bool :=
  match x with
  | S754_zero _ => true
  | S754_finite _ _ _ => Qeq_bool (F2Q x) 0
  | _ => false
  end.

Definition fopp (x : float64) : float64 :=
  match x with
  | S754_nan => S754_nan
  | S754_zero s => S754_zero (negb s)
  | S754_infinity s => S754_infinity (negb s)
  | S754_finite s m e => S754_finite (negb s) m e
  end.

Definition fadd (x y : float64) : float64 :=
  match x, y with
  | S754_nan, _ | _, S754_nan => S754_nan
  | S754_infinity sx, S754_infinity sy =>
      if Bool.eqb sx sy then x else S754_nan
  | S754_infinity _, _ => x
  | _, S754_infinity _ => y
  | S754_zero sx, S754_zero sy => S754_zero (sx && sy)
  | _, _ => round (F2Q x + F2Q y)
  end.

Definition fsub (x y : float64) : float64 := fadd x (fopp y).

Definition fmul (x y : float64) : float64 :=
  let s := xorb (sign_of x) (sign_of y) in
  match x, y with
  | S754_nan, _ | _, S754_nan => S754_nan
  | S754_infinity _, _ => if is_zero y then S754_nan else S754_infinity s
  | _, S754_infinity _ => if is_zero x then S754_nan else S754_infinity s
  | _, _ =>
      if is_zero x || is_zero y then S754_zero s
      else round (F2Q x * F2Q y)
  end.

Definition fdiv (x y : float64) : float64 :=
  let s := xorb (sign_of x) (sign_of y) in
  match x, y with
  | S754_nan, _ | _, S754_nan => S754_nan
  | S754_infinity _, S754_infinity _ => S754_nan
  | S754_infinity _, _ => S754_infinity s
  | _, S754_infinity _ => S754_zero s
  | _, _ =>
      if is_zero y then (if is_zero x then S754_nan else S754_infinity s)
      else if is_zero x then S754_zero s
      else round (F2Q x / F2Q y)
  end.

(** IEEE comparison: [None] when an operand is NaN. *)
Definition fcompare (x y : float64) : option comparison :=
  match x, y with
  | S754_nan, _ | _, S754_nan => None
  | S754_infinity sx, S754_infinity sy =>
      Some (if Bool.eqb sx sy then Eq else if sx then Lt else Gt)
  | S754_infinity sx, _ => Some (if sx then Lt else Gt)
  | _, S754_infinity sy => Some (if sy then Gt else Lt)
  | _, _ => Some (F2Q x ?= F2Q y)%Q
  end.

Definition feqb (x y : float64) : bool :=
  match fcompare x y with Some Eq => true | _ => false end.
Definition fltb (x y : float64) : bool :=
  match fcompare x y with Some Lt => true | _ => false end.
Definition fleb (x y : float64) : bool :=
  match fcompare x y with Some Lt | Some Eq => true | _ => false end.
(** Go's [x >= y]. *)
Definition fgeb (x y : float64) : bool := fleb y x.

(** An untyped Go constant or a decimal literal, converted to [float64]. *)
Definition of_Q (q : Q) : float64 := round q.
(** [float64(n)] for an integer [n]. *)
Definition of_Z (n : Z) : float64 := round (inject_Z n).

(** Round a rational toward zero. *)
Definition Qtrunc (q : Q) : Z :=
  if Qle_bool 0 q then Qfloor q else Qceiling q.

(** [int(x)]: Go discards the fraction.  When the value is NaN, infinite
    or outside the 64-bit range the Go specification leaves the result
    to the implementation; that case is [None]. *)
Definition to_int (x : float64) : option Z :=
  match x with
  | S754_nan | S754_infinity _ => None
  | _ =>
      let n := Qtrunc (F2Q x) in
      if (- 2 ^ 63 <=? n) && (n <? 2 ^ 63) then Some n else None
  end.

(** The spec's [floor], on a finite float. *)
Definition floor (x : float64) : Z := Qfloor (F2Q x).

Definition zero : float64 := S754_zero false.

End F64.

Import F64.

(** ** Machine integers and durations *)

(** Two's-complement wrap-around of a signed 64-bit integer. *)
Definition wrap64 (z : Z) : Z := (z + 2 ^ 63) mod 2 ^ 64 - 2 ^ 63.
(** Wrap-around of an unsigned 64-bit integer. *)
Definition wrapu64 (z : Z) : Z := z mod 2 ^ 64.

Module time.

(** [time.Duration] is an [int64] count of nanoseconds. *)
Definition Duration : Type := Z.

Definition Nanosecond : Duration := 1.
Definition Microsecond : Duration := 1000 * Nanosecond.
Definition Millisecond : Duration := 1000 * Microsecond.
Definition Second : Duration := 1000 * Millisecond.

(** [d * n] and [d / n] on durations: wrapping product, truncated quotient. *)
Definition mul (d n : Duration) : Duration := wrap64 (d * n).
Definition div (d n : Duration) : Duration := wrap64 (Z.quot d n).
Definition add (d n : Duration) : Duration := wrap64 (d + n).

(** [d.Seconds()]: whole seconds plus the remaining nanoseconds over 1e9. *)
Definition Seconds (d : Duration) : float64 :=
  let sec := Z.quot d Second in
  let nsec := Z.rem d Second in
  fadd (of_Z sec) (fdiv (of_Z nsec) (of_Z 1000000000)).

Definition Microseconds (d : Duration) : Z := Z.quot d 1000.
Definition Milliseconds (d : Duration) : Z := Z.quot d 1000000.

End time.

(** ** Result types ([internal/types/types.go]) *)

Module KeccakResult.
Record t := mk {
  HashesPerSecond : float64;
  TotalHashes : Z;
  DataProcessedMB : float64;
  Duration : time.Duration;
  Rating : string }.
Definition zero_value : t := mk zero 0 zero 0 "".
End KeccakResult.

Module ECDSAResult.
Record t := mk {
  SignaturesPerSecond : float64;
  VerificationsPerSecond : float64;
  RecoveriesPerSecond : float64;
  Duration : time.Duration;
  Rating : string }.
Definition zero_value : t := mk zero zero zero 0 "".
End ECDSAResult.

Module BLSResult.
Record t := mk {
  SignaturesPerSecond : float64;
  VerificationsPerSecond : float64;
  AggregationsPerSecond : float64;
  Duration : time.Duration;
  Rating : string }.
Definition zero_value : t := mk zero zero zero 0 "".
End BLSResult.

Module BN256Result.
Record t := mk {
  G1AddsPerSecond : float64;
  G1ScalarMulsPerSecond : float64;
  PairingsPerSecond : float64;
  Duration : time.Duration;
  Rating : string }.
Definition zero_value : t := mk zero zero zero 0 "".
End BN256Result.

Module CPUResults.
Record t := mk {
  Keccak : KeccakResult.t;
  ECDSA : ECDSAResult.t;
  BLS : BLSResult.t;
  BN256 : BN256Result.t }.
End CPUResults.

Module TrieResult.
Record t := mk {
  InsertsPerSecond : float64;
  LookupsPerSecond : float64;
  HashesPerSecond : float64;
  PeakMemoryMB : float64;
  Duration : time.Duration;
  Rating : string }.
End TrieResult.

Module PoolResult.
Record t := mk {
  AllocationsPerSecond : float64;
  ReusesPerSecond : float64;
  MemoryChurnMB : float64;
  Duration : time.Duration;
  Rating : string }.
End PoolResult.

Module StateCacheResult.
Record t := mk {
  CacheHitsPerSecond : float64;
  CacheMissesPerSecond : float64;
  HitRatio : float64;
  ThroughputMBPerSec : float64;
  Duration : time.Duration;
  Rating : string }.
End StateCacheResult.

Module MemoryResults.
Record t := mk {
  Trie : TrieResult.t;
  Pool : PoolResult.t;
  StateCache : StateCacheResult.t }.
End MemoryResults.

Module SequentialResult.
Record t := mk {
  WriteSpeedMBps : float64;
  ReadSpeedMBps : float64;
  Duration : time.Duration;
  Rating : string }.
End SequentialResult.

Module RandomResult.
Record t := mk {
  ReadIOPS : float64;
  WriteIOPS : float64;
  AvgLatencyUs : float64;
  Duration : time.Duration;
  Rating : string }.
Definition zero_value : t := mk zero zero zero 0 "".
End RandomResult.

Module BatchResult.
Record t := mk {
  BatchesPerSecond : float64;
  ThroughputMBps : float64;
  AvgBatchLatencyMs : float64;
  Duration : time.Duration;
  Rating : string }.
End BatchResult.

Module DiskResults.
Record t := mk {
  Sequential : SequentialResult.t;
  Random : RandomResult.t;
  Batch : BatchResult.t }.
End DiskResults.

Module Results.
Record t := mk {
  CPU : CPUResults.t;
  Memory : MemoryResults.t;
  Disk : DiskResults.t }.
End Results.

(** ** System information ([internal/system/detect.go]) *)

Module system.

Record Info := mkInfo {
  Hostname : string;
  SerialNumber : string;
  OS : string;
  OSVersion : string;
  Architecture : string;
  CPUModel : string;
  CPUCores : Z;
  RAMTotalMB : Z;
  DiskModel : string;
  RPiModel : string;
  KernelVersion : string;
  GPUFirmware : string;
  BootloaderVersion : string;
  CPUGovernor : string;
  CPUFreqMHz : Z;
  CoreVoltage : string }.

End system.

(** ** Scoring and verdict ([internal/report/report.go]) *)

Module report.

Local Open Scope string_scope.

Record Summary := mkSummary {
  CPUScore : Z;
  MemoryScore : Z;
  DiskScore : Z;
  TotalScore : Z }.

Record Verdict := mkVerdict {
  OverallScore : Z;
  ExecutionClient : string;
  ConsensusClient : string;
  Recommendations : list string }.

(** [scoreMetric] converts a metric value to a 0-100 score. *)
Definition scoreMetric (value poor marginal good excellent : float64) : float64 :=
  if fgeb value excellent then of_Z 100
  else if fgeb value good then
    fadd (of_Z 75) (fdiv (fmul (of_Z 25) (fsub value good)) (fsub excellent good))
  else if fgeb value marginal then
    fadd (of_Z 50) (fdiv (fmul (of_Z 25) (fsub value marginal)) (fsub good marginal))
  else if fgeb value poor then
    fadd (of_Z 25) (fdiv (fmul (of_Z 25) (fsub value poor)) (fsub marginal poor))
  else fdiv (fmul (of_Z 25) value) poor.

Definition calculateCPUScore (cpu : CPUResults.t) : option Z :=
  let score := zero in
  let keccakScore :=
    scoreMetric (KeccakResult.HashesPerSecond (CPUResults.Keccak cpu))
      (of_Z 50000) (of_Z 100000) (of_Z 200000) (of_Z 500000) in
  let score := fadd score (fmul keccakScore (of_Q 0.25)) in
  let ecdsaScore :=
    scoreMetric (ECDSAResult.VerificationsPerSecond (CPUResults.ECDSA cpu))
      (of_Z 250) (of_Z 500) (of_Z 1000) (of_Z 2000) in
  let score := fadd score (fmul ecdsaScore (of_Q 0.35)) in
  let blsScore :=
    scoreMetric (BLSResult.VerificationsPerSecond (CPUResults.BLS cpu))
      (of_Z 50) (of_Z 100) (of_Z 200) (of_Z 500) in
  let score := fadd score (fmul blsScore (of_Q 0.25)) in
  let bn256Score :=
    scoreMetric (BN256Result.PairingsPerSecond (CPUResults.BN256 cpu))
      (of_Z 10) (of_Z 25) (of_Z 50) (of_Z 100) in
  let score := fadd score (fmul bn256Score (of_Q 0.15)) in
  to_int score.

Definition calculateMemoryScore (mem : MemoryResults.t) : option Z :=
  let score := zero in
  let trieScore :=
    scoreMetric (TrieResult.InsertsPerSecond (MemoryResults.Trie mem))
      (of_Z 5000) (of_Z 10000) (of_Z 20000) (of_Z 50000) in
  let score := fadd score (fmul trieScore (of_Q 0.40)) in
  let poolOps :=
    fadd (PoolResult.AllocationsPerSecond (MemoryResults.Pool mem))
         (PoolResult.ReusesPerSecond (MemoryResults.Pool mem)) in
  let poolScore :=
    scoreMetric poolOps (of_Z 50000) (of_Z 100000) (of_Z 200000) (of_Z 500000) in
  let score := fadd score (fmul poolScore (of_Q 0.30)) in
  let cacheScore :=
    scoreMetric (StateCacheResult.CacheHitsPerSecond (MemoryResults.StateCache mem))
      (of_Z 50000) (of_Z 100000) (of_Z 200000) (of_Z 500000) in
  let score := fadd score (fmul cacheScore (of_Q 0.30)) in
  to_int score.

Definition calculateDiskScore (disk : DiskResults.t) : option Z :=
  let score := zero in
  let seqAvg :=
    fdiv (fadd (SequentialResult.WriteSpeedMBps (DiskResults.Sequential disk))
               (SequentialResult.ReadSpeedMBps (DiskResults.Sequential disk)))
         (of_Z 2) in
  let seqScore := scoreMetric seqAvg (of_Z 50) (of_Z 100) (of_Z 200) (of_Z 400) in
  let score := fadd score (fmul seqScore (of_Q 0.30)) in
  let randomAvg :=
    fdiv (fadd (RandomResult.ReadIOPS (DiskResults.Random disk))
               (RandomResult.WriteIOPS (DiskResults.Random disk)))
         (of_Z 2) in
  let randomScore :=
    scoreMetric randomAvg (of_Z 5000) (of_Z 10000) (of_Z 20000) (of_Z 50000) in
  let score := fadd score (fmul randomScore (of_Q 0.45)) in
  let batchScore :=
    scoreMetric (BatchResult.ThroughputMBps (DiskResults.Batch disk))
      (of_Z 10) (of_Z 25) (of_Z 50) (of_Z 100) in
  let score := fadd score (fmul batchScore (of_Q 0.25)) in
  to_int score.

(** The weighted total of line 73: CPU 40%, Disk 35%, Memory 25%. *)
Definition weightedTotal (cpuScore memoryScore diskScore : Z) : float64 :=
  fadd (fadd (fmul (of_Z cpuScore) (of_Q 0.40))
             (fmul (of_Z diskScore) (of_Q 0.35)))
       (fmul (of_Z memoryScore) (of_Q 0.25)).

Definition totalScore (cpuScore memoryScore diskScore : Z) : option Z :=
  to_int (weightedTotal cpuScore memoryScore diskScore).

Definition calculateSummary (results : Results.t) : option Summary :=
  match calculateCPUScore (Results.CPU results),
        calculateMemoryScore (Results.Memory results),
        calculateDiskScore (Results.Disk results) with
  | Some cpuScore, Some memoryScore, Some diskScore =>
      match totalScore cpuScore memoryScore diskScore with
      | Some total => Some (mkSummary cpuScore memoryScore diskScore total)
      | None => None
      end
  | _, _, _ => None
  end.

Definition set_clients (v : Verdict) (exec cons : string) : Verdict :=
  mkVerdict (OverallScore v) exec cons (Recommendations v).

(** [verdict.Recommendations = append(verdict.Recommendations, more...)] *)
Definition append_recommendations (v : Verdict) (more : list string) : Verdict :=
  mkVerdict (OverallScore v) (ExecutionClient v) (ConsensusClient v)
            (Recommendations v ++ more)%list.

Definition determineVerdict (score : Z) (results : Results.t) : Verdict :=
  let verdict := mkVerdict score "" "" [] in
  let verdict :=
    if score >=? 80 then
      append_recommendations (set_clients verdict "Ready" "Ready")
        [ "Your hardware meets Ethereum node requirements.";
          "Both Geth and Nimbus should run well on this system." ]
    else if score >=? 60 then
      append_recommendations (set_clients verdict "Marginal" "Ready")
        [ "Consensus client (Nimbus) should work well.";
          "Execution client (Geth) may struggle during high network activity.";
          "Consider using checkpoint sync to reduce initial sync time." ]
    else if score >=? 40 then
      append_recommendations (set_clients verdict "Marginal" "Marginal")
        [ "Hardware is below recommended specifications.";
          "Initial sync will be slow (potentially weeks).";
          "Consider using an external execution client RPC." ]
    else
      append_recommendations (set_clients verdict "Unsuitable" "Marginal")
        [ "Hardware does not meet minimum requirements for execution client.";
          "Consider upgrading to NVMe storage.";
          "A more powerful single-board computer is recommended." ] in
  let verdict :=
    if fltb (RandomResult.ReadIOPS (DiskResults.Random (Results.Disk results)))
            (of_Z 10000)
    then append_recommendations verdict
           [ "Random I/O performance is low. NVMe SSD strongly recommended." ]
    else verdict in
  let verdict :=
    if fltb (ECDSAResult.VerificationsPerSecond
               (CPUResults.ECDSA (Results.CPU results))) (of_Z 500)
    then append_recommendations verdict
           [ "ECDSA verification is slow. This may cause transaction validation delays." ]
    else verdict in
  let verdict :=
    if fltb (BLSResult.VerificationsPerSecond
               (CPUResults.BLS (Results.CPU results))) (of_Z 100)
    then append_recommendations verdict
           [ "BLS signature verification is slow. Consensus layer may lag." ]
    else verdict in
  verdict.

Record Metadata := mkMetadata {
  Version : string;
  Timestamp : Z;
  DurationSeconds : float64 }.

Module Report.
Record t := mk {
  Metadata : Metadata;
  System : system.Info;
  CPU : CPUResults.t;
  Memory : MemoryResults.t;
  Disk : DiskResults.t;
  Summary : Summary;
  Verdict : Verdict }.
End Report.

(** [NewReport]: [now] is what [time.Now] returned.  The summary is an
    [int] conversion of floats; where Go leaves that conversion
    undefined there is no report. *)
Definition NewReport (version : string) (now : Z) (sysInfo : system.Info)
                     (results : Results.t) (duration : time.Duration)
  : option Report.t :=
  match calculateSummary results with
  | None => None
  | Some summary =>
      Some (Report.mk (mkMetadata version now (time.Seconds duration)) sysInfo
                      (Results.CPU results) (Results.Memory results)
                      (Results.Disk results) summary
                      (determineVerdict (TotalScore summary) results))
  end.

(** *** Text report ([internal/report/text.go]) *)

(** The map literal of [filterRelevantCPUFeatures]. *)
Definition relevant : list (string * bool) :=
  [ ("asimd", true); ("aes", true); ("sha1", true); ("sha2", true);
    ("sha3", true); ("crc32", true); ("pmull", true); ("atomics", true);
    ("fp", true) ].

(** [m[f]] on a [map[string]bool]: [false] for a key the map lacks. *)
Definition flag (m : list (string * bool)) (f : string) : bool :=
  match find (fun kv => String.eqb (fst kv) f) m with
  | Some kv => snd kv
  | None => false
  end.

Definition filterRelevantCPUFeatures (features : list string) : list string :=
  fold_left (fun result f => if flag relevant f then (result ++ [f])%list else result)
            features [].

End report.

(** ** Time budgets ([internal/benchmark/config.go]) *)

Module benchmark.

Local Open Scope string_scope.

Record Config := mkConfig {
  CPUDuration : time.Duration;
  MemoryDuration : time.Duration;
  DiskDuration : time.Duration;
  TestDir : string;
  Verbose : bool }.

Definition DefaultConfig : Config :=
  mkConfig (time.mul 60 time.Second) (time.mul 60 time.Second)
           (time.mul 60 time.Second) "." false.

Definition QuickConfig : Config :=
  mkConfig (time.mul 20 time.Second) (time.mul 20 time.Second)
           (time.mul 20 time.Second) "." false.

Record CPUTimeBudget := mkCPUTimeBudget {
  Keccak256 : time.Duration;
  ECDSA : time.Duration;
  BLS : time.Duration;
  BN256 : time.Duration }.

Definition GetCPUTimeBudget (c : Config) : CPUTimeBudget :=
  let total := CPUDuration c in
  mkCPUTimeBudget
    (time.div (time.mul total 15) 60)
    (time.div (time.mul total 20) 60)
    (time.div (time.mul total 15) 60)
    (time.div (time.mul total 10) 60).

Record MemoryTimeBudget := mkMemoryTimeBudget {
  Trie : time.Duration;
  Pool : time.Duration;
  StateCache : time.Duration }.

Definition GetMemoryTimeBudget (c : Config) : MemoryTimeBudget :=
  let total := MemoryDuration c in
  mkMemoryTimeBudget
    (time.div (time.mul total 25) 60)
    (time.div (time.mul total 15) 60)
    (time.div (time.mul total 20) 60).

Record DiskTimeBudget := mkDiskTimeBudget {
  Sequential : time.Duration;
  Random : time.Duration;
  Batch : time.Duration }.

Definition GetDiskTimeBudget (c : Config) : DiskTimeBudget :=
  let total := DiskDuration c in
  mkDiskTimeBudget
    (time.div (time.mul total 20) 60)
    (time.div (time.mul total 25) 60)
    (time.div (time.mul total 15) 60).

End benchmark.

(** ** Slices, maps and the random source *)

(** [len(s)] and [s[i]]; indexing outside the slice panics, which is
    [None]. *)
Definition len {A : Type} (s : list A) : Z := Z.of_nat (length s).

Definition index {A : Type} (s : list A) (i : Z) : option A :=
  if i <? 0 then None else nth_error s (Z.to_nat i).

(** [a % b] on [int]: the remainder of the truncated quotient; a zero
    divisor panics. *)
Definition imod (a b : Z) : option Z :=
  if b =? 0 then None else Some (Z.rem a b).

(** A Go map with byte-array keys, the keys read as numbers: the latest
    binding of a key is the one in force. *)
Definition Map (V : Type) : Type := list (Z * V).

Definition lookup {V : Type} (m : Map V) (k : Z) : option V :=
  match find (fun kv => fst kv =? k) m with
  | Some kv => Some (snd kv)
  | None => None
  end.

Definition assign {V : Type} (m : Map V) (k : Z) (v : V) : Map V := (k, v) :: m.

(** [crypto/rand]: what the successive calls of [rand.Read] return, by
    the number of the call. *)
Definition Rand : Type := nat -> Z.

(** ** Probes: the measurement loop and the result they build *)

(** What a probe observes of its environment.  A measurement loop
    [for time.Since(start) < duration { op }] reads the monotonic clock
    before every iteration; an observation is the reading of
    [time.Since(start)] at one loop check, whether the operation run after
    it succeeded, and the latency measured around that operation. *)
Record Tick := mkTick {
  since : time.Duration;
  ok : bool;
  latency : time.Duration }.

(** The state a loop leaves: the counter, the accumulated latency, the
    reading of [time.Since(start)] taken after the loop. *)
Record Phase := mkPhase {
  ops : Z;
  total_latency : time.Duration;
  elapsed : time.Duration }.

(** Run the loop over the observations that follow [start]: it stops at
    the first reading that is not below [duration] (or when the trace
    ends); [after] is the reading of [time.Since(start)] taken once the
    loop is left. *)
Fixpoint measure (duration : time.Duration) (trace : list Tick)
                 (after : time.Duration) (n : Z) (lat : time.Duration) : Phase :=
  match trace with
  | [] => mkPhase n lat after
  | t :: rest =>
      if since t <? duration then
        measure duration rest after
                (if ok t then wrapu64 (n + 1) else n)
                (time.add lat (latency t))
      else mkPhase n lat after
  end.

(** The observations of one loop and the reading taken after it. *)
Record Loop := mkLoop {
  trace : list Tick;
  after : time.Duration }.

Definition run (duration : time.Duration) (l : Loop) : Phase :=
  measure duration (trace l) (after l) 0 0.

(** A loop whose operation cannot fail counts every pass. *)
Definition infallible (l : Loop) : Loop :=
  mkLoop (map (fun t => mkTick (since t) true (latency t)) (trace l)) (after l).

(** An error returned by a library or system call. *)
Inductive error :=
| nil
| err (msg : string).

Definition Error (e : error) : string :=
  match e with nil => "" | err msg => msg end.

(** A call whose error the program discards returns a nil value when it
    fails; [returned] tells whether the value is there. *)
Definition returned (e : error) : bool :=
  match e with nil => true | err _ => false end.

(** A measurement loop whose operation uses a value of the set-up: when
    the value is nil the first pass panics ([None]), by slicing a nil
    slice or by dereferencing a nil pointer; a loop that makes no pass
    never touches the value. *)
Fixpoint measure_with (present : bool) (duration : time.Duration) (trace : list Tick)
                      (after : time.Duration) (n : Z) (lat : time.Duration)
  : option Phase :=
  match trace with
  | [] => Some (mkPhase n lat after)
  | t :: rest =>
      if since t <? duration then
        if present then
          measure_with present duration rest after
                       (if ok t then wrapu64 (n + 1) else n)
                       (time.add lat (latency t))
        else None
      else Some (mkPhase n lat after)
  end.

Definition run_with (present : bool) (duration : time.Duration) (l : Loop)
  : option Phase :=
  measure_with present duration (trace l) (after l) 0 0.

Module cpu.

Local Open Scope string_scope.

Definition rateKeccak (hps : float64) : string :=
  if fgeb hps (of_Z 500000) then "Excellent"
  else if fgeb hps (of_Z 200000) then "Good"
  else if fgeb hps (of_Z 100000) then "Adequate"
  else if fgeb hps (of_Z 50000) then "Marginal"
  else "Poor".

(** The part of [BenchmarkKeccak256] after its loop (lines 58-68):
    [totalHashes] and [totalBytes] are the counters the loop left,
    [elapsed] the reading of [time.Since(start)]. *)
Definition KeccakResult_of (totalHashes totalBytes : Z) (elapsed : time.Duration)
  : KeccakResult.t :=
  let hashesPerSec := fdiv (of_Z totalHashes) (time.Seconds elapsed) in
  let dataMB := fdiv (of_Z totalBytes) (of_Z (1024 * 1024)) in
  KeccakResult.mk hashesPerSec totalHashes dataMB elapsed (rateKeccak hashesPerSec).

(** [BenchmarkKeccak256]: every pass of the loop hashes the four inputs
    of 32, 64, 128 and 550 bytes. *)
Definition BenchmarkKeccak256 (duration : time.Duration) (l : Loop)
  : KeccakResult.t :=
  let p := run duration (infallible l) in
  KeccakResult_of (wrapu64 (4 * ops p)) (wrapu64 ((32 + 64 + 128 + 550) * ops p))
                  (elapsed p).

Definition rateECDSA (verifyRate recoverRate : float64) : string :=
  let score := fadd (fmul verifyRate (of_Q 0.6)) (fmul recoverRate (of_Q 0.4)) in
  if fgeb score (of_Z 2000) then "Excellent"
  else if fgeb score (of_Z 1000) then "Good"
  else if fgeb score (of_Z 500) then "Adequate"
  else if fgeb score (of_Z 250) then "Marginal"
  else "Poor".

(** The part of [BenchmarkECDSA] after the key generation, given what the
    three loops measured. *)
Definition ECDSAResult_of (sign verify recover : Phase) : ECDSAResult.t :=
  let signRate := fdiv (of_Z (ops sign)) (time.Seconds (elapsed sign)) in
  let verifyRate := fdiv (of_Z (ops verify)) (time.Seconds (elapsed verify)) in
  let recoverRate := fdiv (of_Z (ops recover)) (time.Seconds (elapsed recover)) in
  let totalDuration :=
    time.add (time.add (elapsed sign) (elapsed verify)) (elapsed recover) in
  ECDSAResult.mk signRate verifyRate recoverRate totalDuration
                 (rateECDSA verifyRate recoverRate).

(** [BenchmarkECDSA]: [keygen] is what [crypto.GenerateKey] returned,
    [presign] what the [crypto.Sign] of line 44 returned.  The error of
    that call is discarded: when it failed [signature] is nil, and every
    pass of the verification loop slices it ([signature[:64]], line 53),
    which panics.  The recovery loop passes it on unsliced. *)
Definition BenchmarkECDSA (duration : time.Duration) (keygen presign : error)
                          (sign verify recover : Loop) : option ECDSAResult.t :=
  match keygen with
  | err _ => Some (ECDSAResult.mk zero zero zero 0 "Error")
  | nil =>
      let signDuration := time.div duration 3 in
      let signPhase := run signDuration sign in
      let signature := returned presign in
      let verifyDuration := time.div duration 3 in
      match run_with signature verifyDuration verify with
      | None => None
      | Some verifyPhase =>
          let recoverDuration := time.div duration 3 in
          Some (ECDSAResult_of signPhase verifyPhase (run recoverDuration recover))
      end
  end.

Definition rateBN256 (pairRate : float64) : string :=
  if fgeb pairRate (of_Z 100) then "Excellent"
  else if fgeb pairRate (of_Z 50) then "Good"
  else if fgeb pairRate (of_Z 25) then "Adequate"
  else if fgeb pairRate (of_Z 10) then "Marginal"
  else "Poor".

Definition BN256Result_of (add mul pair : Phase) : BN256Result.t :=
  let addRate := fdiv (of_Z (ops add)) (time.Seconds (elapsed add)) in
  let mulRate := fdiv (of_Z (ops mul)) (time.Seconds (elapsed mul)) in
  let pairRate := fdiv (of_Z (ops pair)) (time.Seconds (elapsed pair)) in
  let totalDuration :=
    time.add (time.add (elapsed add) (elapsed mul)) (elapsed pair) in
  BN256Result.mk addRate mulRate pairRate totalDuration (rateBN256 pairRate).

(** [BenchmarkBN256]: [randomG1] is what the first [bn256.RandomG1]
    returned, [randomG1b] and [randomG2] what the calls of lines 22 and 23
    returned.  The errors of these two are discarded: when one failed its
    point is nil, and [Add] (line 36) or [Pair] (line 61) dereferences it,
    which panics.  The scalar multiplication uses the first point only. *)
Definition BenchmarkBN256 (duration : time.Duration)
                          (randomG1 randomG1b randomG2 : error)
                          (add mul pair : Loop) : option BN256Result.t :=
  match randomG1 with
  | err _ => Some (BN256Result.mk zero zero zero 0 "Error")
  | nil =>
      let g1b := returned randomG1b in
      let g2a := returned randomG2 in
      let addDuration := time.div (time.mul duration 3) 10 in
      match run_with g1b addDuration (infallible add) with
      | None => None
      | Some addPhase =>
          let mulDuration := time.div (time.mul duration 3) 10 in
          let mulPhase := run mulDuration (infallible mul) in
          let pairDuration := time.div (time.mul duration 4) 10 in
          match run_with g2a pairDuration (infallible pair) with
          | None => None
          | Some pairPhase => Some (BN256Result_of addPhase mulPhase pairPhase)
          end
      end
  end.

Definition rateBLS (verifyRate : float64) : string :=
  if fgeb verifyRate (of_Z 500) then "Excellent"
  else if fgeb verifyRate (of_Z 200) then "Good"
  else if fgeb verifyRate (of_Z 100) then "Adequate"
  else if fgeb verifyRate (of_Z 50) then "Marginal"
  else "Poor".

(** [BenchmarkBLS]: four loops of a quarter of the duration each.  The
    scalar multiplication and the aggregation cannot fail, the two
    pairings can; the count of the fourth loop is not reported, only its
    time. *)
Definition BenchmarkBLS (duration : time.Duration)
                        (sign verify agg batch : Loop) : BLSResult.t :=
  let signDuration := time.div duration 4 in
  let signPhase := run signDuration (infallible sign) in
  let signRate := fdiv (of_Z (ops signPhase)) (time.Seconds (elapsed signPhase)) in
  let verifyDuration := time.div duration 4 in
  let verifyPhase := run verifyDuration verify in
  let verifyRate :=
    fdiv (of_Z (ops verifyPhase)) (time.Seconds (elapsed verifyPhase)) in
  let aggDuration := time.div duration 4 in
  let aggPhase := run aggDuration (infallible agg) in
  let aggRate := fdiv (of_Z (ops aggPhase)) (time.Seconds (elapsed aggPhase)) in
  let batchDuration := time.div duration 4 in
  let batchPhase := run batchDuration batch in
  let totalDuration :=
    time.add (time.add (time.add (elapsed signPhase) (elapsed verifyPhase))
                       (elapsed aggPhase))
             (elapsed batchPhase) in
  BLSResult.mk signRate verifyRate aggRate totalDuration (rateBLS verifyRate).

End cpu.

Module disk.

Local Open Scope string_scope.

Definition rateRandom (readIOPS writeIOPS : float64) : string :=
  let score := fadd (fmul readIOPS (of_Q 0.7)) (fmul writeIOPS (of_Q 0.3)) in
  if fgeb score (of_Z 50000) then "Excellent"
  else if fgeb score (of_Z 20000) then "Good"
  else if fgeb score (of_Z 10000) then "Adequate"
  else if fgeb score (of_Z 5000) then "Marginal"
  else "Poor".

(** The part of [BenchmarkRandom] after its two loops (lines 63-64 and
    90-106). *)
Definition RandomResult_of (read write : Phase) : RandomResult.t :=
  let readIOPS := fdiv (of_Z (ops read)) (time.Seconds (elapsed read)) in
  let writeIOPS := fdiv (of_Z (ops write)) (time.Seconds (elapsed write)) in
  let totalOps := wrapu64 (ops read + ops write) in
  let totalLatency := time.add (total_latency read) (total_latency write) in
  let avgLatencyUs :=
    fdiv (of_Z (time.Microseconds totalLatency)) (of_Z totalOps) in
  let totalDuration := time.add (elapsed read) (elapsed write) in
  RandomResult.mk readIOPS writeIOPS avgLatencyUs totalDuration
                  (rateRandom readIOPS writeIOPS).

(** [BenchmarkRandom]: [open] and [truncate] are what [os.OpenFile] and
    [f.Truncate] returned. *)
Definition BenchmarkRandom (duration : time.Duration) (open truncate : error)
                           (read write : Loop) : RandomResult.t :=
  match open with
  | err _ => RandomResult.mk zero zero zero 0 ("Error: " ++ Error open)
  | nil =>
      match truncate with
      | err _ => RandomResult.mk zero zero zero 0 ("Error: " ++ Error truncate)
      | nil =>
          let readDuration := time.div (time.mul duration 3) 5 in
          let writeDuration := time.div (time.mul duration 2) 5 in
          RandomResult_of (run readDuration read) (run writeDuration write)
      end
  end.

(** *** Sequential I/O *)

(** What [f.Write] or [f.Read] returned: the byte count and the error. *)
Record IO := mkIO {
  bytes : Z;
  failure : error }.

(** One pass of the write loop: the clock reading at the loop check and
    what the writes of the pass returned, in order. *)
Record WritePass := mkWritePass {
  write_since : time.Duration;
  writes : list IO }.

(** The inner loop over the block sizes: a failed write leaves it. *)
Fixpoint writeBlocks (blockSizes : list Z) (results : list IO) (totalWritten : Z) : Z :=
  match blockSizes, results with
  | _ :: sizes, r :: rest =>
      match failure r with
      | err _ => totalWritten
      | nil => writeBlocks sizes rest (wrapu64 (totalWritten + bytes r))
      end
  | _, _ => totalWritten
  end.

Fixpoint writeLoop (writeDuration : time.Duration) (passes : list WritePass)
                   (totalWritten : Z) : Z :=
  match passes with
  | [] => totalWritten
  | p :: rest =>
      if (write_since p <? writeDuration)%Z then
        writeLoop writeDuration rest
                  (writeBlocks [128 * 1024; 1024 * 1024] (writes p) totalWritten)
      else totalWritten
  end.

(** One pass of the read loop: the clock reading and what [f.Read]
    returned. *)
Record ReadPass := mkReadPass {
  read_since : time.Duration;
  read_result : IO }.

(** A failed read (the end of the file among them) seeks back to the
    start and goes on to the next pass. *)
Fixpoint readLoop (readDuration : time.Duration) (passes : list ReadPass)
                  (totalRead : Z) : Z :=
  match passes with
  | [] => totalRead
  | p :: rest =>
      if (read_since p <? readDuration)%Z then
        match failure (read_result p) with
        | err _ => readLoop readDuration rest totalRead
        | nil => readLoop readDuration rest (wrapu64 (totalRead + bytes (read_result p)))
        end
      else totalRead
  end.

Definition rateSequential (writeSpeed readSpeed : float64) : string :=
  let avgSpeed := fadd (fmul writeSpeed (of_Q 0.6)) (fmul readSpeed (of_Q 0.4)) in
  if fgeb avgSpeed (of_Z 400) then "Excellent"
  else if fgeb avgSpeed (of_Z 200) then "Good"
  else if fgeb avgSpeed (of_Z 100) then "Adequate"
  else if fgeb avgSpeed (of_Z 50) then "Marginal"
  else "Poor".

(** [BenchmarkSequential]: [create] is what the [os.OpenFile] of the
    write phase returned, [open] what the one of the read phase returned;
    [writeElapsed] and [readElapsed] are the readings of the clock after
    the two loops. *)
Definition BenchmarkSequential (duration : time.Duration)
    (create : error) (writePasses : list WritePass) (writeElapsed : time.Duration)
    (open : error) (readPasses : list ReadPass) (readElapsed : time.Duration)
  : SequentialResult.t :=
  let writeDuration := time.div duration 2 in
  match create with
  | err _ => SequentialResult.mk zero zero 0 ("Error: " ++ Error create)
  | nil =>
      let totalWritten := writeLoop writeDuration writePasses 0 in
      let writeSpeed :=
        fdiv (fdiv (of_Z totalWritten) (time.Seconds writeElapsed))
             (of_Z (1024 * 1024)) in
      let readDuration := time.div duration 2 in
      match open with
      | err _ => SequentialResult.mk writeSpeed zero 0 ("Error: " ++ Error open)
      | nil =>
          let totalRead := readLoop readDuration readPasses 0 in
          let readSpeed :=
            fdiv (fdiv (of_Z totalRead) (time.Seconds readElapsed))
                 (of_Z (1024 * 1024)) in
          let totalDuration := time.add writeElapsed readElapsed in
          SequentialResult.mk writeSpeed readSpeed totalDuration
                              (rateSequential writeSpeed readSpeed)
      end
  end.

(** *** Batch writes *)

(** One pass of the batch loop: the clock reading, what [f.Write]
    returned, and the time measured around the write and its sync. *)
Record BatchPass := mkBatchPass {
  batch_since : time.Duration;
  batch_write : IO;
  opLatency : time.Duration }.

(** The counters of the batch loop. *)
Record BatchCounters := mkBatchCounters {
  batchCount : Z;
  totalWritten : Z;
  totalLatency : time.Duration }.

(** Only a write that succeeded is counted, with its bytes and its
    latency. *)
Fixpoint batchLoop (duration : time.Duration) (passes : list BatchPass)
                   (c : BatchCounters) : BatchCounters :=
  match passes with
  | [] => c
  | p :: rest =>
      if (batch_since p <? duration)%Z then
        match failure (batch_write p) with
        | nil =>
            batchLoop duration rest
              (mkBatchCounters (wrapu64 (batchCount c + 1))
                               (wrapu64 (totalWritten c + bytes (batch_write p)))
                               (time.add (totalLatency c) (opLatency p)))
        | err _ => batchLoop duration rest c
        end
      else c
  end.

Definition rateBatch (throughputMBps : float64) : string :=
  if fgeb throughputMBps (of_Z 100) then "Excellent"
  else if fgeb throughputMBps (of_Z 50) then "Good"
  else if fgeb throughputMBps (of_Z 25) then "Adequate"
  else if fgeb throughputMBps (of_Z 10) then "Marginal"
  else "Poor".

(** [BenchmarkBatch]: [open] is what [os.OpenFile] returned, [elapsed]
    the reading of the clock after the loop. *)
Definition BenchmarkBatch (duration : time.Duration) (open : error)
                          (passes : list BatchPass) (elapsed : time.Duration)
  : BatchResult.t :=
  match open with
  | err _ => BatchResult.mk zero zero zero 0 ("Error: " ++ Error open)
  | nil =>
      let c := batchLoop duration passes (mkBatchCounters 0 0 0) in
      let batchesPerSec := fdiv (of_Z (batchCount c)) (time.Seconds elapsed) in
      let throughputMBps :=
        fdiv (fdiv (of_Z (totalWritten c)) (time.Seconds elapsed))
             (of_Z (1024 * 1024)) in
      let avgBatchLatencyMs :=
        fdiv (of_Z (time.Milliseconds (totalLatency c))) (of_Z (batchCount c)) in
      BatchResult.mk batchesPerSec throughputMBps avgBatchLatencyMs elapsed
                     (rateBatch throughputMBps)
  end.

End disk.

(** ** Memory probes ([internal/memory]) *)

Module memory.

Local Open Scope string_scope.

(** *** Trie *)

(** The insert loop: every pass draws a key and a value from the random
    source, builds and hashes a node, stores it under the key and appends
    the key to [nodeKeys].  The nodes influence the result only through
    the time they take; the model keeps the keys. *)
Record Inserted := mkInserted {
  nodeKeys : list Z;
  insertCount : Z;
  calls : nat }.

Fixpoint insertLoop (insertDuration : time.Duration) (rand : Rand)
                    (trace : list Tick) (s : Inserted) : Inserted :=
  match trace with
  | [] => s
  | t :: rest =>
      if (since t <? insertDuration)%Z then
        let key := rand (calls s) in
        insertLoop insertDuration rand rest
          (mkInserted (nodeKeys s ++ [key]) (wrapu64 (insertCount s + 1))
                      (S (S (calls s))))
      else s
  end.

(** The lookup loop indexes [nodeKeys] by [int(lookupCount) % len(nodeKeys)];
    an index outside the slice panics ([None]). *)
Fixpoint lookupLoop (lookupDuration : time.Duration) (nodeKeys : list Z)
                    (trace : list Tick) (lookupCount : Z) : option Z :=
  match trace with
  | [] => Some lookupCount
  | t :: rest =>
      if (since t <? lookupDuration)%Z then
        match imod (wrap64 lookupCount) (len nodeKeys) with
        | None => None
        | Some idx =>
            match index nodeKeys idx with
            | None => None
            | Some _ => lookupLoop lookupDuration nodeKeys rest (wrapu64 (lookupCount + 1))
            end
        end
      else Some lookupCount
  end.

Definition rateTrie (insertRate lookupRate : float64) : string :=
  let score :=
    fadd (fmul insertRate (of_Q 0.4))
         (fmul (fmul lookupRate (of_Q 0.001)) (of_Q 0.6)) in
  if fgeb score (of_Z 50000) then "Excellent"
  else if fgeb score (of_Z 20000) then "Good"
  else if fgeb score (of_Z 10000) then "Adequate"
  else if fgeb score (of_Z 5000) then "Marginal"
  else "Poor".

(** [BenchmarkTrie]: [memBefore] and [memAfter] are the two readings of
    [runtime.MemStats.Alloc], unsigned 64-bit numbers. *)
Definition BenchmarkTrie (duration : time.Duration) (rand : Rand)
                         (memBefore memAfter : Z)
                         (insert lookup hash : Loop) : option TrieResult.t :=
  let insertDuration := time.div (time.mul duration 2) 5 in
  let inserted := insertLoop insertDuration rand (trace insert) (mkInserted [] 0 O) in
  let insertElapsed := after insert in
  let insertRate := fdiv (of_Z (insertCount inserted)) (time.Seconds insertElapsed) in
  let lookupDuration := time.div (time.mul duration 2) 5 in
  match (if (0 <? len (nodeKeys inserted))%Z
         then lookupLoop lookupDuration (nodeKeys inserted) (trace lookup) 0
         else Some 0) with
  | None => None
  | Some lookupCount =>
      let lookupElapsed := after lookup in
      let lookupRate := fdiv (of_Z lookupCount) (time.Seconds lookupElapsed) in
      let hashDuration := time.div duration 5 in
      let hashPhase := run hashDuration (infallible hash) in
      let hashRate := fdiv (of_Z (ops hashPhase)) (time.Seconds (elapsed hashPhase)) in
      let peakMemMB :=
        fdiv (of_Z (wrapu64 (memAfter - memBefore))) (of_Z (1024 * 1024)) in
      let peakMemMB :=
        if fltb peakMemMB zero then fdiv (of_Z memAfter) (of_Z (1024 * 1024))
        else peakMemMB in
      let totalDuration :=
        time.add (time.add insertElapsed lookupElapsed) (elapsed hashPhase) in
      Some (TrieResult.mk insertRate lookupRate hashRate peakMemMB totalDuration
                          (rateTrie insertRate lookupRate))
  end.

(** *** Object pool *)

(** One pass of the pool loop: the clock reading and the capacity of the
    buffer [memPool.pool.Get] returned, a new one of 4096 bytes or one
    put back by an earlier pass. *)
Record Got := mkGot {
  got_since : time.Duration;
  capacity : Z }.

Record PoolCounters := mkPoolCounters {
  allocCount : Z;
  reuseCount : Z;
  totalBytes : Z }.

Fixpoint poolLoop (duration : time.Duration) (trace : list Got)
                  (c : PoolCounters) : PoolCounters :=
  match trace with
  | [] => c
  | g :: rest =>
      if (got_since g <? duration)%Z then
        let targetSize := wrap64 (1024 + wrap64 (totalBytes c mod 15360)) in
        let c :=
          if (capacity g <? targetSize)%Z
          then mkPoolCounters (wrapu64 (allocCount c + 1)) (reuseCount c) (totalBytes c)
          else mkPoolCounters (allocCount c) (wrapu64 (reuseCount c + 1)) (totalBytes c) in
        poolLoop duration rest
          (mkPoolCounters (allocCount c) (reuseCount c)
                          (wrapu64 (totalBytes c + wrapu64 targetSize)))
      else c
  end.

Definition ratePool (opsPerSec : float64) : string :=
  if fgeb opsPerSec (of_Z 500000) then "Excellent"
  else if fgeb opsPerSec (of_Z 200000) then "Good"
  else if fgeb opsPerSec (of_Z 100000) then "Adequate"
  else if fgeb opsPerSec (of_Z 50000) then "Marginal"
  else "Poor".

Definition BenchmarkPool (duration : time.Duration) (trace : list Got)
                         (elapsed : time.Duration) : PoolResult.t :=
  let c := poolLoop duration trace (mkPoolCounters 0 0 0) in
  let totalOps := wrapu64 (allocCount c + reuseCount c) in
  PoolResult.mk (fdiv (of_Z (allocCount c)) (time.Seconds elapsed))
                (fdiv (of_Z (reuseCount c)) (time.Seconds elapsed))
                (fdiv (of_Z (totalBytes c)) (of_Z (1024 * 1024)))
                elapsed
                (ratePool (fdiv (of_Z totalOps) (time.Seconds elapsed))).

(** *** State cache *)

Record stateObject := mkStateObject {
  address : Z;
  data : Z;
  originStorage : Map Z;
  dirtyStorage : Map Z;
  pendingStorage : Map Z;
  storageKeys : list Z }.

(** The cache, the slice of the addresses, and the number of calls made
    to the random source. *)
Record Populated := mkPopulated {
  cache : Map stateObject;
  addresses : list Z;
  drawn : nat }.

(** The inner loop of the set-up: [j] storage slots drawn and stored. *)
Fixpoint populateStorage (j : nat) (rand : Rand) (n : nat) (obj : stateObject)
  : stateObject * nat :=
  match j with
  | O => (obj, n)
  | S j' =>
      let key := rand n in
      let val := rand (S n) in
      populateStorage j' rand (S (S n))
        (mkStateObject (address obj) (data obj)
                       (assign (originStorage obj) key val)
                       (dirtyStorage obj) (pendingStorage obj)
                       (storageKeys obj ++ [key]))
  end.

(** The outer loop of the set-up: [i] accounts of 50 slots each. *)
Fixpoint populate (i : nat) (rand : Rand) (p : Populated) : Populated :=
  match i with
  | O => p
  | S i' =>
      let addr := rand (drawn p) in
      let obj := mkStateObject addr (rand (S (drawn p))) [] [] [] [] in
      let (obj, n) := populateStorage 50 rand (S (S (drawn p))) obj in
      populate i' rand (mkPopulated (assign (cache p) addr obj) (addresses p ++ [addr]) n)
  end.

(** The state of the measurement loop. *)
Record CacheState := mkCacheState {
  objects : Map stateObject;
  hits : Z;
  misses : Z;
  throughput : Z;
  reads : nat }.

Definition hit (s : CacheState) (objects : Map stateObject) (size : Z) : CacheState :=
  mkCacheState objects (wrapu64 (hits s + 1)) (misses s)
               (wrapu64 (throughput s + size)) (reads s).

Definition miss (s : CacheState) (size : Z) : CacheState :=
  mkCacheState (objects s) (hits s) (wrapu64 (misses s + 1))
               (wrapu64 (throughput s + size)) (reads s).

(** One pass of the loop body.  An index outside a slice, a zero divisor
    and the use of an object the cache does not hold panic ([None]). *)
Definition access (addresses : list Z) (rand : Rand) (s : CacheState)
  : option CacheState :=
  let opIndex := wrapu64 (hits s + misses s) in
  if (opIndex mod 5 <? 4)%Z then
    match imod (wrap64 opIndex) (len addresses) with
    | None => None
    | Some idx =>
        match index addresses idx with
        | None => None
        | Some addr =>
            match lookup (objects s) addr with
            | None => None
            | Some obj =>
                match imod (wrap64 opIndex) (len (storageKeys obj)) with
                | None => None
                | Some keyIdx =>
                    match index (storageKeys obj) keyIdx with
                    | None => None
                    | Some key =>
                        match lookup (dirtyStorage obj) key with
                        | Some _ => Some (hit s (objects s) 32)
                        | None =>
                            match lookup (pendingStorage obj) key with
                            | Some _ => Some (hit s (objects s) 32)
                            | None =>
                                match lookup (originStorage obj) key with
                                | Some val =>
                                    let obj :=
                                      mkStateObject (address obj) (data obj)
                                        (originStorage obj)
                                        (assign (dirtyStorage obj) key val)
                                        (pendingStorage obj) (storageKeys obj) in
                                    Some (hit s (assign (objects s) addr obj) 32)
                                | None => Some (miss s 32)
                                end
                            end
                        end
                    end
                end
            end
        end
    end
  else
    let newAddr := rand (reads s) in
    let s := mkCacheState (objects s) (hits s) (misses s) (throughput s)
                          (S (reads s)) in
    match lookup (objects s) newAddr with
    | None => Some (miss s 100)
    | Some _ => Some (hit s (objects s) 100)
    end.

Fixpoint cacheLoop (duration : time.Duration) (addresses : list Z) (rand : Rand)
                   (trace : list Tick) (s : CacheState) : option CacheState :=
  match trace with
  | [] => Some s
  | t :: rest =>
      if (since t <? duration)%Z then
        match access addresses rand s with
        | None => None
        | Some s => cacheLoop duration addresses rand rest s
        end
      else Some s
  end.

Definition rateStateCache (hitsPerSec : float64) : string :=
  if fgeb hitsPerSec (of_Z 500000) then "Excellent"
  else if fgeb hitsPerSec (of_Z 200000) then "Good"
  else if fgeb hitsPerSec (of_Z 100000) then "Adequate"
  else if fgeb hitsPerSec (of_Z 50000) then "Marginal"
  else "Poor".

(** The part of [BenchmarkStateCache] after its loop (lines 107-118). *)
Definition StateCacheResult_of (s : CacheState) (elapsed : time.Duration)
  : StateCacheResult.t :=
  let total := wrapu64 (hits s + misses s) in
  let hitRatio := fdiv (of_Z (hits s)) (of_Z total) in
  StateCacheResult.mk
    (fdiv (of_Z (hits s)) (time.Seconds elapsed))
    (fdiv (of_Z (misses s)) (time.Seconds elapsed))
    hitRatio
    (fdiv (fdiv (of_Z (throughput s)) (time.Seconds elapsed)) (of_Z (1024 * 1024)))
    elapsed
    (rateStateCache (fdiv (of_Z (hits s)) (time.Seconds elapsed))).

(** [BenchmarkStateCache]: 10000 accounts are drawn, then the loop runs
    over the cache. *)
Definition BenchmarkStateCache (duration : time.Duration) (rand : Rand) (l : Loop)
  : option StateCacheResult.t :=
  let p := populate (Z.to_nat 10000) rand (mkPopulated [] [] O) in
  match cacheLoop duration (addresses p) rand (trace l)
                  (mkCacheState (cache p) 0 0 0 (drawn p)) with
  | None => None
  | Some s => Some (StateCacheResult_of s (after l))
  end.

End memory.

(** ** The runner ([internal/benchmark], second part) *)

Module Runner.

(** What the probes of a category observe of the machine while they
    run. *)
Record CPUWorld := mkCPUWorld {
  keccak : Loop;
  keygen : error;
  presign : error;
  ecdsa_sign : Loop;
  ecdsa_verify : Loop;
  ecdsa_recover : Loop;
  bls_sign : Loop;
  bls_verify : Loop;
  bls_agg : Loop;
  bls_batch : Loop;
  randomG1 : error;
  randomG1b : error;
  randomG2 : error;
  bn256_add : Loop;
  bn256_mul : Loop;
  bn256_pair : Loop }.

Record MemoryWorld := mkMemoryWorld {
  trie_rand : Rand;
  memBefore : Z;
  memAfter : Z;
  trie_insert : Loop;
  trie_lookup : Loop;
  trie_hash : Loop;
  pool_gets : list memory.Got;
  pool_elapsed : time.Duration;
  cache_rand : Rand;
  cache_loop : Loop }.

Record DiskWorld := mkDiskWorld {
  seq_create : error;
  seq_writes : list disk.WritePass;
  seq_write_elapsed : time.Duration;
  seq_open : error;
  seq_reads : list disk.ReadPass;
  seq_read_elapsed : time.Duration;
  random_open : error;
  random_truncate : error;
  random_read : Loop;
  random_write : Loop;
  batch_open : error;
  batch_passes : list disk.BatchPass;
  batch_elapsed : time.Duration }.

(** A probe that panics ends the program: there are no results. *)
Definition runCPUBenchmarks (config : benchmark.Config) (w : CPUWorld)
  : option CPUResults.t :=
  let budget := benchmark.GetCPUTimeBudget config in
  let keccak := cpu.BenchmarkKeccak256 (benchmark.Keccak256 budget) (keccak w) in
  match cpu.BenchmarkECDSA (benchmark.ECDSA budget) (keygen w) (presign w)
                           (ecdsa_sign w) (ecdsa_verify w) (ecdsa_recover w) with
  | None => None
  | Some ecdsa =>
      let bls := cpu.BenchmarkBLS (benchmark.BLS budget)
                   (bls_sign w) (bls_verify w) (bls_agg w) (bls_batch w) in
      match cpu.BenchmarkBN256 (benchmark.BN256 budget)
                               (randomG1 w) (randomG1b w) (randomG2 w)
                               (bn256_add w) (bn256_mul w) (bn256_pair w) with
      | None => None
      | Some bn256 => Some (CPUResults.mk keccak ecdsa bls bn256)
      end
  end.

Definition runMemoryBenchmarks (config : benchmark.Config) (w : MemoryWorld)
  : option MemoryResults.t :=
  let budget := benchmark.GetMemoryTimeBudget config in
  match memory.BenchmarkTrie (benchmark.Trie budget) (trie_rand w)
                             (memBefore w) (memAfter w)
                             (trie_insert w) (trie_lookup w) (trie_hash w) with
  | None => None
  | Some trie =>
      let pool := memory.BenchmarkPool (benchmark.Pool budget)
                                       (pool_gets w) (pool_elapsed w) in
      match memory.BenchmarkStateCache (benchmark.StateCache budget)
                                       (cache_rand w) (cache_loop w) with
      | None => None
      | Some stateCache => Some (MemoryResults.mk trie pool stateCache)
      end
  end.

Definition runDiskBenchmarks (config : benchmark.Config) (w : DiskWorld)
  : DiskResults.t :=
  let budget := benchmark.GetDiskTimeBudget config in
  DiskResults.mk
    (disk.BenchmarkSequential (benchmark.Sequential budget)
       (seq_create w) (seq_writes w) (seq_write_elapsed w)
       (seq_open w) (seq_reads w) (seq_read_elapsed w))
    (disk.BenchmarkRandom (benchmark.Random budget)
       (random_open w) (random_truncate w) (random_read w) (random_write w))
    (disk.BenchmarkBatch (benchmark.Batch budget)
       (batch_open w) (batch_passes w) (batch_elapsed w)).

Definition RunAll (config : benchmark.Config)
                  (cw : CPUWorld) (mw : MemoryWorld) (dw : DiskWorld)
  : option Results.t :=
  match runCPUBenchmarks config cw with
  | None => None
  | Some cpuResults =>
      match runMemoryBenchmarks config mw with
      | None => None
      | Some memoryResults =>
          Some (Results.mk cpuResults memoryResults (runDiskBenchmarks config dw))
      end
  end.

End Runner.

(** ** Order on floats *)

(** [fle x y] and [flt x y] are Go's [x <= y] and [x < y] holding. *)
Definition fle (x y : float64) : Prop := fleb x y = true.
Definition flt (x y : float64) : Prop := fltb x y = true.

(** Two floats that compare equal (zeros of either sign, for instance). *)
Definition feqv (x y : float64) : Prop := fle x y /\ fle y x.

(** A canonical binary64 value that is a number and is not negative;
    [+Inf] is one. *)
Definition nonneg (x : float64) : Prop := valid x = true /\ fle zero x.

(** A finite canonical binary64 value that is not negative. *)
Definition measured (x : float64) : Prop :=
  valid x = true /\ is_finite x = true /\ fle zero x.

(** A 64-bit clock reading after a loop that shows that time has
    passed. *)
Definition timed (elapsed : time.Duration) : Prop := 0 < elapsed < 2 ^ 63.

(** A score within the scale. *)
Definition scaled (s : float64) : Prop := fle zero s /\ fle s (of_Z 100).

(** A calibration curve: canonical breakpoints with
    [0 < poor < marginal < good < excellent] and [25 * excellent]
    finite. *)
Definition calibration (poor marginal good excellent : float64) : Prop :=
  valid poor = true /\ valid marginal = true /\
  valid good = true /\ valid excellent = true /\
  flt zero poor /\ flt poor marginal /\ flt marginal good /\ flt good excellent /\
  is_finite (fmul (of_Z 25) excellent) = true.

(** ** The machine's floats

    The kernel's primitive binary64 floats, to test the model against. *)

Module machine.

Definition lift2 (op : PrimFloat.float -> PrimFloat.float -> PrimFloat.float)
                 (x y : float64) : float64 :=
  FloatOps.Prim2SF (op (FloatOps.SF2Prim x) (FloatOps.SF2Prim y)).

Definition test2 (op : PrimFloat.float -> PrimFloat.float -> bool)
                 (x y : float64) : bool :=
  op (FloatOps.SF2Prim x) (FloatOps.SF2Prim y).

Definition same (x y : float64) : bool :=
  match x, y with
  | S754_zero s, S754_zero s' => Bool.eqb s s'
  | S754_infinity s, S754_infinity s' => Bool.eqb s s'
  | S754_nan, S754_nan => true
  | S754_finite s m e, S754_finite s' m' e' =>
      Bool.eqb s s' && Pos.eqb m m' && Z.eqb e e'
  | _, _ => false
  end.

(** The model and the machine agree on a pair of operands. *)
Definition agree (x y : float64) : bool :=
  same (fadd x y) (lift2 PrimFloat.add x y)
  && same (fsub x y) (lift2 PrimFloat.sub x y)
  && same (fmul x y) (lift2 PrimFloat.mul x y)
  && same (fdiv x y) (lift2 PrimFloat.div x y)
  && Bool.eqb (fltb x y) (test2 PrimFloat.ltb x y)
  && Bool.eqb (fleb x y) (test2 PrimFloat.leb x y)
  && Bool.eqb (feqb x y) (test2 PrimFloat.eqb x y).

End machine.

(** ** Reference definitions, after the specification *)

Module spec.

Local Open Scope string_scope.

(** The three readiness labels. *)
Definition readiness_labels : list string := ["Ready"; "Marginal"; "Unsuitable"].

(** The six rating labels of a probe result. *)
Definition rating_labels : list string :=
  ["Excellent"; "Good"; "Adequate"; "Marginal"; "Poor"; "Error"].

(** The baseline advisories of the tier a score selects. *)
Definition baseline_advisories (score : Z) : list string :=
  if (80 <=? score)%Z then
    [ "Your hardware meets Ethereum node requirements.";
      "Both Geth and Nimbus should run well on this system." ]
  else if (60 <=? score)%Z then
    [ "Consensus client (Nimbus) should work well.";
      "Execution client (Geth) may struggle during high network activity.";
      "Consider using checkpoint sync to reduce initial sync time." ]
  else if (40 <=? score)%Z then
    [ "Hardware is below recommended specifications.";
      "Initial sync will be slow (potentially weeks).";
      "Consider using an external execution client RPC." ]
  else
    [ "Hardware does not meet minimum requirements for execution client.";
      "Consider upgrading to NVMe storage.";
      "A more powerful single-board computer is recommended." ].

(** The conditional advisories: each is triggered by its own raw metric,
    whatever the tier, and they come in this order. *)
Definition conditional_advisories (results : Results.t) : list string :=
  ((if fltb (RandomResult.ReadIOPS (DiskResults.Random (Results.Disk results)))
            (of_Z 10000)
    then [ "Random I/O performance is low. NVMe SSD strongly recommended." ]
    else [])
   ++
   (if fltb (ECDSAResult.VerificationsPerSecond
               (CPUResults.ECDSA (Results.CPU results))) (of_Z 500)
    then [ "ECDSA verification is slow. This may cause transaction validation delays." ]
    else [])
   ++
   (if fltb (BLSResult.VerificationsPerSecond
               (CPUResults.BLS (Results.CPU results))) (of_Z 100)
    then [ "BLS signature verification is slow. Consensus layer may lag." ]
    else []))%list.

(** The metrics that enter the score of a category, in the order the
    scorer reads them. *)
Definition cpu_metrics (cpu : CPUResults.t) : list float64 :=
  [ KeccakResult.HashesPerSecond (CPUResults.Keccak cpu);
    ECDSAResult.VerificationsPerSecond (CPUResults.ECDSA cpu);
    BLSResult.VerificationsPerSecond (CPUResults.BLS cpu);
    BN256Result.PairingsPerSecond (CPUResults.BN256 cpu) ].

Definition memory_metrics (mem : MemoryResults.t) : list float64 :=
  [ TrieResult.InsertsPerSecond (MemoryResults.Trie mem);
    PoolResult.AllocationsPerSecond (MemoryResults.Pool mem);
    PoolResult.ReusesPerSecond (MemoryResults.Pool mem);
    StateCacheResult.CacheHitsPerSecond (MemoryResults.StateCache mem) ].

Definition disk_metrics (disk : DiskResults.t) : list float64 :=
  [ SequentialResult.WriteSpeedMBps (DiskResults.Sequential disk);
    SequentialResult.ReadSpeedMBps (DiskResults.Sequential disk);
    RandomResult.ReadIOPS (DiskResults.Random disk);
    RandomResult.WriteIOPS (DiskResults.Random disk);
    BatchResult.ThroughputMBps (DiskResults.Batch disk) ].

Definition scored_metrics (results : Results.t) : list float64 :=
  (cpu_metrics (Results.CPU results) ++ memory_metrics (Results.Memory results)
   ++ disk_metrics (Results.Disk results))%list.

(** A rating label and a score that name the same quarter of the
    scale. *)
Definition band (rating : string) (score : float64) : Prop :=
  (rating = "Excellent" /\ score = of_Z 100) \/
  (rating = "Good" /\ fle (of_Z 75) score /\ fle score (of_Z 100)) \/
  (rating = "Adequate" /\ fle (of_Z 50) score /\ fle score (of_Z 75)) \/
  (rating = "Marginal" /\ fle (of_Z 25) score /\ fle score (of_Z 50)) \/
  (rating = "Poor" /\ fle score (of_Z 25)).

(** The observations a measurement loop acts on: those before the first
    reading of the clock that is not below the duration. *)
Fixpoint started {A : Type} (clock : A -> time.Duration) (duration : time.Duration)
                 (trace : list A) : list A :=
  match trace with
  | [] => []
  | t :: rest =>
      if (clock t <? duration)%Z then t :: started clock duration rest else []
  end.

(** A call that returned no error. *)
Definition succeeded (r : disk.IO) : bool :=
  match disk.failure r with nil => true | err _ => false end.

(** The bytes the pool probe has asked for after [k] passes: the target
    sizes run through 1024, 2048, 4096 and 8192. *)
Definition churn (k : Z) : Z :=
  15360 * (k / 4)
  + (if (k mod 4 =? 0)%Z then 0
     else if (k mod 4 =? 1)%Z then 1024
     else if (k mod 4 =? 2)%Z then 3072
     else 7168).

(** The passes among the first [k] of the state-cache probe that take
    the path of a cached account: four in five. *)
Definition cached (k : Z) : Z := k - k / 5.

(** The rates and volumes a category reports, the averages and the hit
    ratio apart. *)
Definition cpu_rates (cpu : CPUResults.t) : list float64 :=
  [ KeccakResult.HashesPerSecond (CPUResults.Keccak cpu);
    KeccakResult.DataProcessedMB (CPUResults.Keccak cpu);
    ECDSAResult.SignaturesPerSecond (CPUResults.ECDSA cpu);
    ECDSAResult.VerificationsPerSecond (CPUResults.ECDSA cpu);
    ECDSAResult.RecoveriesPerSecond (CPUResults.ECDSA cpu);
    BLSResult.SignaturesPerSecond (CPUResults.BLS cpu);
    BLSResult.VerificationsPerSecond (CPUResults.BLS cpu);
    BLSResult.AggregationsPerSecond (CPUResults.BLS cpu);
    BN256Result.G1AddsPerSecond (CPUResults.BN256 cpu);
    BN256Result.G1ScalarMulsPerSecond (CPUResults.BN256 cpu);
    BN256Result.PairingsPerSecond (CPUResults.BN256 cpu) ].

Definition memory_rates (mem : MemoryResults.t) : list float64 :=
  [ TrieResult.InsertsPerSecond (MemoryResults.Trie mem);
    TrieResult.LookupsPerSecond (MemoryResults.Trie mem);
    TrieResult.HashesPerSecond (MemoryResults.Trie mem);
    TrieResult.PeakMemoryMB (MemoryResults.Trie mem);
    PoolResult.AllocationsPerSecond (MemoryResults.Pool mem);
    PoolResult.ReusesPerSecond (MemoryResults.Pool mem);
    PoolResult.MemoryChurnMB (MemoryResults.Pool mem);
    StateCacheResult.CacheHitsPerSecond (MemoryResults.StateCache mem);
    StateCacheResult.CacheMissesPerSecond (MemoryResults.StateCache mem);
    StateCacheResult.ThroughputMBPerSec (MemoryResults.StateCache mem) ].

Definition disk_rates (disk : DiskResults.t) : list float64 :=
  [ SequentialResult.WriteSpeedMBps (DiskResults.Sequential disk);
    SequentialResult.ReadSpeedMBps (DiskResults.Sequential disk);
    RandomResult.ReadIOPS (DiskResults.Random disk);
    RandomResult.WriteIOPS (DiskResults.Random disk);
    BatchResult.BatchesPerSecond (DiskResults.Batch disk);
    BatchResult.ThroughputMBps (DiskResults.Batch disk) ].

(** The clock readings the probes of a category divide by. *)
Definition cpu_clocks (w : Runner.CPUWorld) : list time.Duration :=
  [ after (Runner.keccak w);
    after (Runner.ecdsa_sign w); after (Runner.ecdsa_verify w);
    after (Runner.ecdsa_recover w);
    after (Runner.bls_sign w); after (Runner.bls_verify w); after (Runner.bls_agg w);
    after (Runner.bn256_add w); after (Runner.bn256_mul w); after (Runner.bn256_pair w) ].

Definition memory_clocks (w : Runner.MemoryWorld) : list time.Duration :=
  [ after (Runner.trie_insert w); after (Runner.trie_lookup w);
    after (Runner.trie_hash w); Runner.pool_elapsed w; after (Runner.cache_loop w) ].

Definition disk_clocks (w : Runner.DiskWorld) : list time.Duration :=
  [ Runner.seq_write_elapsed w; Runner.seq_read_elapsed w;
    after (Runner.random_read w); after (Runner.random_write w);
    Runner.batch_elapsed w ].

(** The weighted total of the specification, in exact arithmetic. *)
Definition exact_total (cpu mem disk : Z) : Q :=
  (0.40 * inject_Z cpu + 0.35 * inject_Z disk + 0.25 * inject_Z mem)%Q.

(** [x*y + z] computed with one rounding, as a fused multiply-add does,
    on finite operands that are not negative. *)
Definition fused (x y z : float64) : float64 := round (F2Q x * F2Q y + F2Q z)%Q.

(** The values the Go specification allows for the expression of line
    73: a compiler may fuse a product into the sum it enters (arm64 does,
    amd64 does not).  The first value is the one with every operation
    rounded on its own. *)
Definition totals (cpu mem disk : Z) : list float64 :=
  let c := of_Z cpu in
  let d := of_Z disk in
  let m := of_Z mem in
  let inner :=
    [ fadd (fmul c (of_Q 0.40)) (fmul d (of_Q 0.35));
      fused c (of_Q 0.40) (fmul d (of_Q 0.35));
      fused d (of_Q 0.35) (fmul c (of_Q 0.40)) ] in
  flat_map (fun s => [ fadd s (fmul m (of_Q 0.25)); fused m (of_Q 0.25) s ]) inner.


(** A rating as the probes build it: one of the six labels, or the
    message of an error behind "Error: ". *)
Definition rating (r : string) : Prop :=
  In r rating_labels \/ exists msg : string, r = "Error: " ++ msg.

(** A pass of the loop is made: the first reading of the clock is below
    the duration. *)
Definition passes (duration : time.Duration) (l : Loop) : Prop :=
  started since duration (trace l) <> [].









(** The ratings of a run. *)
Definition ratings (results : Results.t) : list string :=
  let cpu := Results.CPU results in
  let mem := Results.Memory results in
  let disk := Results.Disk results in
  [ KeccakResult.Rating (CPUResults.Keccak cpu);
    ECDSAResult.Rating (CPUResults.ECDSA cpu);
    BLSResult.Rating (CPUResults.BLS cpu);
    BN256Result.Rating (CPUResults.BN256 cpu);
    TrieResult.Rating (MemoryResults.Trie mem);
    PoolResult.Rating (MemoryResults.Pool mem);
    StateCacheResult.Rating (MemoryResults.StateCache mem);
    SequentialResult.Rating (DiskResults.Sequential disk);
    RandomResult.Rating (DiskResults.Random disk);
    BatchResult.Rating (DiskResults.Batch disk) ].

End spec.

(** ** Sample inputs *)

Module sample.

Local Open Scope string_scope.

(** A machine whose every metric is at or above its "excellent"
    breakpoint. *)
Definition excellent_results : Results.t :=
  Results.mk
    (CPUResults.mk
       (KeccakResult.mk (of_Z 600000) 36000000 (of_Z 6640) 60000000000 "Excellent")
       (ECDSAResult.mk (of_Z 3000) (of_Z 2500) (of_Z 2400) 20000000000 "Excellent")
       (BLSResult.mk (of_Z 1500) (of_Z 600) (of_Z 9000) 15000000000 "Excellent")
       (BN256Result.mk (of_Z 90000) (of_Z 9000) (of_Z 120) 10000000000 "Excellent"))
    (MemoryResults.mk
       (TrieResult.mk (of_Z 60000) (of_Z 900000) (of_Z 70000) (of_Z 64) 25000000000 "Excellent")
       (PoolResult.mk (of_Z 300000) (of_Z 300000) (of_Z 4096) 15000000000 "Excellent")
       (StateCacheResult.mk (of_Z 600000) (of_Z 150000) (of_Q 0.8) (of_Z 30) 20000000000 "Excellent"))
    (DiskResults.mk
       (SequentialResult.mk (of_Z 500) (of_Z 500) 20000000000 "Excellent")
       (RandomResult.mk (of_Z 60000) (of_Z 60000) (of_Z 15) 25000000000 "Excellent")
       (BatchResult.mk (of_Z 40) (of_Z 150) (of_Z 5) 15000000000 "Excellent")).

(** A machine on which no probe counted anything. *)
Definition idle_results : Results.t :=
  Results.mk
    (CPUResults.mk KeccakResult.zero_value ECDSAResult.zero_value
                   BLSResult.zero_value BN256Result.zero_value)
    (MemoryResults.mk (TrieResult.mk zero zero zero zero 0 "")
                      (PoolResult.mk zero zero zero 0 "")
                      (StateCacheResult.mk zero zero zero zero 0 ""))
    (DiskResults.mk (SequentialResult.mk zero zero 0 "")
                    RandomResult.zero_value
                    (BatchResult.mk zero zero zero 0 "")).

(** The idle machine after a Keccak probe whose clock read 0 ns: its
    rate is 0/0. *)
Definition stalled_results : Results.t :=
  Results.mk
    (CPUResults.mk (KeccakResult.mk S754_nan 0 zero 0 "Poor") ECDSAResult.zero_value
                   BLSResult.zero_value BN256Result.zero_value)
    (Results.Memory idle_results) (Results.Disk idle_results).

(** The calibration curve of the Keccak metric. *)
Definition poor : float64 := of_Z 50000.
Definition marginal : float64 := of_Z 100000.
Definition good : float64 := of_Z 200000.
Definition excellent : float64 := of_Z 500000.

(** A curve whose last breakpoint is so large that 25 times a value
    below it overflows. *)
Definition huge : float64 := of_Q (2 ^ 1023).
Definition half_huge : float64 := of_Q (2 ^ 1022).

(** Floats of every kind, to compare the model with the machine's. *)
Definition floats : list float64 :=
  [ zero; S754_zero true; of_Z (-1); of_Z 25; of_Q 0.35; of_Z 45;
    half_huge; S754_finite false 9007199254740991 971;
    S754_finite false 1 (-1074); S754_finite true 3 (-1074);
    S754_infinity false; S754_infinity true; S754_nan ].

(** A loop that ran two passes of 300 ns before its 500 ns ran out. *)
Definition short_loop : Loop :=
  mkLoop [mkTick 0 true 120; mkTick 300 true 110; mkTick 610 true 0] 640.

(** A loop consulted right at its start: the first reading is 0 ns and
    250 ns have passed when the loop has been left. *)
Definition idle_loop : Loop := mkLoop [mkTick 0 true 40] 250.

(** What the probes observe on a machine where every loop is
    [short_loop] and every call succeeds. *)
Definition cpu_world : Runner.CPUWorld :=
  Runner.mkCPUWorld short_loop nil nil short_loop short_loop short_loop
                    short_loop short_loop short_loop short_loop
                    nil nil nil short_loop short_loop short_loop.

Definition memory_world : Runner.MemoryWorld :=
  Runner.mkMemoryWorld (fun n => Z.of_nat n) 1000 2000
                       short_loop short_loop short_loop
                       [memory.mkGot 0 4096; memory.mkGot 300 4096] 640
                       (fun n => Z.of_nat n) short_loop.

Definition disk_world : Runner.DiskWorld :=
  Runner.mkDiskWorld
    nil [disk.mkWritePass 0 [disk.mkIO 131072 nil; disk.mkIO 1048576 nil]] 640
    nil [disk.mkReadPass 0 (disk.mkIO 1048576 nil)] 640
    nil nil short_loop short_loop
    nil [disk.mkBatchPass 0 (disk.mkIO 200000 nil) 150] 640.


(** The idle machine but for a trie probe of 600 inserts per second and
    a random-I/O probe of 50000 operations per second each way: it scores
    0 for the CPU, 1 for the memory and 45 for the disk. *)
Definition rounding_results : Results.t :=
  Results.mk
    (Results.CPU idle_results)
    (MemoryResults.mk (TrieResult.mk (of_Z 600) zero zero zero 0 "Poor")
                      (PoolResult.mk zero zero zero 0 "Poor")
                      (StateCacheResult.mk zero zero zero zero 0 "Poor"))
    (DiskResults.mk (SequentialResult.mk zero zero 0 "Poor")
                    (RandomResult.mk (of_Z 50000) (of_Z 50000) (of_Z 20) 0 "Excellent")
                    (BatchResult.mk zero zero zero 0 "Poor")).


(** The sample machine when the pre-generated signature of the ECDSA
    probe could not be made. *)
Definition unsigned_world : Runner.CPUWorld :=
  Runner.mkCPUWorld short_loop nil (err "entropy source failed")
                    short_loop short_loop short_loop
                    short_loop short_loop short_loop short_loop
                    nil nil nil short_loop short_loop short_loop.

Definition raspberry : system.Info :=
  system.mkInfo "pi" "unknown" "Debian GNU/Linux" "12" "arm64" "Cortex-A76" 4 8192
                "NVMe" "Raspberry Pi 5" "" "" "" "" 0 "".

End sample.

(** * Properties of the binary64 model *)

Section Pow2.
Local Open Scope Q_scope.

Lemma pow2_pos (k : Z) : 0 < 2 ^ k.
Proof. apply Qpower_0_lt. reflexivity. Qed.

Lemma pow2_add (a b : Z) : 2 ^ (a + b) == 2 ^ a * 2 ^ b.
Proof. apply Qpower_plus. discriminate. Qed.

Lemma pow2_le (a b : Z) : (a <= b)%Z -> 2 ^ a <= 2 ^ b.
Proof. intros H. apply Qpower_le_compat_l; [exact H | discriminate]. Qed.

Lemma pow2_lt (a b : Z) : (a < b)%Z -> 2 ^ a < 2 ^ b.
Proof. intros H. apply Qpower_lt_compat_l; [exact H | reflexivity]. Qed.

Lemma pow2_lt_inv (a b : Z) : 2 ^ a < 2 ^ b -> (a < b)%Z.
Proof. intros H. apply Qpower_lt_compat_l_inv with (q := 2); [exact H | reflexivity]. Qed.

Lemma pow2_Z (k : Z) : (0 <= k)%Z -> 2 ^ k == inject_Z (2 ^ k).
Proof. intros H. rewrite Zpower_Qpower by exact H. reflexivity. Qed.

Lemma pow2_succ (k : Z) : 2 ^ (k + 1) == 2 * 2 ^ k.
Proof. rewrite pow2_add. simpl (2 ^ 1). ring. Qed.

(** [ilog2] brackets its argument between consecutive powers of two. *)
Lemma ilog2_spec (a : Q) : 0 < a -> 2 ^ ilog2 a <= a /\ a < 2 ^ (ilog2 a + 1).
Proof.
  intros Ha. destruct a as [n d]. 
  assert (Hn : (0 < n)%Z).
  { unfold Qlt in Ha. simpl in Ha. lia. }
  unfold ilog2. cbn [Qnum Qden].
  set (ln := Z.log2 n). set (ld := Z.log2 (Zpos d)).
  destruct (Z.log2_spec n Hn) as [Hn1 Hn2]. fold ln in Hn1, Hn2.
  destruct (Z.log2_spec (Zpos d) eq_refl) as [Hd1 Hd2]. fold ld in Hd1, Hd2.
  assert (Hln : (0 <= ln)%Z) by apply Z.log2_nonneg.
  assert (Hld : (0 <= ld)%Z) by apply Z.log2_nonneg.
  assert (Hq : n # d == inject_Z n / inject_Z (Zpos d)) by apply Qmake_Qdiv.
  assert (Hdpos : 0 < inject_Z (Zpos d)) by reflexivity.
  assert (Qn1 : 2 ^ ln <= inject_Z n).
  { rewrite pow2_Z by exact Hln. rewrite <- Zle_Qle. exact Hn1. }
  assert (Qn2 : inject_Z n < 2 ^ (ln + 1)).
  { rewrite pow2_Z by lia. rewrite <- Zlt_Qlt. rewrite <- Z.add_1_r in Hn2. exact Hn2. }
  assert (Qd1 : 2 ^ ld <= inject_Z (Zpos d)).
  { rewrite pow2_Z by exact Hld. rewrite <- Zle_Qle. exact Hd1. }
  assert (Qd2 : inject_Z (Zpos d) < 2 ^ (ld + 1)).
  { rewrite pow2_Z by lia. rewrite <- Zlt_Qlt. rewrite <- Z.add_1_r in Hd2. exact Hd2. }
  destruct (Qle_bool (2 ^ (ln - ld)) (n # d)) eqn:E.
  - apply Qle_bool_iff in E. split; [exact E|].
    rewrite Hq. apply Qlt_shift_div_r; [exact Hdpos|].
    apply Qlt_le_trans with (2 ^ (ln + 1)); [exact Qn2|].
    assert (Hp : 2 ^ (ln - ld + 1) * 2 ^ ld == 2 ^ (ln + 1)).
    { rewrite <- pow2_add. replace (ln - ld + 1 + ld)%Z with (ln + 1)%Z by lia. reflexivity. }
    rewrite <- Hp. apply Qmult_le_l; [apply pow2_pos | exact Qd1].
  - assert (E' : n # d < 2 ^ (ln - ld)).
    { apply Qnot_le_lt. intro H. apply Qle_bool_iff in H. congruence. }
    replace (ln - ld - 1 + 1)%Z with (ln - ld)%Z by lia.
    split; [|exact E'].
    rewrite Hq. apply Qle_shift_div_l; [exact Hdpos|].
    apply Qle_trans with (2 ^ ln); [|exact Qn1].
    assert (Hp : 2 ^ (ln - ld - 1) * 2 ^ (ld + 1) == 2 ^ ln).
    { rewrite <- pow2_add. replace (ln - ld - 1 + (ld + 1))%Z with ln by lia. reflexivity. }
    rewrite <- Hp. apply Qlt_le_weak. apply Qmult_lt_l; [apply pow2_pos | exact Qd2].
Qed.

Lemma ilog2_unique (a : Q) (e : Z) : 2 ^ e <= a -> a < 2 ^ (e + 1) -> ilog2 a = e.
Proof.
  intros H1 H2.
  assert (Ha : 0 < a) by (apply Qlt_le_trans with (2 ^ e); [apply pow2_pos | exact H1]).
  destruct (ilog2_spec a Ha) as [L1 L2].
  assert (A : (ilog2 a < e + 1)%Z).
  { apply pow2_lt_inv. apply Qle_lt_trans with a; assumption. }
  assert (B : (e < ilog2 a + 1)%Z).
  { apply pow2_lt_inv. apply Qle_lt_trans with a; assumption. }
  lia.
Qed.

Lemma ilog2_le (a b : Q) : 0 < a -> a <= b -> (ilog2 a <= ilog2 b)%Z.
Proof.
  intros Ha Hab.
  assert (Hb : 0 < b) by (apply Qlt_le_trans with a; assumption).
  destruct (ilog2_spec a Ha) as [A1 A2]. destruct (ilog2_spec b Hb) as [B1 B2].
  assert (A : (ilog2 a < ilog2 b + 1)%Z).
  { apply pow2_lt_inv. apply Qle_lt_trans with a; [exact A1|].
    apply Qle_lt_trans with b; assumption. }
  lia.
Qed.

Lemma ilog2_compat (a b : Q) : 0 < a -> a == b -> ilog2 a = ilog2 b.
Proof.
  intros Ha Hab. symmetry. destruct (ilog2_spec a Ha) as [A1 A2].
  apply ilog2_unique; rewrite <- Hab; assumption.
Qed.

End Pow2.

Section Rne.
Local Open Scope Q_scope.

Lemma rne_cases (x : Q) :
  (x - inject_Z (Qfloor x) < 1 # 2 /\ rne x = Qfloor x) \/
  (x - inject_Z (Qfloor x) == 1 # 2 /\ (rne x = Qfloor x \/ rne x = (Qfloor x + 1)%Z)) \/
  (1 # 2 < x - inject_Z (Qfloor x) /\ rne x = (Qfloor x + 1)%Z).
Proof.
  unfold rne. destruct (x - inject_Z (Qfloor x) ?= 1 # 2) eqn:E.
  - right; left. apply Qeq_alt in E. split; [exact E|]. destruct (Z.even _); auto.
  - left. apply Qlt_alt in E. auto.
  - right; right. apply Qgt_alt in E. auto.
Qed.

Lemma Qfloor_bounds (x : Q) : inject_Z (Qfloor x) <= x /\ x < inject_Z (Qfloor x) + 1.
Proof.
  split; [apply Qfloor_le|].
  pose proof (Qlt_floor x) as H. rewrite inject_Z_plus in H. exact H.
Qed.

Lemma rne_upper (x : Q) : inject_Z (rne x) <= x + (1 # 2).
Proof.
  destruct (Qfloor_bounds x) as [F1 F2].
  destruct (rne_cases x) as [[H E]|[[H [E|E]]|[H E]]]; rewrite E;
    try rewrite inject_Z_plus; change (inject_Z 1) with 1; lra.
Qed.

Lemma rne_Z (n : Z) : rne (inject_Z n) = n.
Proof.
  destruct (rne_cases (inject_Z n)) as [[H E]|[[H E]|[H E]]];
    rewrite Qfloor_Z in *; [exact E | exfalso; lra | exfalso; lra].
Qed.

Lemma rne_le (x y : Q) : x <= y -> (rne x <= rne y)%Z.
Proof.
  intros Hxy.
  pose proof (Qfloor_resp_le x y Hxy) as Hf.
  destruct (Qfloor_bounds x) as [X1 X2]. destruct (Qfloor_bounds y) as [Y1 Y2].
  destruct (Z.eq_dec (Qfloor x) (Qfloor y)) as [Heq|Hne].
  - unfold rne. rewrite <- Heq.
    destruct (Qcompare_spec (x - inject_Z (Qfloor x)) (1 # 2)) as [Ex|Ex|Ex];
    destruct (Qcompare_spec (y - inject_Z (Qfloor x)) (1 # 2)) as [Ey|Ey|Ey];
    try destruct (Z.even (Qfloor x)); try lia; exfalso; lra.
  - assert (Hlt : (Qfloor x + 1 <= Qfloor y)%Z) by lia.
    assert (A : (rne x <= Qfloor x + 1)%Z).
    { destruct (rne_cases x) as [[_ E]|[[_ [E|E]]|[_ E]]]; lia. }
    assert (B : (Qfloor y <= rne y)%Z).
    { destruct (rne_cases y) as [[_ E]|[[_ [E|E]]|[_ E]]]; lia. }
    lia.
Qed.

Lemma rne_compat (x y : Q) : x == y -> rne x = rne y.
Proof.
  intros H. apply Z.le_antisymm; apply rne_le; rewrite H; apply Qle_refl.
Qed.

Lemma rne_ge (x : Q) (n : Z) : inject_Z n <= x -> (n <= rne x)%Z.
Proof. intros H. rewrite <- (rne_Z n). apply rne_le. exact H. Qed.

Lemma rne_le_Z (x : Q) (n : Z) : x <= inject_Z n -> (rne x <= n)%Z.
Proof. intros H. rewrite <- (rne_Z n). apply rne_le. exact H. Qed.

End Rne.

(** The mantissa [round_pos] computes. *)
Section RoundPos.
Local Open Scope Q_scope.

Lemma ulp_exp_ge (a : Q) : (emin <= ulp_exp a)%Z.
Proof. unfold ulp_exp. lia. Qed.

Lemma ulp_exp_le (a b : Q) : 0 < a -> a <= b -> (ulp_exp a <= ulp_exp b)%Z.
Proof. intros Ha Hab. unfold ulp_exp. pose proof (ilog2_le a b Ha Hab). lia. Qed.

Lemma ulp_exp_compat (a b : Q) : 0 < a -> a == b -> ulp_exp a = ulp_exp b.
Proof. intros Ha Hab. unfold ulp_exp. rewrite (ilog2_compat a b Ha Hab). reflexivity. Qed.

Lemma scaled_lt (a : Q) : 0 < a -> a / 2 ^ ulp_exp a < 2 ^ 53.
Proof.
  intros Ha. destruct (ilog2_spec a Ha) as [_ H2].
  apply Qlt_shift_div_r; [apply pow2_pos|].
  rewrite <- pow2_add.
  apply Qlt_le_trans with (2 ^ (ilog2 a + 1)); [exact H2|].
  apply pow2_le. unfold ulp_exp. lia.
Qed.

Lemma scaled_pos (a : Q) : 0 < a -> 0 < a / 2 ^ ulp_exp a.
Proof.
  intros Ha. apply Qlt_shift_div_l; [apply pow2_pos|]. lra.
Qed.

Lemma scaled_ge (a : Q) :
  0 < a -> (emin <= ilog2 a - 52)%Z -> 2 ^ 52 <= a / 2 ^ ulp_exp a.
Proof.
  intros Ha Hn. destruct (ilog2_spec a Ha) as [H1 _].
  apply Qle_shift_div_l; [apply pow2_pos|].
  rewrite <- pow2_add.
  replace (52 + ulp_exp a)%Z with (ilog2 a) by (unfold ulp_exp; lia).
  exact H1.
Qed.

Lemma mant_range (a : Q) :
  0 < a -> (0 <= rne (a / 2 ^ ulp_exp a) <= 2 ^ 53)%Z.
Proof.
  intros Ha. split.
  - apply rne_ge. apply Qlt_le_weak. apply scaled_pos. exact Ha.
  - apply rne_le_Z. apply Qlt_le_weak.
    change (inject_Z (2 ^ 53)) with (2 ^ 53). apply scaled_lt. exact Ha.
Qed.

Lemma mant_ge (a : Q) :
  0 < a -> (emin <= ilog2 a - 52)%Z -> (2 ^ 52 <= rne (a / 2 ^ ulp_exp a))%Z.
Proof.
  intros Ha Hn. apply rne_ge. change (inject_Z (2 ^ 52)) with (2 ^ 52).
  apply scaled_ge; assumption.
Qed.

End RoundPos.

Section Order.
Local Open Scope Q_scope.

Lemma float_cases (x : float64) :
  x = S754_nan \/ x = S754_infinity true \/ x = S754_infinity false \/
  is_finite x = true.
Proof. destruct x as [s|[|]| |s m e]; auto. Qed.

Lemma fcompare_fin (x y : float64) :
  is_finite x = true -> is_finite y = true ->
  fcompare x y = Some (F2Q x ?= F2Q y).
Proof. destruct x, y; simpl; intros; try discriminate; reflexivity. Qed.

Lemma fcompare_fin_inf (x : float64) (s : bool) :
  is_finite x = true -> fcompare x (S754_infinity s) = Some (if s then Gt else Lt).
Proof. destruct x; simpl; intros; try discriminate; reflexivity. Qed.

Lemma fcompare_inf_fin (x : float64) (s : bool) :
  is_finite x = true -> fcompare (S754_infinity s) x = Some (if s then Lt else Gt).
Proof. destruct x; simpl; intros; try discriminate; reflexivity. Qed.

Lemma fcompare_nan_r (x : float64) : fcompare x S754_nan = None.
Proof. destruct x; reflexivity. Qed.

Lemma fle_fin (x y : float64) :
  is_finite x = true -> is_finite y = true -> (fle x y <-> F2Q x <= F2Q y).
Proof.
  intros Hx Hy. unfold fle, fleb. rewrite (fcompare_fin x y Hx Hy).
  destruct (Qcompare_spec (F2Q x) (F2Q y)) as [E|E|E]; split; intros H;
    try reflexivity; try discriminate; try lra.
Qed.

Lemma flt_fin (x y : float64) :
  is_finite x = true -> is_finite y = true -> (flt x y <-> F2Q x < F2Q y).
Proof.
  intros Hx Hy. unfold flt, fltb. rewrite (fcompare_fin x y Hx Hy).
  destruct (Qcompare_spec (F2Q x) (F2Q y)) as [E|E|E]; split; intros H;
    try reflexivity; try discriminate; try lra.
Qed.

Lemma fle_ninf (x : float64) : is_nan x = false -> fle (S754_infinity true) x.
Proof. destruct x as [s|[|]| |s m e]; simpl; intros; try discriminate; reflexivity. Qed.

Lemma fle_pinf (x : float64) : is_nan x = false -> fle x (S754_infinity false).
Proof. destruct x as [s|[|]| |s m e]; simpl; intros; try discriminate; reflexivity. Qed.

Lemma fle_not_nan (x y : float64) : fle x y -> is_nan x = false /\ is_nan y = false.
Proof.
  destruct x as [s|[|]| |s m e], y as [s'|[|]| |s' m' e']; unfold fle; simpl;
    intros; try discriminate; auto.
Qed.

Lemma flt_fle (x y : float64) : flt x y -> fle x y.
Proof.
  unfold flt, fle, fltb, fleb. destruct (fcompare x y) as [[| |]|]; congruence.
Qed.

End Order.

Ltac float_cases x H :=
  destruct (float_cases x) as [->|[->|[->|H]]].

Ltac fin_simpl :=
  rewrite ?fcompare_nan_r in *;
  repeat match goal with
  | Hx : is_finite ?x = true, Hy : is_finite ?y = true |- context [fcompare ?x ?y] =>
      rewrite (fcompare_fin x y Hx Hy)
  | Hx : is_finite ?x = true |- context [fcompare ?x (S754_infinity ?s)] =>
      rewrite (fcompare_fin_inf x s Hx)
  | Hx : is_finite ?x = true |- context [fcompare (S754_infinity ?s) ?x] =>
      rewrite (fcompare_inf_fin x s Hx)
  | Hx : is_finite ?x = true, Hy : is_finite ?y = true, H : context [fcompare ?x ?y] |- _ =>
      rewrite (fcompare_fin x y Hx Hy) in H
  | Hx : is_finite ?x = true, H : context [fcompare ?x (S754_infinity ?s)] |- _ =>
      rewrite (fcompare_fin_inf x s Hx) in H
  | Hx : is_finite ?x = true, H : context [fcompare (S754_infinity ?s) ?x] |- _ =>
      rewrite (fcompare_inf_fin x s Hx) in H
  end.

Section OrderLaws.
Local Open Scope Q_scope.

Lemma fle_trans (x y z : float64) : fle x y -> fle y z -> fle x z.
Proof.
  unfold fle, fleb.
  float_cases x Hx; float_cases y Hy; float_cases z Hz; fin_simpl;
    try (simpl; intros; (discriminate || reflexivity)).
  destruct (Qcompare_spec (F2Q x) (F2Q y)); destruct (Qcompare_spec (F2Q y) (F2Q z));
    destruct (Qcompare_spec (F2Q x) (F2Q z)); intros; try reflexivity; try discriminate;
    exfalso; lra.
Qed.

Lemma fle_refl (x : float64) : is_nan x = false -> fle x x.
Proof.
  unfold fle, fleb. float_cases x Hx; fin_simpl;
    try (simpl; intros; (discriminate || reflexivity)).
  intros _. rewrite (fcompare_fin x x Hx Hx).
  destruct (Qcompare_spec (F2Q x) (F2Q x)); try reflexivity; exfalso; lra.
Qed.

Lemma flt_fle_trans (x y z : float64) : flt x y -> fle y z -> flt x z.
Proof.
  unfold flt, fle, fltb, fleb.
  float_cases x Hx; float_cases y Hy; float_cases z Hz; fin_simpl;
    try (simpl; intros; (discriminate || reflexivity)).
  destruct (Qcompare_spec (F2Q x) (F2Q y)); destruct (Qcompare_spec (F2Q y) (F2Q z));
    destruct (Qcompare_spec (F2Q x) (F2Q z)); intros; try reflexivity; try discriminate;
    exfalso; lra.
Qed.

(** Of two numbers, one is below the other. *)
Lemma fle_total (x y : float64) :
  is_nan x = false -> is_nan y = false -> fle x y \/ flt y x.
Proof.
  unfold flt, fle, fltb, fleb.
  float_cases x Hx; float_cases y Hy; fin_simpl;
    try (simpl; intros; (discriminate || auto; fail)).
  intros _ _. rewrite <- Qcompare_antisym.
  destruct (Qcompare_spec (F2Q y) (F2Q x)); simpl; auto.
Qed.

Lemma flt_fgeb_false (x y : float64) : flt x y -> fgeb x y = false.
Proof.
  unfold flt, fgeb, fltb, fleb.
  float_cases x Hx; float_cases y Hy; fin_simpl;
    try (simpl; intros; (discriminate || auto; fail)).
  rewrite <- Qcompare_antisym.
  destruct (Qcompare_spec (F2Q y) (F2Q x)); simpl; intros; congruence.
Qed.

Lemma fle_opp (x y : float64) : fle x y -> fle (fopp y) (fopp x).
Proof.
  assert (Fo : forall z, is_finite z = true -> is_finite (fopp z) = true)
    by (intros [| | |]; simpl; auto).
  assert (Qo : forall z, is_finite z = true -> F2Q (fopp z) == - F2Q z).
  { intros [s|s| |s m e]; simpl; intros; try discriminate; try reflexivity.
    unfold fopp, F2Q. destruct s; cbn [negb cond_Zopp Z.opp];
      change (inject_Z (Z.neg m)) with (- inject_Z (Z.pos m)); ring. }
  intros H. unfold fle, fleb in *.
  float_cases x Hx; float_cases y Hy;
    try pose proof (Fo _ Hx) as Hx'; try pose proof (Fo _ Hy) as Hy';
    cbn [fopp negb] in *; fin_simpl;
    try (simpl in *; (discriminate || reflexivity)).
  destruct (Qcompare_spec (F2Q (fopp y)) (F2Q (fopp x))) as [E|E|E]; try reflexivity.
  destruct (Qcompare_spec (F2Q x) (F2Q y)) as [E'|E'|E']; try discriminate;
    rewrite (Qo _ Hx), (Qo _ Hy) in E; exfalso; lra.
Qed.

End OrderLaws.

Section Round.
Local Open Scope Q_scope.

Lemma inject_cond_Zopp (s : bool) (m : Z) :
  inject_Z (cond_Zopp s m) == (if s then - inject_Z m else inject_Z m).
Proof.
  destruct s; simpl; [|reflexivity]. unfold Qeq; simpl. lia.
Qed.

(** What [mkfloat] builds: a finite value of the expected magnitude, or
    an infinity when the exponent is out of range. *)
Lemma mkfloat_spec (s : bool) (m k : Z) :
  (0 <= m <= 2 ^ 53)%Z ->
  (is_finite (mkfloat s m k) = true /\
   F2Q (mkfloat s m k) == inject_Z (cond_Zopp s m) * 2 ^ k /\
   (m = 0 \/ (k <= emax /\ (m < 2 ^ 53 \/ k < emax)))%Z) \/
  (mkfloat s m k = S754_infinity s /\ (0 < m)%Z /\
   (emax < k \/ (m = 2 ^ 53 /\ k = emax))%Z).
Proof.
  intros Hm. unfold mkfloat.
  destruct (Z.eqb_spec m 0) as [E0|E0].
  - left. subst m. split; [reflexivity|]. split; [|left; reflexivity].
    simpl. destruct s; simpl; ring.
  - destruct (Z.eqb_spec m (2 ^ 53)) as [E1|E1].
    + destruct (Z.leb_spec (k + 1) emax) as [L|L].
      * left. split; [reflexivity|]. split; [|right; lia]. subst m. unfold F2Q.
        rewrite pow2_succ. rewrite !inject_cond_Zopp.
        change (inject_Z (Z.pos (2 ^ 52))) with (2 ^ 52).
        change (inject_Z (2 ^ 53)) with (2 * 2 ^ 52).
        destruct s; ring.
      * right. split; [reflexivity|]. split; [lia|]. lia.
    + destruct (Z.leb_spec k emax) as [L|L].
      * left. split; [reflexivity|]. split; [|right; lia]. unfold F2Q.
        rewrite Z2Pos.id by lia. reflexivity.
      * right. split; [reflexivity|]. split; [lia|]. left. lia.
Qed.

Lemma mkfloat_not_nan (s : bool) (m k : Z) : is_nan (mkfloat s m k) = false.
Proof.
  unfold mkfloat. repeat match goal with |- context [if ?b then _ else _] => destruct b end;
    reflexivity.
Qed.

Lemma mkfloat_opp (m k : Z) : mkfloat true m k = fopp (mkfloat false m k).
Proof.
  unfold mkfloat. repeat match goal with |- context [if ?b then _ else _] => destruct b end;
    reflexivity.
Qed.

Lemma mkfloat_le (m k m' k' : Z) :
  (0 <= m <= 2 ^ 53)%Z -> (0 <= m' <= 2 ^ 53)%Z -> (k <= k')%Z ->
  inject_Z m * 2 ^ k <= inject_Z m' * 2 ^ k' ->
  fle (mkfloat false m k) (mkfloat false m' k').
Proof.
  intros Hm Hm' Hk Hv.
  destruct (mkfloat_spec false m k Hm) as [[F [V C]]|[I [P C]]];
  destruct (mkfloat_spec false m' k' Hm') as [[F' [V' C']]|[I' [P' C']]].
  - apply fle_fin; auto. rewrite V, V'. exact Hv.
  - rewrite I'. apply fle_pinf. apply mkfloat_not_nan.
  - exfalso.
    assert (Pk : 0 < 2 ^ k) by apply pow2_pos.
    assert (Pk' : 0 < 2 ^ k') by apply pow2_pos.
    destruct C' as [Z0|[L' D']].
    + subst m'. assert (0 < inject_Z m) by (rewrite Zlt_Qlt in P; exact P). 
      change (inject_Z 0) with 0 in Hv. nra.
    + destruct C as [C|[C1 C2]]; [lia|].
      assert (k' = k) by lia. subst k'. 
      assert (LL : inject_Z m <= inject_Z m').
      { apply Qmult_le_r in Hv; auto. }
      rewrite <- Zle_Qle in LL. lia.
  - rewrite I, I'. reflexivity.
Qed.

Lemma round_pos_opp (a : Q) : round_pos true a = fopp (round_pos false a).
Proof. unfold round_pos. apply mkfloat_opp. Qed.

Lemma round_pos_not_nan (s : bool) (a : Q) : is_nan (round_pos s a) = false.
Proof. apply mkfloat_not_nan. Qed.

Lemma round_not_nan (a : Q) : is_nan (round a) = false.
Proof.
  unfold round. destruct (a ?= 0); [reflexivity | |]; apply round_pos_not_nan.
Qed.

Lemma round_pos_le (a b : Q) :
  0 < a -> a <= b -> fle (round_pos false a) (round_pos false b).
Proof.
  intros Ha Hab. assert (Hb : 0 < b) by lra.
  unfold round_pos.
  pose proof (ulp_exp_le a b Ha Hab) as Hk.
  apply mkfloat_le; try (apply mant_range; assumption); [exact Hk|].
  set (ka := ulp_exp a) in *. set (kb := ulp_exp b) in *.
  assert (Pa : 0 < 2 ^ ka) by apply pow2_pos.
  assert (Pb : 0 < 2 ^ kb) by apply pow2_pos.
  destruct (Z.eq_dec ka kb) as [E|NE].
  - rewrite <- E. apply Qmult_le_compat_r; [|lra].
    rewrite <- Zle_Qle. apply rne_le.
    apply Qmult_le_compat_r; [exact Hab|].
    apply Qlt_le_weak, Qinv_lt_0_compat, Pa.
  - assert (Hlt : (ka < kb)%Z) by lia.
    assert (Hn : (emin <= ilog2 b - 52)%Z).
    { subst ka kb. unfold ulp_exp in *. pose proof (ulp_exp_ge a). unfold ulp_exp in *. lia. }
    assert (Ekb : kb = (ilog2 b - 52)%Z) by (subst kb; unfold ulp_exp; lia).
    pose proof (mant_ge b Hb Hn) as Mb. fold kb in Mb.
    (* the value rounded from [a] stays below [2^(ilog2 b)] *)
    destruct (ilog2_spec a Ha) as [_ A2]. destruct (ilog2_spec b Hb) as [B1 _].
    assert (Hea : (ilog2 a + 1 <= ilog2 b)%Z).
    { subst ka kb. unfold ulp_exp in Hlt. lia. }
    assert (Ma : (rne (a / 2 ^ ka) <= 2 ^ (ilog2 b - ka))%Z).
    { apply rne_le_Z. rewrite <- pow2_Z by lia.
      apply Qle_shift_div_r; [exact Pa|].
      rewrite <- pow2_add. replace (ilog2 b - ka + ka)%Z with (ilog2 b) by lia.
      apply Qlt_le_weak. apply Qlt_le_trans with (2 ^ (ilog2 a + 1)); [exact A2|].
      apply pow2_le. exact Hea. }
    apply Qle_trans with (2 ^ ilog2 b).
    + rewrite Zle_Qle in Ma. rewrite <- pow2_Z in Ma by lia.
      apply Qle_trans with (2 ^ (ilog2 b - ka) * 2 ^ ka).
      * apply Qmult_le_compat_r; [exact Ma | lra].
      * rewrite <- pow2_add. replace (ilog2 b - ka + ka)%Z with (ilog2 b) by lia.
        apply Qle_refl.
    + rewrite Zle_Qle in Mb. change (inject_Z (2 ^ 52)) with (2 ^ 52) in Mb.
      apply Qle_trans with (2 ^ 52 * 2 ^ kb).
      * rewrite <- pow2_add. replace (52 + kb)%Z with (ilog2 b) by lia. apply Qle_refl.
      * apply Qmult_le_compat_r; [exact Mb | lra].
Qed.

Lemma round_pos_nonneg (a : Q) : 0 < a -> fle (S754_zero false) (round_pos false a).
Proof.
  intros Ha. unfold round_pos.
  replace (S754_zero false) with (mkfloat false 0 (ulp_exp a)) by reflexivity.
  pose proof (mant_range a Ha).
  apply mkfloat_le; try lia.
  change (inject_Z 0) with 0. pose proof (pow2_pos (ulp_exp a)).
  assert (0 <= inject_Z (rne (a / 2 ^ ulp_exp a))).
  { change 0 with (inject_Z 0). rewrite <- Zle_Qle. lia. }
  nra.
Qed.

(** Rounding preserves the order. *)
Lemma round_le (a b : Q) : a <= b -> fle (round a) (round b).
Proof.
  intros Hab. unfold round.
  destruct (Qcompare_spec a 0) as [A|A|A]; destruct (Qcompare_spec b 0) as [B|B|B];
    try (exfalso; lra).
  - reflexivity.
  - apply round_pos_nonneg. exact B.
  - rewrite round_pos_opp. change (S754_zero false) with (fopp (S754_zero true)).
    apply fle_opp. apply fle_trans with (S754_zero false); [reflexivity|].
    apply round_pos_nonneg. lra.
  - rewrite !round_pos_opp. apply fle_opp. apply round_pos_le; lra.
  - rewrite round_pos_opp.
    apply fle_trans with (S754_zero false).
    + change (S754_zero false) with (fopp (S754_zero true)).
      apply fle_opp. apply fle_trans with (S754_zero false); [reflexivity|].
      apply round_pos_nonneg. lra.
    + apply round_pos_nonneg. exact B.
  - apply round_pos_le; lra.
Qed.

Lemma round_pos_compat (s : bool) (a b : Q) : 0 < a -> a == b -> round_pos s a = round_pos s b.
Proof.
  intros Ha Hab. unfold round_pos. rewrite (ulp_exp_compat a b Ha Hab).
  f_equal. apply rne_compat. rewrite Hab. reflexivity.
Qed.

Lemma round_compat (a b : Q) : a == b -> round a = round b.
Proof.
  intros Hab. unfold round. rewrite <- (Qcompare_comp a b Hab 0 0 (Qeq_refl 0)).
  destruct (Qcompare_spec a 0) as [A|A|A]; [reflexivity| |].
  - apply round_pos_compat; [lra | rewrite Hab; reflexivity].
  - apply round_pos_compat; assumption.
Qed.

End Round.

Section Arith.
Local Open Scope Q_scope.

Lemma feqv_refl (x : float64) : is_nan x = false -> feqv x x.
Proof. intros H. split; apply fle_refl; exact H. Qed.

Lemma feqv_round_refl (q : Q) : feqv (round q) (round q).
Proof. apply feqv_refl, round_not_nan. Qed.

Lemma fle_feqv (a a' b b' : float64) :
  feqv a a' -> feqv b b' -> fle a' b' -> fle a b.
Proof.
  intros [A1 A2] [B1 B2] H.
  apply fle_trans with a'; [exact A1|]. apply fle_trans with b'; assumption.
Qed.

Lemma is_zero_iff (x : float64) :
  is_finite x = true -> (is_zero x = true <-> F2Q x == 0).
Proof.
  destruct x as [s|s| |s m e]; simpl; intros H; try discriminate.
  - split; intros; reflexivity.
  - apply Qeq_bool_iff.
Qed.

Lemma fadd_fin (x y : float64) :
  is_finite x = true -> is_finite y = true ->
  feqv (fadd x y) (round (F2Q x + F2Q y)).
Proof.
  destruct x as [s|s| |s m e], y as [s'|s'| |s' m' e']; intros Hx Hy; try discriminate;
    try apply feqv_round_refl.
  split; reflexivity.
Qed.

Lemma fmul_fin (x y : float64) :
  is_finite x = true -> is_finite y = true ->
  feqv (fmul x y) (round (F2Q x * F2Q y)).
Proof.
  intros Hx Hy.
  assert (E : fmul x y = if is_zero x || is_zero y
                         then S754_zero (xorb (sign_of x) (sign_of y))
                         else round (F2Q x * F2Q y)).
  { destruct x, y; try discriminate; reflexivity. }
  rewrite E. destruct (is_zero x || is_zero y) eqn:Z; [|apply feqv_round_refl].
  assert (Q0 : F2Q x * F2Q y == 0).
  { apply orb_true_iff in Z. destruct Z as [Z|Z];
      apply is_zero_iff in Z; auto; rewrite Z; ring. }
  rewrite (round_compat _ 0 Q0). split; reflexivity.
Qed.

Lemma fdiv_fin (x y : float64) :
  is_finite x = true -> is_finite y = true -> is_zero y = false ->
  feqv (fdiv x y) (round (F2Q x / F2Q y)).
Proof.
  intros Hx Hy Zy.
  assert (E : fdiv x y = if is_zero x
                         then S754_zero (xorb (sign_of x) (sign_of y))
                         else round (F2Q x / F2Q y)).
  { destruct x, y; try discriminate; unfold fdiv; rewrite Zy; reflexivity. }
  rewrite E. destruct (is_zero x) eqn:Z; [|apply feqv_round_refl].
  assert (Q0 : F2Q x / F2Q y == 0).
  { apply is_zero_iff in Z; auto. rewrite Z. unfold Qdiv. ring. }
  rewrite (round_compat _ 0 Q0). split; reflexivity.
Qed.

Lemma fadd_not_nan_r (c x : float64) :
  is_finite c = true -> is_nan x = false -> is_nan (fadd c x) = false.
Proof.
  destruct c as [s|s| |s m e], x as [s'|s'| |s' m' e']; intros Hc Hx; try discriminate;
    try reflexivity; apply round_not_nan.
Qed.

Lemma fadd_not_nan_l (c x : float64) :
  is_finite c = true -> is_nan x = false -> is_nan (fadd x c) = false.
Proof.
  destruct c as [s|s| |s m e], x as [s'|s'| |s' m' e']; intros Hc Hx; try discriminate;
    try reflexivity; apply round_not_nan.
Qed.

Lemma fadd_fin_inf (c : float64) (s : bool) :
  is_finite c = true -> fadd c (S754_infinity s) = S754_infinity s.
Proof. destruct c; intros; try discriminate; reflexivity. Qed.

Lemma fadd_inf_fin (c : float64) (s : bool) :
  is_finite c = true -> fadd (S754_infinity s) c = S754_infinity s.
Proof. destruct c; intros; try discriminate; reflexivity. Qed.

(** Addition is monotone in each argument. *)
Lemma fadd_mono_r (c x x' : float64) :
  is_finite c = true -> fle x x' -> fle (fadd c x) (fadd c x').
Proof.
  intros Hc H. destruct (fle_not_nan _ _ H) as [N N'].
  pose proof (fadd_not_nan_r c x Hc N) as Nr.
  pose proof (fadd_not_nan_r c x' Hc N') as Nr'.
  destruct (float_cases x) as [->|[->|[->|Hx]]]; try discriminate;
  destruct (float_cases x') as [->|[->|[->|Hx']]]; try discriminate;
    rewrite ?fadd_fin_inf in * by exact Hc;
    try (apply fle_ninf; assumption); try (apply fle_pinf; assumption);
    try (exfalso; revert H; unfold fle, fleb; fin_simpl; simpl; discriminate).
  apply (fle_feqv _ _ _ _ (fadd_fin c x Hc Hx) (fadd_fin c x' Hc Hx')).
    apply round_le. apply (fle_fin _ _ Hx Hx') in H. lra.
Qed.

Lemma fadd_mono_l (c x x' : float64) :
  is_finite c = true -> fle x x' -> fle (fadd x c) (fadd x' c).
Proof.
  intros Hc H. destruct (fle_not_nan _ _ H) as [N N'].
  pose proof (fadd_not_nan_l c x Hc N) as Nr.
  pose proof (fadd_not_nan_l c x' Hc N') as Nr'.
  destruct (float_cases x) as [->|[->|[->|Hx]]]; try discriminate;
  destruct (float_cases x') as [->|[->|[->|Hx']]]; try discriminate;
    rewrite ?fadd_inf_fin in * by exact Hc;
    try (apply fle_ninf; assumption); try (apply fle_pinf; assumption);
    try (exfalso; revert H; unfold fle, fleb; fin_simpl; simpl; discriminate).
  apply (fle_feqv _ _ _ _ (fadd_fin x c Hx Hc) (fadd_fin x' c Hx' Hc)).
    apply round_le. apply (fle_fin _ _ Hx Hx') in H. lra.
Qed.

Lemma fopp_finite (c : float64) : is_finite c = true -> is_finite (fopp c) = true.
Proof. destruct c; auto. Qed.

Lemma fsub_mono_l (c x x' : float64) :
  is_finite c = true -> fle x x' -> fle (fsub x c) (fsub x' c).
Proof. intros Hc H. apply fadd_mono_l; [apply fopp_finite, Hc | exact H]. Qed.

End Arith.

Section ArithPos.
Local Open Scope Q_scope.

Lemma pos_shape (c : float64) :
  is_finite c = true -> 0 < F2Q c -> exists m e, c = S754_finite false m e.
Proof.
  destruct c as [s|s| |s m e]; intros F P; try discriminate.
  destruct s; [|eauto]. exfalso.
    pose proof (pow2_pos e) as Pe. unfold F2Q in P. cbn [cond_Zopp Z.opp] in P.
    assert (N : inject_Z (Z.neg m) < 0) by reflexivity. nra.
Qed.

Lemma pos_not_zero (c : float64) :
  is_finite c = true -> 0 < F2Q c -> is_zero c = false.
Proof.
  intros F P. destruct (is_zero c) eqn:Z; [|reflexivity].
  apply is_zero_iff in Z; auto. lra.
Qed.

Lemma fmul_pos_inf (c : float64) (s : bool) :
  is_finite c = true -> 0 < F2Q c -> fmul c (S754_infinity s) = S754_infinity s.
Proof.
  intros F P. pose proof (pos_not_zero c F P) as Z.
  destruct (pos_shape c F P) as [m [e ->]].
  unfold fmul. rewrite Z. reflexivity.
Qed.

Lemma fmul_inf_pos (c : float64) (s : bool) :
  is_finite c = true -> 0 < F2Q c -> fmul (S754_infinity s) c = S754_infinity s.
Proof.
  intros F P. pose proof (pos_not_zero c F P) as Z.
  destruct (pos_shape c F P) as [m [e ->]].
  unfold fmul. rewrite Z. destruct s; reflexivity.
Qed.

Lemma fdiv_inf_pos (d : float64) (s : bool) :
  is_finite d = true -> 0 < F2Q d -> fdiv (S754_infinity s) d = S754_infinity s.
Proof.
  intros F P. destruct (pos_shape d F P) as [m [e ->]]. destruct s; reflexivity.
Qed.

Ltac order_cases x x' H Hx Hx' :=
  destruct (fle_not_nan _ _ H) as [? ?];
  destruct (float_cases x) as [->|[->|[->|Hx]]]; try discriminate;
  destruct (float_cases x') as [->|[->|[->|Hx']]]; try discriminate;
  try (exfalso; revert H; unfold fle, fleb; fin_simpl; simpl; discriminate).

(** Multiplying by a positive constant is monotone. *)
Lemma fmul_mono_r (c x x' : float64) :
  is_finite c = true -> 0 < F2Q c -> fle x x' -> fle (fmul c x) (fmul c x').
Proof.
  intros Hc Pc H.
  assert (NN : forall y, is_finite y = true -> is_nan (fmul c y) = false).
  { intros y Hy. destruct (fmul_fin c y Hc Hy) as [A _]. apply (fle_not_nan _ _ A). }
  order_cases x x' H Hx Hx'; rewrite ?fmul_pos_inf by assumption;
    try reflexivity;
    try (apply fle_ninf; apply NN; assumption);
    try (apply fle_pinf; apply NN; assumption).
  apply (fle_feqv _ _ _ _ (fmul_fin c x Hc Hx) (fmul_fin c x' Hc Hx')).
  apply round_le. apply (fle_fin _ _ Hx Hx') in H. nra.
Qed.

Lemma fmul_mono_l (c x x' : float64) :
  is_finite c = true -> 0 < F2Q c -> fle x x' -> fle (fmul x c) (fmul x' c).
Proof.
  intros Hc Pc H.
  assert (NN : forall y, is_finite y = true -> is_nan (fmul y c) = false).
  { intros y Hy. destruct (fmul_fin y c Hy Hc) as [A _]. apply (fle_not_nan _ _ A). }
  order_cases x x' H Hx Hx'; rewrite ?fmul_inf_pos by assumption;
    try reflexivity;
    try (apply fle_ninf; apply NN; assumption);
    try (apply fle_pinf; apply NN; assumption).
  apply (fle_feqv _ _ _ _ (fmul_fin x c Hx Hc) (fmul_fin x' c Hx' Hc)).
  apply round_le. apply (fle_fin _ _ Hx Hx') in H. nra.
Qed.

(** Dividing by a positive constant is monotone. *)
Lemma fdiv_mono (d x x' : float64) :
  is_finite d = true -> 0 < F2Q d -> fle x x' -> fle (fdiv x d) (fdiv x' d).
Proof.
  intros Hd Pd H. pose proof (pos_not_zero d Hd Pd) as Zd.
  assert (NN : forall y, is_finite y = true -> is_nan (fdiv y d) = false).
  { intros y Hy. destruct (fdiv_fin y d Hy Hd Zd) as [A _]. apply (fle_not_nan _ _ A). }
  order_cases x x' H Hx Hx'; rewrite ?fdiv_inf_pos by assumption;
    try reflexivity;
    try (apply fle_ninf; apply NN; assumption);
    try (apply fle_pinf; apply NN; assumption).
  apply (fle_feqv _ _ _ _ (fdiv_fin x d Hx Hd Zd) (fdiv_fin x' d Hx' Hd Zd)).
  apply round_le. apply (fle_fin _ _ Hx Hx') in H.
  unfold Qdiv. apply Qmult_le_compat_r; [exact H|].
  apply Qlt_le_weak, Qinv_lt_0_compat, Pd.
Qed.

Lemma of_Z_le (n n' : Z) : (n <= n')%Z -> fle (of_Z n) (of_Z n').
Proof. intros H. apply round_le. rewrite <- Zle_Qle. exact H. Qed.

(** A number between two finite numbers is finite. *)
Lemma fle_between_finite (lo hi x : float64) :
  is_finite lo = true -> is_finite hi = true -> fle lo x -> fle x hi ->
  is_finite x = true.
Proof.
  intros Flo Fhi L H. destruct (fle_not_nan _ _ L) as [_ N].
  destruct (float_cases x) as [->|[->|[->|Hx]]]; try discriminate; try assumption;
    exfalso; [revert L | revert H]; unfold fle, fleb; fin_simpl; simpl; discriminate.
Qed.

Lemma to_int_nonneg (x : float64) :
  is_finite x = true -> 0 <= F2Q x -> F2Q x < 2 ^ 63 ->
  to_int x = Some (floor x).
Proof.
  intros F P B. unfold floor.
  assert (E : Qtrunc (F2Q x) = Qfloor (F2Q x)).
  { unfold Qtrunc. apply Qle_bool_iff in P. rewrite P. reflexivity. }
  assert (L : (0 <= Qfloor (F2Q x))%Z).
  { change 0%Z with (Qfloor 0). apply Qfloor_resp_le. exact P. }
  assert (U : (Qfloor (F2Q x) < 2 ^ 63)%Z).
  { rewrite Zlt_Qlt. apply Qle_lt_trans with (F2Q x); [apply Qfloor_le | exact B]. }
  assert (T : to_int x = if (- 2 ^ 63 <=? Qtrunc (F2Q x))%Z && (Qtrunc (F2Q x) <? 2 ^ 63)%Z
                         then Some (Qtrunc (F2Q x)) else None).
  { destruct x; try discriminate; reflexivity. }
  rewrite T, E.
  destruct (Z.leb_spec (- 2 ^ 63) (Qfloor (F2Q x))); [|lia].
  destruct (Z.ltb_spec (Qfloor (F2Q x)) (2 ^ 63)); [|lia]. reflexivity.
Qed.

End ArithPos.

Ltac fcompute := vm_compute; reflexivity.

Section WeightedTotal.
Local Open Scope Q_scope.
Import report.

Lemma fadd_mono (a a' b b' : float64) :
  is_finite b = true -> is_finite a' = true ->
  fle a a' -> fle b b' -> fle (fadd a b) (fadd a' b').
Proof.
  intros Fb Fa' Ha Hb. apply fle_trans with (fadd a' b).
  - apply fadd_mono_l; assumption.
  - apply fadd_mono_r; assumption.
Qed.

Lemma weight_bounds (c : float64) (n : Z) :
  is_finite c = true -> 0 < F2Q c -> (0 <= n <= 100)%Z ->
  fle (fmul (of_Z 0) c) (fmul (of_Z n) c) /\
  fle (fmul (of_Z n) c) (fmul (of_Z 100) c).
Proof.
  intros Fc Pc Hn. split; apply fmul_mono_l; auto; apply of_Z_le; lia.
Qed.

Lemma weight_consts :
  (is_finite (of_Q 0.40) = true /\ 0 < F2Q (of_Q 0.40)) /\
  (is_finite (of_Q 0.35) = true /\ 0 < F2Q (of_Q 0.35)) /\
  (is_finite (of_Q 0.25) = true /\ 0 < F2Q (of_Q 0.25)).
Proof. vm_compute. repeat split; reflexivity. Qed.

Lemma weightedTotal_bounds (cpu mem disk : Z) :
  (0 <= cpu <= 100)%Z -> (0 <= mem <= 100)%Z -> (0 <= disk <= 100)%Z ->
  fle (weightedTotal 0 0 0) (weightedTotal cpu mem disk) /\
  fle (weightedTotal cpu mem disk) (weightedTotal 100 100 100).
Proof.
  intros Hc Hm Hd. unfold weightedTotal.
  destruct weight_consts as [[F40 P40] [[F35 P35] [F25 P25]]].
  destruct (weight_bounds (of_Q 0.40) cpu F40 P40 Hc) as [C1 C2].
  destruct (weight_bounds (of_Q 0.35) disk F35 P35 Hd) as [D1 D2].
  destruct (weight_bounds (of_Q 0.25) mem F25 P25 Hm) as [M1 M2].
  assert (FC : is_finite (fmul (of_Z cpu) (of_Q 0.40)) = true)
    by (eapply fle_between_finite; [| |exact C1|exact C2]; fcompute).
  assert (FD : is_finite (fmul (of_Z disk) (of_Q 0.35)) = true)
    by (eapply fle_between_finite; [| |exact D1|exact D2]; fcompute).
  assert (FM : is_finite (fmul (of_Z mem) (of_Q 0.25)) = true)
    by (eapply fle_between_finite; [| |exact M1|exact M2]; fcompute).
  assert (S1 : fle (fadd (fmul (of_Z 0) (of_Q 0.40)) (fmul (of_Z 0) (of_Q 0.35)))
                   (fadd (fmul (of_Z cpu) (of_Q 0.40)) (fmul (of_Z disk) (of_Q 0.35))))
    by (apply fadd_mono; [fcompute | exact FC | exact C1 | exact D1]).
  assert (S2 : fle (fadd (fmul (of_Z cpu) (of_Q 0.40)) (fmul (of_Z disk) (of_Q 0.35)))
                   (fadd (fmul (of_Z 100) (of_Q 0.40)) (fmul (of_Z 100) (of_Q 0.35))))
    by (apply fadd_mono; [exact FD | fcompute | exact C2 | exact D2]).
  assert (FS : is_finite (fadd (fmul (of_Z cpu) (of_Q 0.40)) (fmul (of_Z disk) (of_Q 0.35))) = true)
    by (eapply fle_between_finite; [| |exact S1|exact S2]; fcompute).
  split.
  - apply fadd_mono; [fcompute | exact FS | exact S1 | exact M1].
  - apply fadd_mono; [exact FM | fcompute | exact S2 | exact M2].
Qed.

Lemma weightedTotal_range (cpu mem disk : Z) :
  (0 <= cpu <= 100)%Z -> (0 <= mem <= 100)%Z -> (0 <= disk <= 100)%Z ->
  is_finite (weightedTotal cpu mem disk) = true /\
  0 <= F2Q (weightedTotal cpu mem disk) <= 100.
Proof.
  intros Hc Hm Hd.
  destruct (weightedTotal_bounds cpu mem disk Hc Hm Hd) as [L U].
  assert (F0 : is_finite (weightedTotal 0 0 0) = true) by fcompute.
  assert (F1 : is_finite (weightedTotal 100 100 100) = true) by fcompute.
  assert (F : is_finite (weightedTotal cpu mem disk) = true)
    by (eapply fle_between_finite; [exact F0|exact F1|exact L|exact U]).
  split; [exact F|].
  apply (fle_fin _ _ F0 F) in L. apply (fle_fin _ _ F F1) in U.
  assert (E0 : F2Q (weightedTotal 0 0 0) == 0) by fcompute.
  assert (E1 : F2Q (weightedTotal 100 100 100) == 100) by fcompute.
  rewrite E0 in L. rewrite E1 in U. split; assumption.
Qed.

Lemma totalScore_floor (cpu mem disk : Z) :
  (0 <= cpu <= 100)%Z -> (0 <= mem <= 100)%Z -> (0 <= disk <= 100)%Z ->
  totalScore cpu mem disk = Some (floor (weightedTotal cpu mem disk)) /\
  (0 <= floor (weightedTotal cpu mem disk) <= 100)%Z.
Proof.
  intros Hc Hm Hd.
  destruct (weightedTotal_range cpu mem disk Hc Hm Hd) as [F [L U]].
  split.
  - unfold totalScore. apply to_int_nonneg; auto.
    apply Qle_lt_trans with 100; [exact U | reflexivity].
  - unfold floor. split.
    + change 0%Z with (Qfloor 0). apply Qfloor_resp_le. exact L.
    + change 100%Z with (Qfloor 100). apply Qfloor_resp_le. exact U.
Qed.

End WeightedTotal.

Section Grid.
Local Open Scope Q_scope.

Lemma flt_trans (x y z : float64) : flt x y -> flt y z -> flt x z.
Proof. intros A B. apply flt_fle_trans with y; [exact A | apply flt_fle, B]. Qed.

Lemma flt_not_nan (x y : float64) : flt x y -> is_nan x = false /\ is_nan y = false.
Proof. intros H. apply fle_not_nan. apply flt_fle. exact H. Qed.

(** A number strictly between two numbers is finite. *)
Lemma flt_between_finite (lo hi x : float64) : flt lo x -> flt x hi -> is_finite x = true.
Proof.
  intros L H. destruct (flt_not_nan _ _ L) as [Nlo _]. destruct (flt_not_nan _ _ H) as [_ Nhi].
  revert L H. unfold flt, fltb.
  destruct (float_cases x) as [->|[->|[->|Hx]]]; auto;
    destruct (float_cases lo) as [->|[->|[->|Hl]]]; try discriminate;
    destruct (float_cases hi) as [->|[->|[->|Hh]]]; try discriminate;
    fin_simpl; simpl; intros; discriminate.
Qed.

(** Every canonical finite float is a multiple of the least subnormal. *)
Lemma valid_grid (x : float64) :
  valid x = true -> is_finite x = true ->
  exists N : Z, F2Q x == inject_Z N * 2 ^ emin.
Proof.
  destruct x as [s|s| |s m e]; intros V F; try discriminate.
  - exists 0%Z. simpl. ring.
  - unfold valid in V. apply andb_true_iff in V. destruct V as [V _].
    apply andb_true_iff in V. destruct V as [V _].
    apply andb_true_iff in V. destruct V as [_ V]. apply Z.leb_le in V.
    exists (cond_Zopp s (Z.pos m) * 2 ^ (e - emin))%Z.
    unfold F2Q. rewrite inject_Z_mult. rewrite <- pow2_Z by lia.
    rewrite <- Qmult_assoc. rewrite <- pow2_add.
    replace (e - emin + emin)%Z with e by lia. reflexivity.
Qed.

Lemma F2Q_fopp (x : float64) : F2Q (fopp x) == - F2Q x.
Proof.
  destruct x as [s|s| |s m e]; simpl; try reflexivity.
  unfold F2Q. rewrite !inject_cond_Zopp. destruct s; simpl; ring.
Qed.

Lemma round_min_subnormal : round (2 ^ emin) = S754_finite false 1 emin.
Proof. vm_compute. reflexivity. Qed.

(** The difference of two distinct canonical floats does not vanish. *)
Lemma fsub_pos (lo hi : float64) :
  valid lo = true -> valid hi = true ->
  is_finite lo = true -> is_finite hi = true -> flt lo hi ->
  flt zero (fsub hi lo).
Proof.
  intros Vl Vh Fl Fh H.
  apply (flt_fin _ _ Fl Fh) in H.
  destruct (valid_grid lo Vl Fl) as [Nl El]. destruct (valid_grid hi Vh Fh) as [Nh Eh].
  pose proof (pow2_pos emin) as Pe.
  assert (HN : (Nl + 1 <= Nh)%Z).
  { rewrite El, Eh in H. apply Qmult_lt_r in H; [|exact Pe].
    rewrite <- Zlt_Qlt in H. lia. }
  assert (D : 2 ^ emin <= F2Q hi + F2Q (fopp lo)).
  { rewrite F2Q_fopp, El, Eh. rewrite Zle_Qle in HN. rewrite inject_Z_plus in HN.
    change (inject_Z 1) with 1 in HN. nra. }
  unfold fsub. destruct (fadd_fin hi (fopp lo) Fh (fopp_finite lo Fl)) as [_ A].
  apply flt_fle_trans with (round (2 ^ emin)).
  - rewrite round_min_subnormal. reflexivity.
  - apply fle_trans with (round (F2Q hi + F2Q (fopp lo))); [|exact A].
    apply round_le. exact D.
Qed.

Lemma fsub_self (x : float64) : is_finite x = true -> fsub x x = zero.
Proof.
  intros F. destruct x as [s|s| |s m e]; try discriminate.
  - destruct s; reflexivity.
  - unfold fsub, fadd, fopp.
    assert (E : F2Q (S754_finite s m e) + F2Q (S754_finite (negb s) m e) == 0).
    { pose proof (F2Q_fopp (S754_finite s m e)) as O. simpl fopp in O. rewrite O. ring. }
    rewrite (round_compat _ 0 E). reflexivity.
Qed.

(** Zero divided by a positive number is (positive) zero. *)
Lemma fdiv_zero_pos (d : float64) : flt zero d -> fdiv zero d = zero.
Proof.
  intros H. destruct (flt_not_nan _ _ H) as [_ N].
  destruct (float_cases d) as [->|[->|[->|Fd]]]; try discriminate.
  - reflexivity.
  - assert (P : 0 < F2Q d) by (apply (flt_fin zero d eq_refl Fd) in H; exact H).
    pose proof (pos_not_zero d Fd P) as Z.
    destruct (pos_shape d Fd P) as [m [e ->]].
    unfold fdiv, zero. rewrite Z. reflexivity.
Qed.

Lemma fmul_25_zero : fmul (of_Z 25) zero = zero.
Proof. vm_compute. reflexivity. Qed.

(** At the left end of a band the interpolated part vanishes. *)
Lemma interpolate_left (lo hi : float64) :
  valid lo = true -> valid hi = true -> is_finite lo = true -> flt lo hi ->
  fdiv (fmul (of_Z 25) (fsub lo lo)) (fsub hi lo) = zero.
Proof.
  intros Vl Vh Fl H. rewrite (fsub_self lo Fl), fmul_25_zero.
  apply fdiv_zero_pos.
  destruct (flt_not_nan _ _ H) as [_ N].
  destruct (float_cases hi) as [->|[->|[->|Fh]]]; try discriminate.
  - exfalso. revert H. unfold flt, fltb. rewrite fcompare_fin_inf by exact Fl. discriminate.
  - unfold fsub. rewrite fadd_inf_fin by (apply fopp_finite, Fl). reflexivity.
  - apply fsub_pos; assumption.
Qed.

End Grid.

Section Durations.
Local Open Scope Q_scope.
Import report.

Lemma flt_zero_pos (x : float64) : flt zero x -> is_finite x = true -> 0 < F2Q x.
Proof. intros H F. apply (flt_fin zero x eq_refl F) in H. exact H. Qed.

Lemma Seconds_pos (d : time.Duration) :
  (0 < d < 2 ^ 63)%Z -> flt zero (time.Seconds d).
Proof.
  intros Hd. unfold time.Seconds.
  change time.Second with 1000000000%Z.
  set (sec := Z.quot d 1000000000). set (nsec := Z.rem d 1000000000).
  assert (S0 : (0 <= sec)%Z) by (apply Z.quot_pos; lia).
  assert (S1 : (sec <= 2 ^ 63)%Z).
  { subst sec. transitivity d; [|lia]. apply Z.quot_le_upper_bound; lia. }
  assert (N0 : (0 <= nsec < 1000000000)%Z).
  { subst nsec. apply (Z.rem_bound_pos d 1000000000); lia. }
  assert (E : d = (1000000000 * sec + nsec)%Z).
  { subst sec nsec. apply Z.quot_rem'. }
  assert (Fs : is_finite (of_Z sec) = true).
  { apply fle_between_finite with (of_Z 0) (of_Z (2 ^ 63));
      [vm_compute; reflexivity | vm_compute; reflexivity | apply of_Z_le; lia | apply of_Z_le; lia]. }
  assert (Fg : is_finite (of_Z 1000000000) = true) by (vm_compute; reflexivity).
  assert (Pg : 0 < F2Q (of_Z 1000000000)) by (vm_compute; reflexivity).
  assert (B0 : fle (fdiv (of_Z 0) (of_Z 1000000000)) (fdiv (of_Z nsec) (of_Z 1000000000)))
    by (apply fdiv_mono; auto; apply of_Z_le; lia).
  assert (B1 : fle (fdiv (of_Z nsec) (of_Z 1000000000)) (fdiv (of_Z 1000000000) (of_Z 1000000000)))
    by (apply fdiv_mono; auto; apply of_Z_le; lia).
  assert (Fb : is_finite (fdiv (of_Z nsec) (of_Z 1000000000)) = true).
  { eapply fle_between_finite; [| |exact B0|exact B1]; vm_compute; reflexivity. }
  destruct (Z.eq_dec sec 0) as [Z|NZ].
  - assert (N1 : (1 <= nsec)%Z) by lia.
    rewrite Z.
    apply flt_fle_trans with (fadd (of_Z 0) (fdiv (of_Z 1) (of_Z 1000000000)));
      [vm_compute; reflexivity|].
    apply fadd_mono_r; [vm_compute; reflexivity|].
    apply fdiv_mono; auto. apply of_Z_le; lia.
  - apply flt_fle_trans with (fadd (of_Z 1) (fdiv (of_Z 0) (of_Z 1000000000)));
      [vm_compute; reflexivity|].
    apply fadd_mono; [vm_compute; reflexivity | exact Fs | apply of_Z_le; lia | exact B0].
Qed.

End Durations.

Section Exact.
Local Open Scope Q_scope.

Lemma valid_finite_inv (s : bool) (m : positive) (e : Z) :
  valid (S754_finite s m e) = true ->
  (Z.pos m < 2 ^ 53 /\ emin <= e <= emax /\ (2 ^ 52 <= Z.pos m \/ e = emin))%Z.
Proof.
  unfold valid. rewrite !andb_true_iff, orb_true_iff.
  rewrite Z.ltb_lt, !Z.leb_le, Z.eqb_eq. tauto.
Qed.

(** A canonical float is the rounding of its own value. *)
Lemma round_pos_id (s : bool) (m : positive) (e : Z) :
  valid (S754_finite s m e) = true ->
  round_pos s (inject_Z (Z.pos m) * 2 ^ e) = S754_finite s m e.
Proof.
  intros V. destruct (valid_finite_inv s m e V) as [M [[E1 E2] N]].
  set (a := inject_Z (Z.pos m) * 2 ^ e).
  assert (Pe : 0 < 2 ^ e) by apply pow2_pos.
  assert (Pm : 1 <= inject_Z (Z.pos m)).
  { change 1 with (inject_Z 1). rewrite <- Zle_Qle. lia. }
  assert (Pa : 0 < a) by (unfold a; nra).
  assert (K : ulp_exp a = e).
  { unfold ulp_exp. destruct N as [N|N].
    - assert (L : ilog2 a = (e + 52)%Z).
      { apply ilog2_unique; unfold a.
        + rewrite Z.add_comm, pow2_add. apply Qmult_le_compat_r; [|lra].
          change (2 ^ 52) with (inject_Z (2 ^ 52)). rewrite <- Zle_Qle. exact N.
        + replace (e + 52 + 1)%Z with (53 + e)%Z by lia. rewrite pow2_add.
          apply Qmult_lt_r; [exact Pe|].
          change (2 ^ 53) with (inject_Z (2 ^ 53)). rewrite <- Zlt_Qlt. exact M. }
      rewrite L. lia.
    - assert (L : (ilog2 a < e + 53)%Z).
      { destruct (ilog2_spec a Pa) as [L1 _]. apply pow2_lt_inv.
        apply Qle_lt_trans with a; [exact L1|]. unfold a.
        rewrite Z.add_comm, pow2_add. apply Qmult_lt_r; [exact Pe|].
        change (2 ^ 53) with (inject_Z (2 ^ 53)). rewrite <- Zlt_Qlt. exact M. }
      lia. }
  unfold round_pos. rewrite K.
  assert (S : a / 2 ^ e == inject_Z (Z.pos m)).
  { unfold a. field. lra. }
  rewrite (rne_compat _ _ S), rne_Z.
  unfold mkfloat. simpl (Z.pos m =? 0)%Z.
  destruct (Z.eqb_spec (Z.pos m) (2 ^ 53)) as [X|X]; [lia|].
  destruct (Z.leb_spec e emax); [|lia]. reflexivity.
Qed.

Lemma round_id (x : float64) :
  valid x = true -> is_finite x = true -> feqv (round (F2Q x)) x.
Proof.
  intros V F. destruct x as [s|s| |s m e]; try discriminate.
  - split; reflexivity.
  - assert (E : round (F2Q (S754_finite s m e)) = S754_finite s m e).
    { pose proof (pow2_pos e) as Pe.
      assert (Pm : 1 <= inject_Z (Z.pos m)).
      { change 1 with (inject_Z 1). rewrite <- Zle_Qle. lia. }
      unfold round, F2Q. destruct s; cbn [cond_Zopp Z.opp].
      - assert (N : inject_Z (Z.neg m) * 2 ^ e < 0).
        { change (inject_Z (Z.neg m)) with (- inject_Z (Z.pos m)). nra. }
        destruct (Qcompare_spec (inject_Z (Z.neg m) * 2 ^ e) 0) as [C|C|C];
          [exfalso; lra | | exfalso; lra].
        rewrite <- (round_pos_id true m e V). apply round_pos_compat.
        + lra.
        + change (inject_Z (Z.neg m)) with (- inject_Z (Z.pos m)). ring.
      - assert (N : 0 < inject_Z (Z.pos m) * 2 ^ e) by nra.
        destruct (Qcompare_spec (inject_Z (Z.pos m) * 2 ^ e) 0) as [C|C|C];
          [exfalso; lra | exfalso; lra | ].
        apply round_pos_id. exact V. }
    rewrite E. apply feqv_refl. reflexivity.
Qed.

(** The value of a finite rounding is a multiple of the least subnormal. *)
Lemma round_grid (q : Q) :
  is_finite (round q) = true -> exists N : Z, F2Q (round q) == inject_Z N * 2 ^ emin.
Proof.
  assert (G : forall s a, 0 < a -> is_finite (round_pos s a) = true ->
                          exists N : Z, F2Q (round_pos s a) == inject_Z N * 2 ^ emin).
  { intros s a Pa F. unfold round_pos in *.
    pose proof (ulp_exp_ge a) as K. set (k := ulp_exp a) in *.
    destruct (mkfloat_spec s (rne (a / 2 ^ k)) k (mant_range a Pa)) as [[_ [V _]]|[I _]].
    - exists (cond_Zopp s (rne (a / 2 ^ k)) * 2 ^ (k - emin))%Z.
      rewrite V, inject_Z_mult, <- pow2_Z by lia.
      rewrite <- Qmult_assoc, <- pow2_add.
      replace (k - emin + emin)%Z with k by lia. reflexivity.
    - rewrite I in F. discriminate. }
  unfold round. destruct (Qcompare_spec q 0) as [E|E|E]; intros F.
  - exists 0%Z. simpl. ring.
  - apply G; [lra | exact F].
  - apply G; assumption.
Qed.

(** Rounding a positive multiple of the least subnormal errs by at most
    the relative amount [2^-53] upward. *)
Lemma round_rel_err (a : Q) (N : Z) :
  0 < a -> a == inject_Z N * 2 ^ emin -> is_finite (round a) = true ->
  F2Q (round a) <= a * (1 + 2 ^ (-53)).
Proof.
  intros Pa G F. unfold round in *.
  destruct (Qcompare_spec a 0) as [C|C|C]; [exfalso; lra | exfalso; lra | clear C].
  unfold round_pos in *.
  set (k := ulp_exp a) in *.
  assert (Pk : 0 < 2 ^ k) by apply pow2_pos.
  destruct (mkfloat_spec false (rne (a / 2 ^ k)) k (mant_range a Pa)) as [[_ [V _]]|[I _]];
    [|rewrite I in F; discriminate].
  rewrite V. cbn [cond_Zopp].
  assert (P53 : 0 < 2 ^ (-53)) by apply pow2_pos.
  destruct (Z_le_gt_dec emin (ilog2 a - 52)) as [L|L].
  - pose proof (scaled_ge a Pa L) as S. fold k in S.
    pose proof (rne_upper (a / 2 ^ k)) as U.
    assert (H : (1 # 2) <= a / 2 ^ k * 2 ^ (-53)).
    { assert (X : (1 # 2) == 2 ^ 52 * 2 ^ (-53)) by reflexivity.
      rewrite X. apply Qmult_le_compat_r; [exact S | lra]. }
    assert (A : a == a / 2 ^ k * 2 ^ k) by (field; lra).
    rewrite A at 2.
    set (s := a / 2 ^ k) in *. nra.
  - assert (K : k = emin) by (subst k; unfold ulp_exp; lia).
    assert (S : a / 2 ^ k == inject_Z N).
    { rewrite G, K. field. pose proof (pow2_pos emin). lra. }
    rewrite (rne_compat _ _ S), rne_Z.
    assert (A : inject_Z N * 2 ^ k == a) by (rewrite G, K; reflexivity).
    rewrite A. nra.
Qed.

(** Two distinct positive canonical floats are at least a relative
    [2^-53] apart. *)
Lemma float_spacing (v p : float64) :
  valid v = true -> valid p = true -> is_finite v = true -> is_finite p = true ->
  0 < F2Q v -> F2Q v < F2Q p ->
  F2Q v <= F2Q p * (1 - 2 ^ (-53)).
Proof.
  intros Vv Vp Fv Fp Pv H.
  destruct (pos_shape v Fv Pv) as [mv [ev ->]].
  assert (Pp : 0 < F2Q p) by lra.
  destruct (pos_shape p Fp Pp) as [mp [ep ->]].
  destruct (valid_finite_inv _ _ _ Vv) as [Mv [[Ev1 Ev2] Nv]].
  destruct (valid_finite_inv _ _ _ Vp) as [Mp [[Ep1 Ep2] Np]].
  unfold F2Q in *. cbn [cond_Zopp] in *.
  assert (X53 : 2 ^ (-53) * 2 ^ 53 == 1) by reflexivity.
  assert (P53 : 0 < 2 ^ (-53)) by apply pow2_pos.
  destruct (Z_le_gt_dec ep ev) as [L|L].
  - (* both on the grid of [p] *)
    assert (D : 2 ^ ev == inject_Z (2 ^ (ev - ep)) * 2 ^ ep).
    { rewrite <- pow2_Z by lia. rewrite <- pow2_add.
      replace (ev - ep + ep)%Z with ev by lia. reflexivity. }
    assert (Pe : 0 < 2 ^ ep) by apply pow2_pos.
    rewrite D in *. rewrite Qmult_assoc in *. rewrite <- inject_Z_mult in *.
    set (n := (Z.pos mv * 2 ^ (ev - ep))%Z) in *.
    apply Qmult_lt_r in H; [|exact Pe]. rewrite <- Zlt_Qlt in H.
    assert (H1 : inject_Z n + 1 <= inject_Z (Z.pos mp)).
    { change 1 with (inject_Z 1). rewrite <- inject_Z_plus, <- Zle_Qle. lia. }
    assert (H2 : inject_Z (Z.pos mp) * 2 ^ (-53) <= 1).
    { assert (inject_Z (Z.pos mp) <= 2 ^ 53).
      { change (2 ^ 53) with (inject_Z (2 ^ 53)). rewrite <- Zle_Qle. lia. }
      nra. }
    nra.
  - (* [v] lies in a lower binade *)
    assert (Np' : (2 ^ 52 <= Z.pos mp)%Z) by lia.
    assert (D : 2 ^ ep == 2 ^ (ep - ev - 1) * 2 * 2 ^ ev).
    { replace ep with ((ep - ev - 1) + 1 + ev)%Z at 1 by lia.
      rewrite !pow2_add. reflexivity. }
    assert (Pe : 0 < 2 ^ ev) by apply pow2_pos.
    assert (G1 : 1 <= 2 ^ (ep - ev - 1)).
    { change 1 with (2 ^ 0). apply pow2_le. lia. }
    assert (Q1 : inject_Z (Z.pos mv) <= 2 ^ 53 - 1).
    { change (2 ^ 53 - 1) with (inject_Z (2 ^ 53 - 1)). rewrite <- Zle_Qle. lia. }
    assert (Q2 : 2 ^ 52 <= inject_Z (Z.pos mp)).
    { change (2 ^ 52) with (inject_Z (2 ^ 52)). rewrite <- Zle_Qle. lia. }
    assert (C : 2 ^ 52 * 2 * (1 - 2 ^ (-53)) == 2 ^ 53 - 1) by reflexivity.
    rewrite D. set (g := 2 ^ (ep - ev - 1)) in *. set (u := 2 ^ ev) in *.
    assert (T : inject_Z (Z.pos mv) * u <= (2 ^ 53 - 1) * u) by nra.
    assert (T2 : (2 ^ 53 - 1) * u <= inject_Z (Z.pos mp) * (g * 2 * u) * (1 - 2 ^ (-53))).
    { rewrite <- C.
      assert (W : 0 < 1 - 2 ^ (-53)) by reflexivity.
      assert (T3 : 2 ^ 52 * 1 <= inject_Z (Z.pos mp) * g) by nra.
      assert (T4 : 0 <= 2 * u * (1 - 2 ^ (-53))) by nra.
      nra. }
    lra.
Qed.

End Exact.

Section Interp.
Local Open Scope Q_scope.

Lemma feqv_F2Q (a b : float64) :
  feqv a b -> is_finite a = true -> is_finite b = true -> F2Q a == F2Q b.
Proof.
  intros [A B] Fa Fb. apply (fle_fin _ _ Fa Fb) in A. apply (fle_fin _ _ Fb Fa) in B. lra.
Qed.

Lemma feqv_finite (a b : float64) : feqv a b -> is_finite a = true -> is_finite b = true.
Proof.
  intros [A B] Fa. apply fle_between_finite with a a; assumption.
Qed.

Lemma fadd_grid (x y : float64) :
  is_finite x = true -> is_finite y = true -> is_finite (fadd x y) = true ->
  exists N : Z, F2Q (fadd x y) == inject_Z N * 2 ^ emin.
Proof.
  destruct x as [s|s| |s m e], y as [s'|s'| |s' m' e']; intros Fx Fy F; try discriminate;
    try (apply round_grid; exact F).
  exists 0%Z. simpl. ring.
Qed.

Lemma F2Q_25 : F2Q (of_Z 25) == 25.
Proof. vm_compute. reflexivity. Qed.

Lemma of_Z_25_pos : is_finite (of_Z 25) = true /\ 0 < F2Q (of_Z 25).
Proof. vm_compute. split; reflexivity. Qed.

(** The product by 25 of a positive grid number, when finite, is at most
    [25 * (1 + 2^-53)] times that number. *)
Lemma fmul_25_err (d : float64) (N : Z) :
  is_finite d = true -> 0 < F2Q d -> F2Q d == inject_Z N * 2 ^ emin ->
  is_finite (fmul (of_Z 25) d) = true ->
  F2Q (fmul (of_Z 25) d) <= 25 * F2Q d * (1 + 2 ^ (-53)).
Proof.
  intros Fd Pd G F.
  destruct of_Z_25_pos as [F25 P25].
  pose proof (fmul_fin (of_Z 25) d F25 Fd) as E.
  assert (Fr : is_finite (round (F2Q (of_Z 25) * F2Q d)) = true)
    by (apply (feqv_finite _ _ E F)).
  rewrite (feqv_F2Q _ _ E F Fr).
  assert (A : F2Q (of_Z 25) * F2Q d == 25 * F2Q d) by (rewrite F2Q_25; reflexivity).
  rewrite (round_compat _ _ A) in *.
  apply (round_rel_err (25 * F2Q d) (25 * N)); [lra | | exact Fr].
  rewrite G, inject_Z_mult. change (inject_Z 25) with 25. ring.
Qed.

Section Band.

Variables lo hi : float64.
Hypothesis Vlo : valid lo = true.
Hypothesis Vhi : valid hi = true.
Hypothesis Flo : is_finite lo = true.
Hypothesis Fhi : is_finite hi = true.
Hypothesis Plo : fle zero lo.
Hypothesis Hlh : flt lo hi.
Hypothesis H25 : is_finite (fmul (of_Z 25) hi) = true.

Lemma width_pos : flt zero (fsub hi lo).
Proof. apply fsub_pos; assumption. Qed.

Lemma width_le : fle (fsub hi lo) hi.
Proof.
  destruct (fadd_fin hi (fopp lo) Fhi (fopp_finite lo Flo)) as [A _].
  destruct (round_id hi Vhi Fhi) as [B _].
  unfold fsub. apply fle_trans with (round (F2Q hi + F2Q (fopp lo))); [exact A|].
  apply fle_trans with (round (F2Q hi)); [|exact B].
  apply round_le. rewrite F2Q_fopp.
  apply (fle_fin zero lo eq_refl Flo) in Plo. simpl in Plo. lra.
Qed.

Lemma width_finite : is_finite (fsub hi lo) = true.
Proof.
  apply fle_between_finite with zero hi; auto.
  - apply flt_fle, width_pos.
  - apply width_le.
Qed.

Lemma width_Qpos : 0 < F2Q (fsub hi lo).
Proof. apply flt_zero_pos; [apply width_pos | apply width_finite]. Qed.

Lemma fmul_25_width_finite : is_finite (fmul (of_Z 25) (fsub hi lo)) = true.
Proof.
  destruct of_Z_25_pos as [F25 P25].
  apply fle_between_finite with (fmul (of_Z 25) zero) (fmul (of_Z 25) hi); auto.
  - apply fmul_mono_r; auto. apply flt_fle, width_pos.
  - apply fmul_mono_r; auto. apply width_le.
Qed.

(** The interpolated part never exceeds the float next above 25. *)
Lemma ratio_le (x : float64) :
  fle x (fsub hi lo) ->
  fle (fdiv (fmul (of_Z 25) x) (fsub hi lo)) (round (25 * (1 + 2 ^ (-53)))).
Proof.
  intros Hx. destruct of_Z_25_pos as [F25 P25].
  pose proof width_finite as Fd. pose proof width_Qpos as Pd.
  pose proof fmul_25_width_finite as FA.
  apply fle_trans with (fdiv (fmul (of_Z 25) (fsub hi lo)) (fsub hi lo)).
  - apply fdiv_mono; auto. apply fmul_mono_r; auto.
  - destruct (fdiv_fin _ _ FA Fd (pos_not_zero _ Fd Pd)) as [A _].
    apply fle_trans with (round (F2Q (fmul (of_Z 25) (fsub hi lo)) / F2Q (fsub hi lo)));
      [exact A|].
    apply round_le.
    destruct (fadd_grid hi (fopp lo) Fhi (fopp_finite lo Flo) Fd) as [N G].
    pose proof (fmul_25_err (fsub hi lo) N Fd Pd G FA) as E.
    apply Qle_shift_div_r; [exact Pd|].
    apply Qle_trans with (25 * F2Q (fsub hi lo) * (1 + 2 ^ (-53))); [exact E|].
    apply Qle_lteq. right. ring.
Qed.

Lemma band_mono (c v v' : float64) :
  is_finite c = true -> fle v v' ->
  fle (fadd c (fdiv (fmul (of_Z 25) (fsub v lo)) (fsub hi lo)))
      (fadd c (fdiv (fmul (of_Z 25) (fsub v' lo)) (fsub hi lo))).
Proof.
  intros Fc H. destruct of_Z_25_pos as [F25 P25].
  apply fadd_mono_r; auto. apply fdiv_mono.
  - apply width_finite.
  - apply width_Qpos.
  - apply fmul_mono_r; auto. apply fsub_mono_l; auto.
Qed.

Lemma band_lower (c v : float64) :
  is_finite c = true -> fle lo v ->
  fle (fadd c zero) (fadd c (fdiv (fmul (of_Z 25) (fsub v lo)) (fsub hi lo))).
Proof.
  intros Fc H.
  rewrite <- (interpolate_left lo hi Vlo Vhi Flo Hlh) at 1.
  apply band_mono; assumption.
Qed.

Lemma band_upper (c v : float64) :
  is_finite c = true -> fle v hi ->
  fle (fadd c (fdiv (fmul (of_Z 25) (fsub v lo)) (fsub hi lo)))
      (fadd c (round (25 * (1 + 2 ^ (-53))))).
Proof.
  intros Fc H. apply fadd_mono_r; auto. apply ratio_le.
  apply fsub_mono_l; assumption.
Qed.

End Band.

Section Low.

Variable poor : float64.
Hypothesis Vp : valid poor = true.
Hypothesis Fp : is_finite poor = true.
Hypothesis Pp : flt zero poor.
Hypothesis H25 : is_finite (fmul (of_Z 25) poor) = true.

Lemma low_mono (v v' : float64) :
  fle v v' -> fle (fdiv (fmul (of_Z 25) v) poor) (fdiv (fmul (of_Z 25) v') poor).
Proof.
  intros H. destruct of_Z_25_pos as [F25 P25].
  apply fdiv_mono; auto.
  - apply flt_zero_pos; assumption.
  - apply fmul_mono_r; auto.
Qed.

Lemma low_upper (v : float64) :
  valid v = true -> flt v poor ->
  fle (fdiv (fmul (of_Z 25) v) poor) (of_Z 25).
Proof.
  intros Vv H. destruct of_Z_25_pos as [F25 P25].
  pose proof (flt_zero_pos poor Pp Fp) as Qp.
  destruct (flt_not_nan _ _ H) as [Nv _].
  destruct (fle_total v zero Nv eq_refl) as [Z|Z].
  - (* nothing to interpolate below zero *)
    apply fle_trans with (fdiv (fmul (of_Z 25) zero) poor).
    + apply low_mono. exact Z.
    + rewrite fmul_25_zero, (fdiv_zero_pos poor Pp). vm_compute. reflexivity.
  - assert (Fv : is_finite v = true) by (apply flt_between_finite with zero poor; assumption).
    pose proof (flt_zero_pos v Z Fv) as Qv.
    assert (Hq : F2Q v < F2Q poor) by (apply (flt_fin _ _ Fv Fp); exact H).
    pose proof (float_spacing v poor Vv Vp Fv Fp Qv Hq) as S.
    assert (FA : is_finite (fmul (of_Z 25) v) = true).
    { apply fle_between_finite with (fmul (of_Z 25) zero) (fmul (of_Z 25) poor); auto.
      - apply fmul_mono_r; auto. apply flt_fle, Z.
      - apply fmul_mono_r; auto. apply flt_fle, H. }
    destruct (valid_grid v Vv Fv) as [N G].
    pose proof (fmul_25_err v N Fv Qv G FA) as E.
    destruct (fdiv_fin _ _ FA Fp (pos_not_zero _ Fp Qp)) as [A _].
    apply fle_trans with (round (F2Q (fmul (of_Z 25) v) / F2Q poor)); [exact A|].
    change (of_Z 25) with (round 25) at 2.
    apply round_le. apply Qle_shift_div_r; [exact Qp|].
    assert (P53 : 0 < 2 ^ (-53)) by apply pow2_pos.
    assert (X : (1 - 2 ^ (-53)) * (1 + 2 ^ (-53)) <= 1) by (vm_compute; discriminate).
    assert (T : 25 * F2Q v * (1 + 2 ^ (-53)) <= 25 * F2Q poor).
    { assert (T1 : F2Q v * (1 + 2 ^ (-53)) <= F2Q poor * ((1 - 2 ^ (-53)) * (1 + 2 ^ (-53)))).
      { rewrite Qmult_assoc. apply Qmult_le_compat_r; [exact S|]. lra. }
      nra. }
    lra.
Qed.

End Low.

End Interp.

Section Monotone.
Local Open Scope Q_scope.
Import report.

Variables poor marginal good excellent : float64.
Hypothesis Vp : valid poor = true.
Hypothesis Vm : valid marginal = true.
Hypothesis Vg : valid good = true.
Hypothesis Ve : valid excellent = true.
Hypothesis Hp : flt zero poor.
Hypothesis Hpm : flt poor marginal.
Hypothesis Hmg : flt marginal good.
Hypothesis Hge : flt good excellent.
Hypothesis H25 : is_finite (fmul (of_Z 25) excellent) = true.

Let sc (v : float64) : float64 := scoreMetric v poor marginal good excellent.

Lemma band_consts :
  fadd (of_Z 25) (round (25 * (1 + 2 ^ (-53)))) = of_Z 50 /\
  fadd (of_Z 50) (round (25 * (1 + 2 ^ (-53)))) = of_Z 75 /\
  fadd (of_Z 75) (round (25 * (1 + 2 ^ (-53)))) = of_Z 100 /\
  fadd (of_Z 25) zero = of_Z 25 /\
  fadd (of_Z 50) zero = of_Z 50 /\
  fadd (of_Z 75) zero = of_Z 75 /\
  fle (of_Z 25) (of_Z 50) /\ fle (of_Z 50) (of_Z 75) /\ fle (of_Z 75) (of_Z 100) /\
  is_finite (of_Z 25) = true /\ is_finite (of_Z 50) = true /\
  is_finite (of_Z 75) = true /\ is_finite (of_Z 100) = true.
Proof. vm_compute. repeat split; reflexivity. Qed.

Lemma poor_finite : is_finite poor = true.
Proof. apply flt_between_finite with zero marginal; assumption. Qed.
Lemma marginal_finite : is_finite marginal = true.
Proof. apply flt_between_finite with poor good; assumption. Qed.
Lemma good_finite : is_finite good = true.
Proof. apply flt_between_finite with marginal excellent; assumption. Qed.
Lemma excellent_finite : is_finite excellent = true.
Proof.
  destruct (flt_not_nan _ _ Hge) as [_ N].
  destruct (float_cases excellent) as [E|[E|[E|E]]]; auto; rewrite E in *; discriminate.
Qed.

Lemma marginal_nonneg : fle zero marginal.
Proof. apply flt_fle. apply flt_trans with poor; assumption. Qed.
Lemma good_nonneg : fle zero good.
Proof. apply fle_trans with marginal; [apply marginal_nonneg | apply flt_fle, Hmg]. Qed.

Lemma fmul_25_finite_below (b : float64) :
  fle zero b -> fle b excellent -> is_finite (fmul (of_Z 25) b) = true.
Proof.
  intros Z L. destruct of_Z_25_pos as [F25 P25].
  apply fle_between_finite with (fmul (of_Z 25) zero) (fmul (of_Z 25) excellent); auto;
    apply fmul_mono_r; auto.
Qed.

Lemma fmul_25_good_finite : is_finite (fmul (of_Z 25) good) = true.
Proof. apply fmul_25_finite_below; [apply good_nonneg | apply flt_fle, Hge]. Qed.
Lemma fmul_25_marginal_finite : is_finite (fmul (of_Z 25) marginal) = true.
Proof.
  apply fmul_25_finite_below; [apply marginal_nonneg|]. apply flt_fle. apply flt_trans with good; assumption.
Qed.
Lemma fmul_25_poor_finite : is_finite (fmul (of_Z 25) poor) = true.
Proof.
  apply fmul_25_finite_below; [apply flt_fle, Hp|]. apply flt_fle.
  apply flt_trans with marginal; [assumption|]. apply flt_trans with good; assumption.
Qed.

(** The branch [scoreMetric] takes. *)
Lemma sc_band1 (v : float64) : fle excellent v -> sc v = of_Z 100.
Proof. intros H. unfold sc, scoreMetric, fgeb. rewrite H. reflexivity. Qed.

Lemma sc_band2 (v : float64) :
  flt v excellent -> fle good v ->
  sc v = fadd (of_Z 75) (fdiv (fmul (of_Z 25) (fsub v good)) (fsub excellent good)).
Proof.
  intros H1 H2. unfold sc, scoreMetric. rewrite (flt_fgeb_false _ _ H1).
  unfold fgeb. rewrite H2. reflexivity.
Qed.

Lemma sc_band3 (v : float64) :
  flt v good -> fle marginal v ->
  sc v = fadd (of_Z 50) (fdiv (fmul (of_Z 25) (fsub v marginal)) (fsub good marginal)).
Proof.
  intros H1 H2. unfold sc, scoreMetric.
  rewrite (flt_fgeb_false v excellent) by (apply flt_trans with good; assumption).
  rewrite (flt_fgeb_false _ _ H1). unfold fgeb. rewrite H2. reflexivity.
Qed.

Lemma sc_band4 (v : float64) :
  flt v marginal -> fle poor v ->
  sc v = fadd (of_Z 25) (fdiv (fmul (of_Z 25) (fsub v poor)) (fsub marginal poor)).
Proof.
  intros H1 H2. unfold sc, scoreMetric.
  assert (G : flt v good) by (apply flt_trans with marginal; assumption).
  rewrite (flt_fgeb_false v excellent) by (apply flt_trans with good; assumption).
  rewrite (flt_fgeb_false _ _ G), (flt_fgeb_false _ _ H1).
  unfold fgeb. rewrite H2. reflexivity.
Qed.

Lemma sc_band5 (v : float64) :
  flt v poor -> sc v = fdiv (fmul (of_Z 25) v) poor.
Proof.
  intros H1. unfold sc, scoreMetric.
  assert (M : flt v marginal) by (apply flt_trans with poor; assumption).
  assert (G : flt v good) by (apply flt_trans with marginal; assumption).
  rewrite (flt_fgeb_false v excellent) by (apply flt_trans with good; assumption).
  rewrite (flt_fgeb_false _ _ G), (flt_fgeb_false _ _ M), (flt_fgeb_false _ _ H1).
  reflexivity.
Qed.

(** Below a breakpoint the score is at most the breakpoint's score. *)
Lemma sc_le_poor (v : float64) : valid v = true -> flt v poor -> fle (sc v) (of_Z 25).
Proof.
  intros Vv H. rewrite (sc_band5 v H). apply low_upper; auto using poor_finite, fmul_25_poor_finite.
Qed.

Lemma sc_le_marginal (v : float64) :
  valid v = true -> flt v marginal -> fle (sc v) (of_Z 50).
Proof.
  intros Vv H. destruct band_consts as [C1 [_ [_ [_ [_ [_ [L1 [_ [_ [F25 _]]]]]]]]]].
  destruct (flt_not_nan _ _ H) as [Nv _]. destruct (flt_not_nan _ _ Hp) as [_ Np].
  destruct (fle_total poor v Np Nv) as [A|A].
  - rewrite (sc_band4 v H A), <- C1.
    apply band_upper; auto using poor_finite, marginal_finite, fmul_25_marginal_finite. 
    + apply flt_fle, Hp.
    + apply flt_fle, H.
  - apply fle_trans with (of_Z 25); [apply sc_le_poor; assumption | exact L1].
Qed.

Lemma sc_le_good (v : float64) :
  valid v = true -> flt v good -> fle (sc v) (of_Z 75).
Proof.
  intros Vv H. destruct band_consts as [_ [C2 [_ [_ [_ [_ [_ [L2 [_ [_ [F50 _]]]]]]]]]]].
  destruct (flt_not_nan _ _ H) as [Nv _]. destruct (flt_not_nan _ _ Hpm) as [_ Nm].
  destruct (fle_total marginal v Nm Nv) as [A|A].
  - rewrite (sc_band3 v H A), <- C2.
    apply band_upper; auto using marginal_finite, good_finite, fmul_25_good_finite, marginal_nonneg.
    apply flt_fle, H.
  - apply fle_trans with (of_Z 50); [apply sc_le_marginal; assumption | exact L2].
Qed.

Lemma sc_le_excellent (v : float64) :
  valid v = true -> flt v excellent -> fle (sc v) (of_Z 100).
Proof.
  intros Vv H. destruct band_consts as [_ [_ [C3 [_ [_ [_ [_ [_ [L3 [_ [_ [F75 _]]]]]]]]]]]].
  destruct (flt_not_nan _ _ H) as [Nv _]. destruct (flt_not_nan _ _ Hmg) as [_ Ng].
  destruct (fle_total good v Ng Nv) as [A|A].
  - rewrite (sc_band2 v H A), <- C3.
    apply band_upper; auto using good_finite, excellent_finite, good_nonneg.
    apply flt_fle, H.
  - apply fle_trans with (of_Z 75); [apply sc_le_good; assumption | exact L3].
Qed.

(** Monotonicity proper. *)
Lemma sc_monotone (v1 v2 : float64) :
  valid v1 = true -> valid v2 = true -> flt v1 v2 -> fle (sc v1) (sc v2).
Proof.
  intros V1 V2 H.
  destruct band_consts as [_ [_ [_ [Z25 [Z50 [Z75 [_ [_ [_ [F25 [F50 [F75 F100]]]]]]]]]]]].
  destruct (flt_not_nan _ _ H) as [N1 N2].
  destruct (flt_not_nan _ _ Hp) as [_ Np]. destruct (flt_not_nan _ _ Hpm) as [_ Nm].
  destruct (flt_not_nan _ _ Hmg) as [_ Ng]. destruct (flt_not_nan _ _ Hge) as [_ Ne].
  pose proof (flt_fle _ _ H) as L.
  (* excellent *)
  destruct (fle_total excellent v2 Ne N2) as [E2|E2].
  { rewrite (sc_band1 v2 E2).
    destruct (fle_total excellent v1 Ne N1) as [E1|E1].
    - rewrite (sc_band1 v1 E1). apply fle_refl. reflexivity.
    - apply sc_le_excellent; assumption. }
  assert (E1 : flt v1 excellent) by (apply flt_trans with v2; assumption).
  (* good *)
  destruct (fle_total good v2 Ng N2) as [G2|G2].
  { destruct (fle_total good v1 Ng N1) as [G1|G1].
    - rewrite (sc_band2 v1 E1 G1), (sc_band2 v2 E2 G2).
      apply band_mono; auto using good_finite, excellent_finite, good_nonneg.
    - apply fle_trans with (of_Z 75); [apply sc_le_good; assumption|].
      rewrite (sc_band2 v2 E2 G2), <- Z75 at 1.
      apply band_lower; auto using good_finite, excellent_finite, good_nonneg. }
  assert (G1 : flt v1 good) by (apply flt_trans with v2; assumption).
  (* marginal *)
  destruct (fle_total marginal v2 Nm N2) as [M2|M2].
  { destruct (fle_total marginal v1 Nm N1) as [M1|M1].
    - rewrite (sc_band3 v1 G1 M1), (sc_band3 v2 G2 M2).
      apply band_mono; auto using marginal_finite, good_finite, marginal_nonneg, fmul_25_good_finite.
    - apply fle_trans with (of_Z 50); [apply sc_le_marginal; assumption|].
      rewrite (sc_band3 v2 G2 M2), <- Z50 at 1.
      apply band_lower; auto using marginal_finite, good_finite, marginal_nonneg, fmul_25_good_finite. }
  assert (M1 : flt v1 marginal) by (apply flt_trans with v2; assumption).
  (* poor *)
  destruct (fle_total poor v2 Np N2) as [P2|P2].
  { destruct (fle_total poor v1 Np N1) as [P1|P1].
    - rewrite (sc_band4 v1 M1 P1), (sc_band4 v2 M2 P2).
      apply band_mono; auto using poor_finite, marginal_finite, fmul_25_marginal_finite. apply flt_fle, Hp.
    - apply fle_trans with (of_Z 25); [apply sc_le_poor; assumption|].
      rewrite (sc_band4 v2 M2 P2), <- Z25 at 1.
      apply band_lower; auto using poor_finite, marginal_finite, fmul_25_marginal_finite. apply flt_fle, Hp. }
  assert (P1 : flt v1 poor) by (apply flt_trans with v2; assumption).
  rewrite (sc_band5 v1 P1), (sc_band5 v2 P2).
  apply low_mono; auto using poor_finite, fmul_25_poor_finite.
Qed.

End Monotone.

Section ExactIntegers.
Local Open Scope Q_scope.

(** An integer below 2^53 converts to [float64] exactly. *)
Lemma of_Z_exact (n : Z) :
  (0 <= n < 2 ^ 53)%Z -> is_finite (of_Z n) = true /\ F2Q (of_Z n) == inject_Z n.
Proof.
  intros Hn. destruct (Z.eq_dec n 0) as [->|N0]; [split; reflexivity|].
  assert (Pa : 0 < inject_Z n) by (change 0 with (inject_Z 0); rewrite <- Zlt_Qlt; lia).
  unfold of_Z, round.
  destruct (Qcompare_spec (inject_Z n) 0) as [E|E|E]; try (exfalso; lra).
  unfold round_pos.
  set (k := ulp_exp (inject_Z n)).
  destruct (ilog2_spec (inject_Z n) Pa) as [L U].
  assert (B : inject_Z n < 2 ^ 53).
  { rewrite (pow2_Z 53) by lia. rewrite <- Zlt_Qlt. lia. }
  assert (Ek : (ilog2 (inject_Z n) < 53)%Z).
  { apply pow2_lt_inv. apply Qle_lt_trans with (inject_Z n); assumption. }
  assert (Hk : (k <= 0)%Z) by (subst k; unfold ulp_exp, emin; lia).
  assert (P : 2 ^ k * 2 ^ (- k) == 1).
  { rewrite <- pow2_add. replace (k + - k)%Z with 0%Z by lia. reflexivity. }
  assert (Pk : 0 < 2 ^ k) by apply pow2_pos.
  assert (D : inject_Z n / 2 ^ k == inject_Z (n * 2 ^ (- k))).
  { rewrite inject_Z_mult. rewrite <- (pow2_Z (- k)) by lia.
    apply Qmult_inj_r with (2 ^ k); [lra|].
    unfold Qdiv. rewrite <- Qmult_assoc, (Qmult_comm (/ _)), Qmult_inv_r by lra.
    rewrite <- Qmult_assoc, (Qmult_comm (2 ^ (- k))), P. reflexivity. }
  pose proof (mant_range (inject_Z n) Pa) as R. fold k in R.
  rewrite (rne_compat _ _ D), rne_Z in *.
  destruct (mkfloat_spec false (n * 2 ^ (- k)) k R) as [(F & Q & _)|(_ & _ & O)].
  - split; [exact F|]. rewrite Q. cbn [cond_Zopp]. rewrite <- D.
    unfold Qdiv. rewrite <- Qmult_assoc, (Qmult_comm (/ _)), Qmult_inv_r by lra. ring.
  - exfalso. unfold emax in O. lia.
Qed.

End ExactIntegers.

(** ** The weighted total against the exact one *)

Section Totals.
Local Open Scope Q_scope.
Import report.

Lemma rne_lower (x : Q) : x - (1 # 2) <= inject_Z (rne x).
Proof.
  destruct (Qfloor_bounds x) as [F1 F2].
  destruct (rne_cases x) as [[H E]|[[H [E|E]]|[H E]]]; rewrite E;
    try rewrite inject_Z_plus; change (inject_Z 1) with 1; lra.
Qed.

(** Rounding a number of [0, 128] moves it by at most [2^-46], and not
    below 0. *)
Lemma round_abs_err (a : Q) :
  0 <= a <= 128 ->
  is_finite (round a) = true /\ 0 <= F2Q (round a) /\
  a - 2 ^ (-46) <= F2Q (round a) <= a + 2 ^ (-46).
Proof.
  intros [L U].
  assert (P46 : 0 < 2 ^ (-46)) by apply pow2_pos.
  destruct (Qlt_le_dec 0 a) as [Pa|Na].
  - unfold round.
    destruct (Qcompare_spec a 0) as [C|C|C]; [exfalso; lra | exfalso; lra | clear C].
    unfold round_pos. set (k := ulp_exp a).
    assert (Hk : (k <= -45)%Z).
    { change (-45)%Z with (ulp_exp 128). apply ulp_exp_le; assumption. }
    assert (Pk : 0 < 2 ^ k) by apply pow2_pos.
    assert (Bk : 2 ^ k <= 2 ^ (-45)) by (apply pow2_le; exact Hk).
    assert (H45 : 2 ^ (-45) == 2 * 2 ^ (-46)) by reflexivity.
    pose proof (mant_range a Pa) as R. fold k in R.
    destruct (mkfloat_spec false (rne (a / 2 ^ k)) k R) as [(F & V & _)|(_ & _ & O)];
      [|exfalso; unfold emax in O; lia].
    split; [exact F|]. rewrite V. cbn [cond_Zopp].
    pose proof (rne_upper (a / 2 ^ k)) as Up.
    pose proof (rne_lower (a / 2 ^ k)) as Lo.
    assert (A : a == a / 2 ^ k * 2 ^ k) by (field; lra).
    assert (M : 0 <= inject_Z (rne (a / 2 ^ k))).
    { change 0 with (inject_Z 0). rewrite <- Zle_Qle. lia. }
    set (s := a / 2 ^ k) in *. set (r := inject_Z (rne s)) in *.
    assert (T1 : 0 <= (r - (s - (1 # 2))) * 2 ^ k) by (apply Qmult_le_0_compat; lra).
    assert (T2 : 0 <= (s + (1 # 2) - r) * 2 ^ k) by (apply Qmult_le_0_compat; lra).
    split; [nra|]. split; nra.
  - assert (E : a == 0) by lra.
    rewrite (round_compat a 0 E). split; [reflexivity|].
    change (F2Q (round 0)) with 0. lra.
Qed.

(** A float that is finite, not negative and within [e] of [q]. *)
Let near (x : float64) (q e : Q) : Prop :=
  is_finite x = true /\ 0 <= F2Q x /\ q - e <= F2Q x <= q + e.

Lemma weights_near :
  near (of_Q 0.40) 0.40 (2 ^ (-54)) /\ near (of_Q 0.35) 0.35 (2 ^ (-54)) /\
  near (of_Q 0.25) 0.25 (2 ^ (-54)).
Proof. unfold near. vm_compute. repeat split; intros; discriminate. Qed.

Lemma feqv_round (x : float64) (q : Q) :
  feqv x (round q) -> 0 <= q <= 128 ->
  is_finite x = true /\ 0 <= F2Q x /\ q - 2 ^ (-46) <= F2Q x <= q + 2 ^ (-46).
Proof.
  intros E H. destruct (round_abs_err q H) as (F & P & B).
  assert (Fx : is_finite x = true).
  { apply feqv_finite with (round q); [|exact F]. destruct E; split; assumption. }
  rewrite (feqv_F2Q _ _ E Fx F). auto.
Qed.

Lemma product_near (n : Z) (a : float64) (w : Q) :
  (0 <= n <= 100)%Z -> 0 <= w <= 1 -> near a w (2 ^ (-54)) ->
  near (fmul (of_Z n) a) (w * inject_Z n) (2 ^ (-45)).
Proof.
  intros Hn Hw (Fa & Pa & La & Ua).
  destruct (of_Z_exact n) as [Fn En]; [lia|].
  assert (N0 : 0 <= inject_Z n) by (change 0 with (inject_Z 0); rewrite <- Zle_Qle; lia).
  assert (N1 : inject_Z n <= 100) by (change 100 with (inject_Z 100); rewrite <- Zle_Qle; lia).
  assert (C54 : 100 * 2 ^ (-54) <= 2 ^ (-46)) by (vm_compute; discriminate).
  assert (C46 : 2 * 2 ^ (-46) == 2 ^ (-45)) by reflexivity.
  assert (P54 : 0 < 2 ^ (-54)) by apply pow2_pos.
  assert (S54 : 2 ^ (-54) <= 1 # 4) by (vm_compute; discriminate).
  set (x := inject_Z n) in *. set (y := F2Q a) in *.
  assert (D1 : x * (y - w) <= 100 * 2 ^ (-54)) by nra.
  assert (D2 : - (100 * 2 ^ (-54)) <= x * (y - w)) by nra.
  assert (XW : 0 <= x * w <= 100) by (split; nra).
  assert (XY : 0 <= x * y) by (apply Qmult_le_0_compat; assumption).
  assert (Eq : F2Q (of_Z n) * F2Q a == x * y) by (rewrite En; reflexivity).
  pose proof (fmul_fin _ _ Fn Fa) as Ev.
  set (q := F2Q (of_Z n) * F2Q a) in *.
  assert (R : 0 <= q <= 128) by (split; lra).
  destruct (feqv_round _ _ Ev R) as (F & P & L & U).
  assert (WC : w * x == x * w) by ring.
  unfold near. split; [exact F|]. split; [exact P|]. split; lra.
Qed.

Lemma sum_near (x y : float64) (qx qy ex ey : Q) :
  near x qx ex -> near y qy ey -> qx + qy + ex + ey <= 128 ->
  near (fadd x y) (qx + qy) (ex + ey + 2 ^ (-46)).
Proof.
  intros (Fx & Px & Lx & Ux) (Fy & Py & Ly & Uy) B.
  assert (R : 0 <= F2Q x + F2Q y <= 128) by (split; lra).
  destruct (feqv_round _ _ (fadd_fin _ _ Fx Fy) R) as (F & P & L & U).
  unfold near. split; [exact F|]. split; [exact P|]. split; lra.
Qed.

Lemma fused_near (n : Z) (a z : float64) (w qz ez : Q) :
  (0 <= n <= 100)%Z -> 0 <= w <= 1 -> near a w (2 ^ (-54)) ->
  near z qz ez -> 100 * w + qz + ez <= 127 ->
  near (spec.fused (of_Z n) a z) (w * inject_Z n + qz) (ez + 2 ^ (-45)).
Proof.
  intros Hn Hw (Fa & Pa & La & Ua) (Fz & Pz & Lz & Uz) B.
  destruct (of_Z_exact n) as [Fn En]; [lia|].
  assert (N0 : 0 <= inject_Z n) by (change 0 with (inject_Z 0); rewrite <- Zle_Qle; lia).
  assert (N1 : inject_Z n <= 100) by (change 100 with (inject_Z 100); rewrite <- Zle_Qle; lia).
  assert (C54 : 100 * 2 ^ (-54) <= 2 ^ (-46)) by (vm_compute; discriminate).
  assert (C46 : 2 * 2 ^ (-46) == 2 ^ (-45)) by reflexivity.
  assert (P54 : 0 < 2 ^ (-54)) by apply pow2_pos.
  assert (S54 : 2 ^ (-54) <= 1 # 4) by (vm_compute; discriminate).
  unfold spec.fused.
  set (x := inject_Z n) in *. set (y := F2Q a) in *.
  assert (D1 : x * (y - w) <= 100 * 2 ^ (-54)) by nra.
  assert (D2 : - (100 * 2 ^ (-54)) <= x * (y - w)) by nra.
  assert (XW : 0 <= x * w <= 100 * w) by (split; nra).
  assert (XY : 0 <= x * y) by (apply Qmult_le_0_compat; assumption).
  assert (Eq : F2Q (of_Z n) * F2Q a + F2Q z == x * y + F2Q z)
    by (rewrite En; reflexivity).
  change (F2Q a) with y in Eq.
  set (q := F2Q (of_Z n) * y + F2Q z) in *.
  assert (R : 0 <= q <= 128) by (split; lra).
  destruct (round_abs_err _ R) as (F & P & L & U).
  assert (WC : w * x == x * w) by ring.
  unfold near. split; [exact F|]. split; [exact P|]. split; lra.
Qed.

(** Whatever the compiler fuses, the weighted total is within [2^-43] of
    the exact one. *)
Lemma totals_near (cpu mem disk : Z) :
  (0 <= cpu <= 100)%Z -> (0 <= mem <= 100)%Z -> (0 <= disk <= 100)%Z ->
  Forall (fun t => near t (spec.exact_total cpu mem disk) (2 ^ (-43)))
         (spec.totals cpu mem disk).
Proof.
  intros Hc Hm Hd.
  destruct weights_near as (W40 & W35 & W25).
  assert (R40 : 0 <= 0.40 <= 1) by (split; discriminate).
  assert (R35 : 0 <= 0.35 <= 1) by (split; discriminate).
  assert (R25 : 0 <= 0.25 <= 1) by (split; discriminate).
  pose proof (product_near cpu _ _ Hc R40 W40) as Pc.
  pose proof (product_near disk _ _ Hd R35 W35) as Pd.
  pose proof (product_near mem _ _ Hm R25 W25) as Pm.
  assert (C0 : 0 <= inject_Z cpu <= 100).
  { split; [change 0 with (inject_Z 0) | change 100 with (inject_Z 100)];
      rewrite <- Zle_Qle; lia. }
  assert (D0 : 0 <= inject_Z disk <= 100).
  { split; [change 0 with (inject_Z 0) | change 100 with (inject_Z 100)];
      rewrite <- Zle_Qle; lia. }
  assert (M0 : 0 <= inject_Z mem <= 100).
  { split; [change 0 with (inject_Z 0) | change 100 with (inject_Z 100)];
      rewrite <- Zle_Qle; lia. }
  assert (E45 : 2 ^ (-45) == 1 # 35184372088832) by reflexivity.
  assert (E46 : 2 ^ (-46) == 1 # 70368744177664) by reflexivity.
  assert (E43 : 2 ^ (-43) == 1 # 8796093022208) by reflexivity.
  assert (I1 : near (fadd (fmul (of_Z cpu) (of_Q 0.40)) (fmul (of_Z disk) (of_Q 0.35)))
                    (0.40 * inject_Z cpu + 0.35 * inject_Z disk)
                    (2 ^ (-45) + 2 ^ (-45) + 2 ^ (-46))).
  { apply sum_near; [exact Pc | exact Pd | lra]. }
  assert (I2 : near (spec.fused (of_Z cpu) (of_Q 0.40) (fmul (of_Z disk) (of_Q 0.35)))
                    (0.40 * inject_Z cpu + 0.35 * inject_Z disk)
                    (2 ^ (-45) + 2 ^ (-45))).
  { apply fused_near; [exact Hc | exact R40 | exact W40 | exact Pd |].
    lra. }
  assert (I3 : near (spec.fused (of_Z disk) (of_Q 0.35) (fmul (of_Z cpu) (of_Q 0.40)))
                    (0.35 * inject_Z disk + 0.40 * inject_Z cpu)
                    (2 ^ (-45) + 2 ^ (-45))).
  { apply fused_near; [exact Hd | exact R35 | exact W35 | exact Pc |]. lra. }
  assert (widen : forall t q q' e, near t q e -> q == q' -> e <= 2 ^ (-43) ->
                                    near t q' (2 ^ (-43))).
  { intros t q q' e (F & P & L & U) Eq Le. unfold near.
    split; [exact F|]. split; [exact P|]. rewrite <- Eq. split; lra. }
  unfold spec.totals. cbn [flat_map app].
  repeat apply Forall_cons; try apply Forall_nil; unfold spec.exact_total.
  - eapply widen; [apply sum_near; [exact I1 | exact Pm | lra] | ring | lra].
  - eapply widen; [apply fused_near; [exact Hm | exact R25 | exact W25 | exact I1 | lra]
                  | ring | lra].
  - eapply widen; [apply sum_near; [exact I2 | exact Pm | lra] | ring | lra].
  - eapply widen; [apply fused_near; [exact Hm | exact R25 | exact W25 | exact I2 | lra]
                  | ring | lra].
  - eapply widen; [apply sum_near; [exact I3 | exact Pm | lra] | ring | lra].
  - eapply widen; [apply fused_near; [exact Hm | exact R25 | exact W25 | exact I3 | lra]
                  | ring | lra].
Qed.

(** The exact total is a multiple of 1/20. *)
Lemma exact_total_twentieths (cpu mem disk : Z) :
  spec.exact_total cpu mem disk * 20 == inject_Z (8 * cpu + 7 * disk + 5 * mem).
Proof.
  unfold spec.exact_total. rewrite !inject_Z_plus, !inject_Z_mult.
  change (inject_Z 8) with 8. change (inject_Z 7) with 7. change (inject_Z 5) with 5.
  field.
Qed.

(** Truncating a number that close to the exact total gives the floor of
    the exact total, or one less when the exact total is an integer. *)
Lemma floor_near_exact (x : Q) (cpu mem disk : Z) :
  spec.exact_total cpu mem disk - 2 ^ (-43) <= x <=
  spec.exact_total cpu mem disk + 2 ^ (-43) ->
  let exact := Qfloor (spec.exact_total cpu mem disk) in
  (exact - 1 <= Qfloor x <= exact)%Z /\
  (inject_Z exact < spec.exact_total cpu mem disk -> Qfloor x = exact).
Proof.
  intros [L U] exact.
  pose proof (exact_total_twentieths cpu mem disk) as K.
  set (e := spec.exact_total cpu mem disk) in *.
  set (k := (8 * cpu + 7 * disk + 5 * mem)%Z) in *.
  destruct (Qfloor_bounds e) as [E1 E2]. fold exact in E1, E2.
  destruct (Qfloor_bounds x) as [X1 X2].
  assert (S43 : 2 ^ (-43) < 1 # 40) by reflexivity.
  assert (P43 : 0 < 2 ^ (-43)) by apply pow2_pos.
  (* in twentieths *)
  assert (A1 : (20 * exact <= k)%Z).
  { rewrite Zle_Qle, inject_Z_mult. change (inject_Z 20) with 20. lra. }
  assert (A2 : (k < 20 * exact + 20)%Z).
  { rewrite Zlt_Qlt, inject_Z_plus, inject_Z_mult. change (inject_Z 20) with 20. lra. }
  assert (B1 : (20 * Qfloor x < k + 1)%Z).
  { rewrite Zlt_Qlt, inject_Z_plus, inject_Z_mult.
    change (inject_Z 20) with 20. change (inject_Z 1) with 1. lra. }
  assert (B2 : (k < 20 * Qfloor x + 21)%Z).
  { rewrite Zlt_Qlt, inject_Z_plus, inject_Z_mult.
    change (inject_Z 20) with 20. change (inject_Z 21) with 21. lra. }
  split; [lia|].
  intros N.
  assert (A3 : (20 * exact < k)%Z).
  { rewrite Zlt_Qlt, inject_Z_mult. change (inject_Z 20) with 20. lra. }
  lia.
Qed.

(** Every value the expression of line 73 can take converts to an
    integer that is the floor of the exact total, or one less when the
    exact total is an integer. *)
Lemma totals_floor (cpu mem disk : Z) :
  (0 <= cpu <= 100)%Z -> (0 <= mem <= 100)%Z -> (0 <= disk <= 100)%Z ->
  let exact := Qfloor (spec.exact_total cpu mem disk) in
  Forall (fun t => to_int t = Some (floor t) /\
                   (exact - 1 <= floor t <= exact)%Z /\
                   (inject_Z exact < spec.exact_total cpu mem disk -> floor t = exact))
         (spec.totals cpu mem disk).
Proof.
  intros Hc Hm Hd exact.
  eapply Forall_impl; [|apply (totals_near cpu mem disk Hc Hm Hd)].
  intros t (F & P & L & U).
  assert (S43 : 2 ^ (-43) < 1) by reflexivity.
  assert (C0 : 0 <= inject_Z cpu <= 100).
  { split; [change 0 with (inject_Z 0) | change 100 with (inject_Z 100)];
      rewrite <- Zle_Qle; lia. }
  assert (D0 : 0 <= inject_Z disk <= 100).
  { split; [change 0 with (inject_Z 0) | change 100 with (inject_Z 100)];
      rewrite <- Zle_Qle; lia. }
  assert (M0 : 0 <= inject_Z mem <= 100).
  { split; [change 0 with (inject_Z 0) | change 100 with (inject_Z 100)];
      rewrite <- Zle_Qle; lia. }
  assert (B : F2Q t < 2 ^ 63).
  { apply Qle_lt_trans with 101; [|reflexivity].
    unfold spec.exact_total in U. lra. }
  split; [apply to_int_nonneg; assumption|].
  unfold floor. apply floor_near_exact. split; assumption.
Qed.

End Totals.

(** * The model against the machine

    On every pair of the sample floats (zeros, subnormals, the largest
    float, infinities, NaN, and the constants of the program) the four
    operations and the three comparisons of the model return what the
    kernel's primitive binary64 floats return. *)
Lemma binary64_agrees_with_machine :
  forallb (fun x => forallb (machine.agree x) sample.floats) sample.floats = true.
Proof. vm_compute. reflexivity. Qed.

(** On them [valid] is the standard library's [valid_binary] at
    precision 53 and exponent bound 1024. *)
Lemma valid_agrees_with_valid_binary :
  forallb (fun x => Bool.eqb (valid x) (valid_binary 53 1024 x)) sample.floats = true.
Proof. vm_compute. reflexivity. Qed.

(** * The program's properties *)

Section Program.
Local Open Scope string_scope.
Local Open Scope Z_scope.
Import report.

(** ** Overall score *)

(** The line-73 expression truncates: 0.35*45 rounds to
    15.749999999999998 in binary64, the sum stays below 16 and the total
    is 15, where exact arithmetic gives 16. *)
Lemma totalScore_truncates_binary64 :
  totalScore 0 1 45 = Some 15 /\
  Qfloor (0.40 * 0 + 0.35 * 45 + 0.25 * 1) = 16.
Proof. vm_compute. split; reflexivity. Qed.

(** The total is not the floor of the exact weighted sum.  The machine
    with 600 trie inserts and 50000 random I/O operations per second
    scores 0, 1 and 45 and gets the total 15, where the floor of
    0.40*0 + 0.35*45 + 0.25*1 is 16; the scores 16, 0 and 96 give 39,
    where the exact sum is 40. *)
Lemma calculateSummary_total_below_exact_floor :
  calculateSummary sample.rounding_results = Some (mkSummary 0 1 45 15) /\
  Qfloor (spec.exact_total 0 1 45) = 16 /\
  totalScore 16 0 96 = Some 39 /\
  Qfloor (spec.exact_total 16 0 96) = 40.
Proof. vm_compute. repeat split; reflexivity. Qed.

(** C1.  When the three category scores are defined and lie in [0,100],
    [calculateSummary] returns a summary whose total is the binary64
    value of [cpu*0.40 + disk*0.35 + memory*0.25] with its fraction cut
    off, and lies in [0,100].  It is the floor of the exact weighted sum
    or one less, and it is the floor whenever the exact sum is not an
    integer.  The same holds of every value the expression may take when
    the compiler fuses a product into a sum. *)
Theorem calculateSummary_total_is_floor :
  forall (results : Results.t) (cpu mem disk : Z),
    calculateCPUScore (Results.CPU results) = Some cpu ->
    calculateMemoryScore (Results.Memory results) = Some mem ->
    calculateDiskScore (Results.Disk results) = Some disk ->
    0 <= cpu <= 100 -> 0 <= mem <= 100 -> 0 <= disk <= 100 ->
    let w := fadd (fadd (fmul (of_Z cpu) (of_Q 0.40)) (fmul (of_Z disk) (of_Q 0.35)))
                  (fmul (of_Z mem) (of_Q 0.25)) in
    let exact := Qfloor (spec.exact_total cpu mem disk) in
    exists total : Z,
      calculateSummary results = Some (mkSummary cpu mem disk total) /\
      total = floor w /\
      (inject_Z total <= F2Q w < inject_Z total + 1)%Q /\
      0 <= total <= 100 /\
      exact - 1 <= total <= exact /\
      ((inject_Z exact < spec.exact_total cpu mem disk)%Q -> total = exact) /\
      Forall (fun t : float64 =>
                to_int t = Some (floor t) /\
                exact - 1 <= floor t <= exact /\
                ((inject_Z exact < spec.exact_total cpu mem disk)%Q -> floor t = exact))
             (spec.totals cpu mem disk).
Proof.
  intros results cpu mem disk Ec Em Ed Hc Hm Hd w exact.
  destruct (totalScore_floor cpu mem disk Hc Hm Hd) as [T R].
  change (weightedTotal cpu mem disk) with w in T, R.
  pose proof (totals_floor cpu mem disk Hc Hm Hd) as A. fold exact in A.
  assert (H : exact - 1 <= floor w <= exact /\
              ((inject_Z exact < spec.exact_total cpu mem disk)%Q -> floor w = exact)).
  { unfold spec.totals in A. cbn [flat_map app] in A.
    inversion A as [|t rest (_ & B & N) _]. subst. split; assumption. }
  exists (floor w).
  split; [unfold calculateSummary; rewrite Ec, Em, Ed, T; reflexivity|].
  split; [reflexivity|].
  split; [unfold floor; apply Qfloor_bounds|].
  split; [exact R|].
  split; [apply H|]. split; [apply H | exact A].
Qed.

Lemma calculateSummary_total_is_floor_witness :
  exists total : Z,
    calculateSummary sample.excellent_results = Some (mkSummary 100 100 100 total) /\
    total = floor (weightedTotal 100 100 100) /\
    0 <= total <= 100 /\
    Qfloor (spec.exact_total 100 100 100) - 1 <= total
      <= Qfloor (spec.exact_total 100 100 100).
Proof.
  destruct (calculateSummary_total_is_floor sample.excellent_results 100 100 100)
    as (total & E & F & _ & R & X & _);
    try (vm_compute; reflexivity); try lia.
  exists total. auto.
Defined.

(** ** Verdict *)

(** The labels [determineVerdict] sets, as a function of the score. *)
Lemma determineVerdict_labels (score : Z) (results : Results.t) :
  ExecutionClient (determineVerdict score results) =
    (if score >=? 80 then "Ready" else if score >=? 40 then "Marginal" else "Unsuitable") /\
  ConsensusClient (determineVerdict score results) =
    (if score >=? 60 then "Ready" else "Marginal").
Proof.
  unfold determineVerdict.
  destruct (fltb _ (of_Z 10000)), (fltb _ (of_Z 500)), (fltb _ (of_Z 100));
    destruct (Z.geb_spec score 80), (Z.geb_spec score 60), (Z.geb_spec score 40);
    try lia; split; reflexivity.
Qed.

(** The appends of [determineVerdict], read as one concatenation. *)
Lemma determineVerdict_appends (score : Z) (results : Results.t) :
  Recommendations (determineVerdict score results) =
    (spec.baseline_advisories score ++ spec.conditional_advisories results)%list.
Proof.
  unfold determineVerdict, spec.baseline_advisories, spec.conditional_advisories.
  destruct (fltb _ (of_Z 10000)), (fltb _ (of_Z 500)), (fltb _ (of_Z 100));
    destruct (Z.geb_spec score 80), (Z.leb_spec 80 score); try lia;
    destruct (Z.geb_spec score 60), (Z.leb_spec 60 score); try lia;
    destruct (Z.geb_spec score 40), (Z.leb_spec 40 score); try lia;
    reflexivity.
Qed.

(** C2.  The two role labels follow the tier of the score: 80 and above
    Ready/Ready, 60-79 Marginal/Ready, 40-59 Marginal/Marginal, below 40
    Unsuitable/Marginal; in particular at 80, 79, 40 and 39. *)
Theorem determineVerdict_tiers :
  forall (score : Z) (results : Results.t),
    let v := determineVerdict score results in
    (80 <= score -> ExecutionClient v = "Ready" /\ ConsensusClient v = "Ready") /\
    (60 <= score <= 79 -> ExecutionClient v = "Marginal" /\ ConsensusClient v = "Ready") /\
    (40 <= score <= 59 -> ExecutionClient v = "Marginal" /\ ConsensusClient v = "Marginal") /\
    (score < 40 -> ExecutionClient v = "Unsuitable" /\ ConsensusClient v = "Marginal") /\
    ExecutionClient (determineVerdict 80 results) = "Ready" /\
    ExecutionClient (determineVerdict 79 results) = "Marginal" /\
    ExecutionClient (determineVerdict 40 results) = "Marginal" /\
    ConsensusClient (determineVerdict 40 results) = "Marginal" /\
    ExecutionClient (determineVerdict 39 results) = "Unsuitable".
Proof.
  intros score results v. subst v.
  destruct (determineVerdict_labels score results) as [E C].
  destruct (determineVerdict_labels 80 results) as [E80 _].
  destruct (determineVerdict_labels 79 results) as [E79 _].
  destruct (determineVerdict_labels 40 results) as [E40 C40].
  destruct (determineVerdict_labels 39 results) as [E39 _].
  rewrite E, C, E80, E79, E40, C40, E39. clear E C E80 E79 E40 C40 E39.
  destruct (Z.geb_spec score 80), (Z.geb_spec score 60), (Z.geb_spec score 40);
    try lia; repeat split; intros; try lia; reflexivity.
Qed.

(** C6.  The recommendations are the baseline advisories of the selected
    tier followed by the conditional advisories; each conditional
    advisory is there exactly when its raw metric is below its threshold
    (read I/O below 10000, ECDSA verification below 500, BLS verification
    below 100), whatever the tier, in that order, and nothing is removed. *)
Theorem determineVerdict_recommendations :
  forall (score : Z) (results : Results.t),
    Recommendations (determineVerdict score results) =
      (spec.baseline_advisories score ++
       (if fltb (RandomResult.ReadIOPS (DiskResults.Random (Results.Disk results)))
                (of_Z 10000)
        then [ "Random I/O performance is low. NVMe SSD strongly recommended." ]
        else []) ++
       (if fltb (ECDSAResult.VerificationsPerSecond
                   (CPUResults.ECDSA (Results.CPU results))) (of_Z 500)
        then [ "ECDSA verification is slow. This may cause transaction validation delays." ]
        else []) ++
       (if fltb (BLSResult.VerificationsPerSecond
                   (CPUResults.BLS (Results.CPU results))) (of_Z 100)
        then [ "BLS signature verification is slow. Consensus layer may lag." ]
        else []))%list /\
    (forall score', 
        exists baseline,
          Recommendations (determineVerdict score' results) =
            (baseline ++ spec.conditional_advisories results)%list).
Proof.
  intros score results. split.
  - apply determineVerdict_appends.
  - intros score'. exists (spec.baseline_advisories score').
    apply determineVerdict_appends.
Qed.

(** C10.  Every verdict carries at least two advisories, the first two
    of them the baseline ones of its tier, and each role label is one of
    Ready, Marginal and Unsuitable. *)
Theorem determineVerdict_well_formed :
  forall (score : Z) (results : Results.t),
    let v := determineVerdict score results in
    (exists a b rest,
        Recommendations v = (a :: b :: rest)%list /\
        firstn 2 (spec.baseline_advisories score) = [a; b]) /\
    Recommendations v <> [] /\
    In (ExecutionClient v) spec.readiness_labels /\
    In (ConsensusClient v) spec.readiness_labels.
Proof.
  intros score results v. subst v.
  rewrite determineVerdict_appends.
  destruct (determineVerdict_labels score results) as [-> ->].
  unfold spec.baseline_advisories, spec.readiness_labels.
  destruct (Z.geb_spec score 80), (Z.leb_spec 80 score); try lia;
    destruct (Z.geb_spec score 60), (Z.leb_spec 60 score); try lia;
    destruct (Z.geb_spec score 40), (Z.leb_spec 40 score); try lia;
    (split; [eexists; eexists; eexists; split; reflexivity|]);
    (split; [discriminate|]); simpl; tauto.
Qed.

(** The machine that is excellent throughout scores 100 in every
    category and overall, is Ready for both roles and gets no conditional
    advisory. *)
Lemma excellent_machine :
  calculateSummary sample.excellent_results = Some (mkSummary 100 100 100 100) /\
  determineVerdict 100 sample.excellent_results =
    mkVerdict 100 "Ready" "Ready"
      [ "Your hardware meets Ethereum node requirements.";
        "Both Geth and Nimbus should run well on this system." ].
Proof. vm_compute. split; reflexivity. Qed.

(** The machine on which nothing was counted scores 0, is Unsuitable for
    the execution role and gets the three conditional advisories after
    the three baseline ones. *)
Lemma idle_machine :
  calculateSummary sample.idle_results = Some (mkSummary 0 0 0 0) /\
  determineVerdict 0 sample.idle_results =
    mkVerdict 0 "Unsuitable" "Marginal"
      [ "Hardware does not meet minimum requirements for execution client.";
        "Consider upgrading to NVMe storage.";
        "A more powerful single-board computer is recommended.";
        "Random I/O performance is low. NVMe SSD strongly recommended.";
        "ECDSA verification is slow. This may cause transaction validation delays.";
        "BLS signature verification is slow. Consensus layer may lag." ].
Proof. vm_compute. split; reflexivity. Qed.

(** ** Time budget *)

(** C7.  A CPU total of 60 s is split into exactly 15 s, 20 s, 15 s and
    10 s.  A total of 20 s is split by the same ratios with each quotient
    truncated: 5 s, 6666666666 ns, 5 s and 3333333333 ns, which add up
    to one nanosecond less than the total. *)
Theorem GetCPUTimeBudget_profiles :
  forall (mem disk : time.Duration) (dir : string) (verbose : bool),
    let full := benchmark.GetCPUTimeBudget
                  (benchmark.mkConfig (time.mul 60 time.Second) mem disk dir verbose) in
    let quick := benchmark.GetCPUTimeBudget
                   (benchmark.mkConfig (time.mul 20 time.Second) mem disk dir verbose) in
    full = benchmark.mkCPUTimeBudget (15 * time.Second) (20 * time.Second)
                                     (15 * time.Second) (10 * time.Second) /\
    quick = benchmark.mkCPUTimeBudget (5 * time.Second)
                                      (Z.quot (20 * time.Second * 20) 60)
                                      (5 * time.Second)
                                      (Z.quot (20 * time.Second * 10) 60) /\
    benchmark.ECDSA quick = 6666666666 /\
    benchmark.BN256 quick = 3333333333 /\
    benchmark.Keccak256 quick + benchmark.ECDSA quick +
    benchmark.BLS quick + benchmark.BN256 quick = 20 * time.Second - 1 /\
    benchmark.CPUDuration benchmark.DefaultConfig = 60 * time.Second /\
    benchmark.CPUDuration benchmark.QuickConfig = 20 * time.Second.
Proof. intros. vm_compute. repeat split; reflexivity. Qed.

(** ** Scorer *)

(** C3.  [scoreMetric] does not clamp: a negative value falls through to
    the last branch and the score is negative (-0.0005 for -1 on the
    Keccak curve), although the function is documented as giving a 0-100
    score. *)
Theorem scoreMetric_negative_value :
  let score := scoreMetric (of_Z (-1)) sample.poor sample.marginal
                           sample.good sample.excellent in
  score = of_Q (-0.0005) /\ fltb score zero = true /\ feqb score zero = false.
Proof. vm_compute. repeat split; reflexivity. Qed.

(** C4.  At its four breakpoints [scoreMetric] returns exactly 25, 50, 75
    and 100, for every strictly increasing tuple of positive binary64
    breakpoints. *)
Theorem scoreMetric_at_breakpoints :
  forall poor marginal good excellent : float64,
    valid poor = true -> valid marginal = true ->
    valid good = true -> valid excellent = true ->
    flt zero poor -> flt poor marginal -> flt marginal good -> flt good excellent ->
    scoreMetric poor poor marginal good excellent = of_Z 25 /\
    scoreMetric marginal poor marginal good excellent = of_Z 50 /\
    scoreMetric good poor marginal good excellent = of_Z 75 /\
    scoreMetric excellent poor marginal good excellent = of_Z 100.
Proof.
  intros poor marginal good excellent Vp Vm Vg Ve Hp Hpm Hmg Hge.
  assert (Fp : is_finite poor = true) by (eapply flt_between_finite; eauto).
  assert (Fm : is_finite marginal = true) by (eapply flt_between_finite; eauto).
  assert (Fg : is_finite good = true) by (eapply flt_between_finite; eauto).
  assert (Ne : is_nan excellent = false) by (apply (flt_not_nan _ _ Hge)).
  assert (Hpg : flt poor good) by (eapply flt_trans; eauto).
  assert (Hme : flt marginal excellent) by (eapply flt_trans; eauto).
  assert (Hpe : flt poor excellent) by (eapply flt_trans; eauto).
  assert (R : forall x, is_finite x = true -> fgeb x x = true).
  { intros x F. apply fle_refl. destruct x; try discriminate; reflexivity. }
  unfold scoreMetric. repeat split.
  - rewrite (flt_fgeb_false _ _ Hpe), (flt_fgeb_false _ _ Hpg),
      (flt_fgeb_false _ _ Hpm), (R poor Fp).
    rewrite (interpolate_left poor marginal Vp Vm Fp Hpm). vm_compute. reflexivity.
  - rewrite (flt_fgeb_false _ _ Hme), (flt_fgeb_false _ _ Hmg), (R marginal Fm).
    rewrite (interpolate_left marginal good Vm Vg Fm Hmg). vm_compute. reflexivity.
  - rewrite (flt_fgeb_false _ _ Hge), (R good Fg).
    rewrite (interpolate_left good excellent Vg Ve Fg Hge). vm_compute. reflexivity.
  - assert (E : fgeb excellent excellent = true) by (apply fle_refl; exact Ne).
    rewrite E. reflexivity.
Qed.

Lemma scoreMetric_at_breakpoints_witness :
  scoreMetric sample.poor sample.poor sample.marginal sample.good sample.excellent = of_Z 25 /\
  scoreMetric sample.marginal sample.poor sample.marginal sample.good sample.excellent = of_Z 50 /\
  scoreMetric sample.good sample.poor sample.marginal sample.good sample.excellent = of_Z 75 /\
  scoreMetric sample.excellent sample.poor sample.marginal sample.good sample.excellent = of_Z 100.
Proof.
  apply (scoreMetric_at_breakpoints sample.poor sample.marginal sample.good sample.excellent);
    vm_compute; reflexivity.
Defined.

(** With breakpoints near the top of the binary64 range the product
    [25 * (value - good)] overflows: the score of a value inside the
    band is +Inf, above the 100 of the values past it. *)
Lemma scoreMetric_overflow_not_monotone :
  let poor := of_Z 1 in
  let marginal := of_Z 2 in
  let good := of_Z 3 in
  let excellent := sample.huge in
  let v1 := sample.half_huge in
  let v2 := sample.huge in
  forallb valid [poor; marginal; good; excellent; v1; v2] = true /\
  fltb zero poor = true /\ fltb poor marginal = true /\
  fltb marginal good = true /\ fltb good excellent = true /\
  fltb v1 v2 = true /\
  scoreMetric v1 poor marginal good excellent = S754_infinity false /\
  scoreMetric v2 poor marginal good excellent = of_Z 100 /\
  fleb (scoreMetric v1 poor marginal good excellent)
       (scoreMetric v2 poor marginal good excellent) = false.
Proof. vm_compute. repeat split; reflexivity. Qed.

(** C5.  [scoreMetric] is monotone in its value: for binary64
    breakpoints with 0 < poor < marginal < good < excellent such that
    [25 * excellent] does not overflow, and binary64 values v1 < v2, the
    score of v1 is at most the score of v2. *)
Theorem scoreMetric_monotone :
  forall poor marginal good excellent v1 v2 : float64,
    valid poor = true -> valid marginal = true ->
    valid good = true -> valid excellent = true ->
    valid v1 = true -> valid v2 = true ->
    flt zero poor -> flt poor marginal -> flt marginal good -> flt good excellent ->
    is_finite (fmul (of_Z 25) excellent) = true ->
    flt v1 v2 ->
    fle (scoreMetric v1 poor marginal good excellent)
        (scoreMetric v2 poor marginal good excellent).
Proof.
  intros poor marginal good excellent v1 v2 Vp Vm Vg Ve V1 V2 Hp Hpm Hmg Hge H25 H.
  apply sc_monotone; assumption.
Qed.

Lemma scoreMetric_monotone_witness :
  fle (scoreMetric (of_Z 49999) sample.poor sample.marginal sample.good sample.excellent)
      (scoreMetric (of_Z 150000) sample.poor sample.marginal sample.good sample.excellent).
Proof.
  apply (scoreMetric_monotone sample.poor sample.marginal sample.good sample.excellent
                              (of_Z 49999) (of_Z 150000));
    vm_compute; reflexivity.
Defined.

End Program.

(** * Probes, runner and report *)

Import F64.
Import report.
Open Scope Z_scope.

Section Canonical.
Local Open Scope Q_scope.

Lemma mkfloat_valid (s : bool) (m k : Z) :
  (0 <= m <= 2 ^ 53)%Z -> (emin <= k)%Z -> (2 ^ 52 <= m \/ k = emin)%Z ->
  valid (mkfloat s m k) = true.
Proof.
  intros Hm Hk Hn. unfold mkfloat.
  destruct (Z.eqb_spec m 0) as [E0|N0]; [reflexivity|].
  destruct (Z.eqb_spec m (2 ^ 53)) as [E1|N1].
  - destruct (Z.leb_spec (k + 1) emax) as [L|L]; [|reflexivity].
    unfold valid.
    apply andb_true_iff; split; [apply andb_true_iff; split; [apply andb_true_iff; split|]|].
    + reflexivity.
    + apply Z.leb_le. lia.
    + apply Z.leb_le. lia.
    + reflexivity.
  - destruct (Z.leb_spec k emax) as [L|L]; [|reflexivity].
    unfold valid. rewrite Z2Pos.id by lia.
    apply andb_true_iff; split; [apply andb_true_iff; split; [apply andb_true_iff; split|]|].
    + apply Z.ltb_lt. lia.
    + apply Z.leb_le. lia.
    + apply Z.leb_le. lia.
    + apply orb_true_iff. destruct Hn as [Hn|Hn]; [left; apply Z.leb_le; lia | right; apply Z.eqb_eq; exact Hn].
Qed.

Lemma round_pos_valid (s : bool) (a : Q) : 0 < a -> valid (round_pos s a) = true.
Proof.
  intros Ha. unfold round_pos. apply mkfloat_valid.
  - apply mant_range; exact Ha.
  - apply ulp_exp_ge.
  - destruct (Z_le_gt_dec emin (ilog2 a - 52)) as [L|L].
    + left. apply mant_ge; assumption.
    + right. unfold ulp_exp. lia.
Qed.

Lemma round_valid (a : Q) : valid (round a) = true.
Proof.
  unfold round. destruct (Qcompare_spec a 0) as [E|E|E].
  - reflexivity.
  - apply round_pos_valid. lra.
  - apply round_pos_valid. exact E.
Qed.

Lemma fadd_valid (x y : float64) : valid (fadd x y) = true.
Proof.
  destruct x as [sx|sx| |sx mx ex], y as [sy|sy| |sy my ey]; simpl; try reflexivity;
    try apply round_valid.
  destruct (Bool.eqb sx sy); reflexivity.
Qed.

Lemma fmul_valid (x y : float64) : valid (fmul x y) = true.
Proof.
  destruct x as [sx|sx| |sx mx ex], y as [sy|sy| |sy my ey]; unfold fmul;
    try reflexivity;
    repeat match goal with |- context [if ?b then _ else _] => destruct b end;
    try reflexivity; apply round_valid.
Qed.

Lemma fdiv_valid (x y : float64) : valid (fdiv x y) = true.
Proof.
  destruct x as [sx|sx| |sx mx ex], y as [sy|sy| |sy my ey]; unfold fdiv;
    try reflexivity;
    repeat match goal with |- context [if ?b then _ else _] => destruct b end;
    try reflexivity; apply round_valid.
Qed.

Lemma of_Z_valid (n : Z) : valid (of_Z n) = true.
Proof. apply round_valid. Qed.

End Canonical.

Section Rates.
Local Open Scope Q_scope.

(** The least and an upper value of [Seconds] on a positive duration. *)
Lemma Seconds_bounds (d : time.Duration) :
  (0 < d < 2 ^ 63)%Z ->
  fle (fdiv (of_Z 1) (of_Z 1000000000)) (time.Seconds d) /\
  fle (time.Seconds d) (fadd (of_Z (2 ^ 63)) (of_Z 1)).
Proof.
  intros Hd. unfold time.Seconds.
  change time.Second with 1000000000%Z.
  set (sec := Z.quot d 1000000000). set (nsec := Z.rem d 1000000000).
  assert (S0 : (0 <= sec)%Z) by (apply Z.quot_pos; lia).
  assert (S1 : (sec <= 2 ^ 63)%Z).
  { subst sec. transitivity d; [|lia]. apply Z.quot_le_upper_bound; lia. }
  assert (N0 : (0 <= nsec < 1000000000)%Z).
  { subst nsec. apply (Z.rem_bound_pos d 1000000000); lia. }
  assert (E : d = (1000000000 * sec + nsec)%Z).
  { subst sec nsec. apply Z.quot_rem'. }
  assert (Fs : is_finite (of_Z sec) = true).
  { apply fle_between_finite with (of_Z 0) (of_Z (2 ^ 63));
      [vm_compute; reflexivity | vm_compute; reflexivity | apply of_Z_le; lia | apply of_Z_le; lia]. }
  assert (Fg : is_finite (of_Z 1000000000) = true) by (vm_compute; reflexivity).
  assert (Pg : 0 < F2Q (of_Z 1000000000)) by (vm_compute; reflexivity).
  assert (B0 : fle (fdiv (of_Z 0) (of_Z 1000000000)) (fdiv (of_Z nsec) (of_Z 1000000000)))
    by (apply fdiv_mono; auto; apply of_Z_le; lia).
  assert (B1 : fle (fdiv (of_Z nsec) (of_Z 1000000000)) (fdiv (of_Z 1000000000) (of_Z 1000000000)))
    by (apply fdiv_mono; auto; apply of_Z_le; lia).
  assert (Fb : is_finite (fdiv (of_Z nsec) (of_Z 1000000000)) = true).
  { eapply fle_between_finite; [| |exact B0|exact B1]; vm_compute; reflexivity. }
  split.
  - destruct (Z.eq_dec sec 0) as [Z|NZ].
    + assert (N1 : (1 <= nsec)%Z) by lia.
      rewrite Z.
      apply fle_trans with (fadd (of_Z 0) (fdiv (of_Z 1) (of_Z 1000000000)));
        [vm_compute; reflexivity|].
      apply fadd_mono_r; [vm_compute; reflexivity|].
      apply fdiv_mono; auto. apply of_Z_le; lia.
    + apply fle_trans with (fadd (of_Z 1) (fdiv (of_Z 0) (of_Z 1000000000)));
        [vm_compute; reflexivity|].
      apply fadd_mono; [vm_compute; reflexivity | exact Fs | apply of_Z_le; lia | exact B0].
  - apply fle_trans with (fadd (of_Z (2 ^ 63)) (fdiv (of_Z 1000000000) (of_Z 1000000000)));
      [|vm_compute; reflexivity].
    apply fadd_mono; [exact Fb | vm_compute; reflexivity | apply of_Z_le; lia | exact B1].
Qed.

Lemma Seconds_finite (d : time.Duration) :
  (0 < d < 2 ^ 63)%Z -> is_finite (time.Seconds d) = true.
Proof.
  intros Hd. destruct (Seconds_bounds d Hd) as [L U].
  eapply fle_between_finite; [| |exact L|exact U]; vm_compute; reflexivity.
Qed.

Lemma Seconds_lower (d : time.Duration) :
  (0 < d < 2 ^ 63)%Z -> 2 ^ (-30) <= F2Q (time.Seconds d).
Proof.
  intros Hd. destruct (Seconds_bounds d Hd) as [L _].
  apply (fle_fin _ _ (eq_refl : is_finite (fdiv (of_Z 1) (of_Z 1000000000)) = true)
                 (Seconds_finite d Hd)) in L.
  apply Qle_trans with (F2Q (fdiv (of_Z 1) (of_Z 1000000000))); [|exact L].
  vm_compute. discriminate.
Qed.

(** A count over a positive time is a finite, non-negative canonical
    float. *)
Lemma rate_ok (n : Z) (d : time.Duration) :
  (0 <= n <= 2 ^ 64)%Z -> (0 < d < 2 ^ 63)%Z ->
  let r := fdiv (of_Z n) (time.Seconds d) in
  valid r = true /\ is_finite r = true /\ fle zero r.
Proof.
  intros Hn Hd r.
  assert (Fs := Seconds_finite d Hd).
  assert (Ls := Seconds_lower d Hd).
  assert (Ps : 0 < F2Q (time.Seconds d)).
  { apply Qlt_le_trans with (2 ^ (-30)); [reflexivity|exact Ls]. }
  assert (Z0 : fle zero r).
  { replace zero with (fdiv (of_Z 0) (time.Seconds d)).
    - apply fdiv_mono; auto. apply of_Z_le; lia.
    - apply fdiv_zero_pos. apply Seconds_pos; exact Hd. }
  split; [apply fdiv_valid|]. split; [|exact Z0].
  assert (Fn : is_finite (of_Z n) = true).
  { apply fle_between_finite with (of_Z 0) (of_Z (2 ^ 64));
      [vm_compute; reflexivity | vm_compute; reflexivity | apply of_Z_le; lia | apply of_Z_le; lia]. }
  assert (Un : fle r (fdiv (of_Z (2 ^ 64)) (time.Seconds d))).
  { apply fdiv_mono; auto. apply of_Z_le; lia. }
  assert (Q : feqv (fdiv (of_Z (2 ^ 64)) (time.Seconds d))
                   (round (F2Q (of_Z (2 ^ 64)) / F2Q (time.Seconds d)))).
  { apply fdiv_fin; [vm_compute; reflexivity | exact Fs | apply pos_not_zero; assumption]. }
  assert (U : fle (round (F2Q (of_Z (2 ^ 64)) / F2Q (time.Seconds d))) (round (2 ^ 94))).
  { apply round_le.
    assert (E : F2Q (of_Z (2 ^ 64)) == 2 ^ 64) by (vm_compute; reflexivity).
    rewrite E.
    apply Qle_shift_div_r; [exact Ps|].
    apply Qle_trans with (2 ^ 94 * 2 ^ (-30)).
    - vm_compute. discriminate.
    - apply Qmult_le_l; [reflexivity | exact Ls]. }
  apply fle_between_finite with zero (round (2 ^ 94));
    [reflexivity | vm_compute; reflexivity | exact Z0 |].
  apply fle_trans with (fdiv (of_Z (2 ^ 64)) (time.Seconds d)); [exact Un|].
  apply fle_trans with (round (F2Q (of_Z (2 ^ 64)) / F2Q (time.Seconds d))); [apply Q | exact U].
Qed.

End Rates.

Section OrderMore.
Local Open Scope Q_scope.

Lemma fle_flt_trans (x y z : float64) : fle x y -> flt y z -> flt x z.
Proof.
  unfold flt, fle, fltb, fleb.
  float_cases x Hx; float_cases y Hy; float_cases z Hz; fin_simpl;
    try (simpl; intros; (discriminate || reflexivity)).
  destruct (Qcompare_spec (F2Q x) (F2Q y)); destruct (Qcompare_spec (F2Q y) (F2Q z));
    destruct (Qcompare_spec (F2Q x) (F2Q z)); intros; try reflexivity; try discriminate;
    exfalso; lra.
Qed.

Lemma fle_fgeb (x y : float64) : fle x y -> fgeb y x = true.
Proof. intros H. exact H. Qed.

Lemma fle_zero_sign (s : bool) (x : float64) : fle zero x -> fle (S754_zero s) x.
Proof. unfold fle, fleb. destruct x; simpl; auto. Qed.

Lemma fle_sign_zero (s : bool) (x : float64) : fle x zero -> fle x (S754_zero s).
Proof. unfold fle, fleb. destruct x; simpl; auto. Qed.

Lemma flt_zero_sign (s : bool) (x : float64) : flt zero x -> flt (S754_zero s) x.
Proof. unfold flt, fltb. destruct x; simpl; auto. Qed.

(** A finite value at or above zero is a zero or is positive. *)
Lemma nonneg_cases (x : float64) :
  fle zero x -> (exists s, x = S754_zero s) \/ flt zero x.
Proof.
  intros H. destruct x as [s|s| |s m e].
  - left. exists s. reflexivity.
  - right. destruct s; [discriminate H | reflexivity].
  - discriminate H.
  - right. unfold fle, fleb, fcompare in H. unfold flt, fltb, fcompare.
    destruct (Qcompare_spec (F2Q zero) (F2Q (S754_finite s m e))) as [E|E|E];
      try reflexivity; try discriminate H.
    exfalso. unfold F2Q in E.
    assert (P := pow2_pos e).
    assert (M : ~ (inject_Z (cond_Zopp s (Z.pos m)) == 0)).
    { destruct s; unfold Qeq; simpl; lia. }
    apply M. 
    assert (E' : inject_Z (cond_Zopp s (Z.pos m)) * 2 ^ e == 0) by (rewrite <- E; reflexivity).
    apply Qmult_integral in E'. destruct E' as [E'|E']; [exact E'|]. lra.
Qed.

End OrderMore.

Section Range.
Local Open Scope Q_scope.

Variables poor marginal good excellent : float64.
Hypothesis Vp : valid poor = true.
Hypothesis Vm : valid marginal = true.
Hypothesis Vg : valid good = true.
Hypothesis Ve : valid excellent = true.
Hypothesis Hp : flt zero poor.
Hypothesis Hpm : flt poor marginal.
Hypothesis Hmg : flt marginal good.
Hypothesis Hge : flt good excellent.
Hypothesis H25 : is_finite (fmul (of_Z 25) excellent) = true.

Let sc (v : float64) : float64 := scoreMetric v poor marginal good excellent.

Let Fp : is_finite poor = true := poor_finite poor marginal Hp Hpm.
Let Fm : is_finite marginal = true := marginal_finite poor marginal good Hpm Hmg.
Let Fg : is_finite good = true := good_finite marginal good excellent Hmg Hge.
Let Fe : is_finite excellent = true := excellent_finite good excellent Ve Hge H25.

Lemma sc_valid (v : float64) : valid (sc v) = true.
Proof.
  unfold sc, scoreMetric.
  repeat match goal with |- context [if ?b then _ else _] => destruct b end;
    auto using of_Z_valid, fadd_valid, fdiv_valid.
Qed.

Lemma sc_zero (s : bool) : sc (S754_zero s) = S754_zero s.
Proof.
  unfold sc.
  rewrite (sc_band5 poor marginal good excellent Hpm Hmg Hge _ (flt_zero_sign s poor Hp)).
  assert (M : fmul (of_Z 25) (S754_zero s) = S754_zero s)
    by (destruct s; vm_compute; reflexivity).
  rewrite M.
  assert (Zp := pos_not_zero poor Fp (flt_zero_pos poor Hp Fp)).
  destruct (pos_shape poor Fp (flt_zero_pos poor Hp Fp)) as [m [e E]].
  rewrite E in *. unfold fdiv. rewrite Zp. destruct s; reflexivity.
Qed.

Lemma sc_le_100 (v : float64) :
  valid v = true -> is_nan v = false -> fle (sc v) (of_Z 100).
Proof.
  intros V N. destruct (flt_not_nan _ _ Hge) as [_ Ne].
  destruct (fle_total excellent v Ne N) as [E|E].
  - unfold sc. rewrite (sc_band1 poor marginal good excellent v E). reflexivity.
  - apply sc_le_excellent; assumption.
Qed.

Lemma sc_nonneg (v : float64) : valid v = true -> fle zero v -> fle zero (sc v).
Proof.
  intros V H. destruct (nonneg_cases v H) as [[s ->]|P].
  - rewrite sc_zero. destruct s; reflexivity.
  - rewrite <- (sc_zero false) at 1.
    apply sc_monotone; auto.
Qed.

Lemma sc_finite (v : float64) : valid v = true -> fle zero v -> is_finite (sc v) = true.
Proof.
  intros V H. apply fle_between_finite with zero (of_Z 100);
    [reflexivity | reflexivity | apply sc_nonneg; assumption |].
  apply sc_le_100; [assumption|]. apply (fle_not_nan _ _ H).
Qed.

(** Monotone for [<=] as well: two values that compare equal are in the
    same band. *)
Lemma sc_monotone_le (v1 v2 : float64) :
  valid v1 = true -> valid v2 = true -> fle v1 v2 -> fle (sc v1) (sc v2).
Proof.
  intros V1 V2 L.
  destruct band_consts as [_ [_ [_ [Z25 [Z50 [Z75 [_ [_ [_ [F25 [F50 [F75 F100]]]]]]]]]]]].
  destruct (fle_not_nan _ _ L) as [N1 N2].
  destruct (flt_not_nan _ _ Hp) as [_ Np]. destruct (flt_not_nan _ _ Hpm) as [_ Nm].
  destruct (flt_not_nan _ _ Hmg) as [_ Ng]. destruct (flt_not_nan _ _ Hge) as [_ Ne].
  unfold sc.
  destruct (fle_total excellent v2 Ne N2) as [E2|E2].
  { rewrite (sc_band1 _ _ _ _ v2 E2). apply sc_le_100; assumption. }
  assert (E1 : flt v1 excellent) by (apply fle_flt_trans with v2; assumption).
  destruct (fle_total good v2 Ng N2) as [G2|G2].
  { destruct (fle_total good v1 Ng N1) as [G1|G1].
    - rewrite (sc_band2 _ _ _ _ v1 E1 G1), (sc_band2 _ _ _ _ v2 E2 G2).
      apply band_mono; auto. apply (good_nonneg poor marginal good); assumption.
    - apply fle_trans with (of_Z 75); [apply sc_le_good; assumption|].
      rewrite (sc_band2 _ _ _ _ v2 E2 G2), <- Z75 at 1.
      apply band_lower; auto. apply (good_nonneg poor marginal good); assumption. }
  assert (G1 : flt v1 good) by (apply fle_flt_trans with v2; assumption).
  destruct (fle_total marginal v2 Nm N2) as [M2|M2].
  { destruct (fle_total marginal v1 Nm N1) as [M1|M1].
    - rewrite (sc_band3 poor _ _ _ Hge v1 G1 M1), (sc_band3 poor _ _ _ Hge v2 G2 M2).
      apply band_mono; auto. apply (marginal_nonneg poor marginal); assumption.
    - apply fle_trans with (of_Z 50); [apply sc_le_marginal; assumption|].
      rewrite (sc_band3 poor _ _ _ Hge v2 G2 M2), <- Z50 at 1.
      apply band_lower; auto. apply (marginal_nonneg poor marginal); assumption. }
  assert (M1 : flt v1 marginal) by (apply fle_flt_trans with v2; assumption).
  destruct (fle_total poor v2 Np N2) as [P2|P2].
  { destruct (fle_total poor v1 Np N1) as [P1|P1].
    - rewrite (sc_band4 _ _ _ _ Hmg Hge v1 M1 P1), (sc_band4 _ _ _ _ Hmg Hge v2 M2 P2).
      apply band_mono; auto. apply flt_fle, Hp.
    - apply fle_trans with (of_Z 25); [apply sc_le_poor; assumption|].
      rewrite (sc_band4 _ _ _ _ Hmg Hge v2 M2 P2), <- Z25 at 1.
      apply band_lower; auto. apply flt_fle, Hp. }
  assert (P1 : flt v1 poor) by (apply fle_flt_trans with v2; assumption).
  rewrite (sc_band5 _ _ _ _ Hpm Hmg Hge v1 P1), (sc_band5 _ _ _ _ Hpm Hmg Hge v2 P2).
  apply low_mono; auto.
Qed.

End Range.

Section Categories.
Local Open Scope Q_scope.

Ltac calibrated :=
  unfold calibration; repeat match goal with |- _ /\ _ => split end;
  vm_compute; reflexivity.

Lemma keccak_curve : calibration (of_Z 50000) (of_Z 100000) (of_Z 200000) (of_Z 500000).
Proof. calibrated. Qed.
Lemma ecdsa_curve : calibration (of_Z 250) (of_Z 500) (of_Z 1000) (of_Z 2000).
Proof. calibrated. Qed.
Lemma bls_curve : calibration (of_Z 50) (of_Z 100) (of_Z 200) (of_Z 500).
Proof. calibrated. Qed.
Lemma bn256_curve : calibration (of_Z 10) (of_Z 25) (of_Z 50) (of_Z 100).
Proof. calibrated. Qed.
Lemma trie_curve : calibration (of_Z 5000) (of_Z 10000) (of_Z 20000) (of_Z 50000).
Proof. calibrated. Qed.
Lemma sequential_curve : calibration (of_Z 50) (of_Z 100) (of_Z 200) (of_Z 400).
Proof. calibrated. Qed.


Lemma score_scaled (p m g e v : float64) :
  calibration p m g e -> nonneg v -> scaled (scoreMetric v p m g e).
Proof.
  intros [Vp [Vm [Vg [Ve [Hp [Hpm [Hmg [Hge H25]]]]]]]] [V N]. split.
  - apply sc_nonneg; assumption.
  - apply sc_le_100; try assumption. apply (fle_not_nan _ _ N).
Qed.

Lemma score_mono (p m g e v v' : float64) :
  calibration p m g e -> valid v = true -> valid v' = true -> fle v v' ->
  fle (scoreMetric v p m g e) (scoreMetric v' p m g e).
Proof.
  intros [Vp [Vm [Vg [Ve [Hp [Hpm [Hmg [Hge H25]]]]]]]] V V' L.
  apply sc_monotone_le; assumption.
Qed.

Lemma fmul_zero_finite (w : float64) : is_finite w = true -> is_finite (fmul zero w) = true.
Proof. destruct w; simpl; intros; try discriminate; reflexivity. Qed.

(** One step of the accumulation [score += metricScore * weight]. *)
Lemma acc_range (w lo hi a s : float64) :
  is_finite w && fltb zero w && is_finite lo && is_finite hi
  && is_finite (fmul (of_Z 100) w) = true ->
  fle lo a -> fle a hi -> scaled s ->
  fle (fadd lo (fmul zero w)) (fadd a (fmul s w)) /\
  fle (fadd a (fmul s w)) (fadd hi (fmul (of_Z 100) w)).
Proof.
  intros C La Ha [S0 S1].
  apply andb_true_iff in C; destruct C as [C F100].
  apply andb_true_iff in C; destruct C as [C Fhi].
  apply andb_true_iff in C; destruct C as [C Flo].
  apply andb_true_iff in C; destruct C as [Fw Pw].
  assert (Qw : 0 < F2Q w) by (apply flt_zero_pos; assumption).
  assert (Fa : is_finite a = true) by (apply fle_between_finite with lo hi; assumption).
  assert (M0 : fle (fmul zero w) (fmul s w)) by (apply fmul_mono_l; assumption).
  assert (M1 : fle (fmul s w) (fmul (of_Z 100) w)) by (apply fmul_mono_l; assumption).
  assert (Fz : is_finite (fmul zero w) = true) by (apply fmul_zero_finite; assumption).
  assert (Fs : is_finite (fmul s w) = true)
    by (apply fle_between_finite with (fmul zero w) (fmul (of_Z 100) w); assumption).
  split; apply fadd_mono; assumption.
Qed.

Lemma acc_mono (w lo hi a a' s s' : float64) :
  is_finite w && fltb zero w && is_finite lo && is_finite hi
  && is_finite (fmul (of_Z 100) w) = true ->
  fle lo a -> fle a a' -> fle a' hi -> scaled s -> scaled s' -> fle s s' ->
  fle (fadd a (fmul s w)) (fadd a' (fmul s' w)).
Proof.
  intros C La Laa Ha [S0 S1] [S0' S1'] Ls.
  apply andb_true_iff in C; destruct C as [C F100].
  apply andb_true_iff in C; destruct C as [C Fhi].
  apply andb_true_iff in C; destruct C as [C Flo].
  apply andb_true_iff in C; destruct C as [Fw Pw].
  assert (Qw : 0 < F2Q w) by (apply flt_zero_pos; assumption).
  assert (Fa' : is_finite a' = true).
  { apply fle_between_finite with lo hi; try assumption. apply fle_trans with a; assumption. }
  assert (M0 : fle (fmul zero w) (fmul s w)) by (apply fmul_mono_l; assumption).
  assert (M1 : fle (fmul s w) (fmul (of_Z 100) w)) by (apply fmul_mono_l; assumption).
  assert (Fz : is_finite (fmul zero w) = true) by (apply fmul_zero_finite; assumption).
  assert (Fs : is_finite (fmul s w) = true)
    by (apply fle_between_finite with (fmul zero w) (fmul (of_Z 100) w); assumption).
  apply fadd_mono; try assumption. apply fmul_mono_l; assumption.
Qed.

Ltac acc_step w s L U S L' U' :=
  match type of L with
  | fle ?lo ?a =>
      match type of U with
      | fle _ ?hi =>
          destruct (acc_range w lo hi a s) as [L' U'];
          [ repeat (apply andb_true_iff; split); (assumption || reflexivity)
          | exact L | exact U | exact S | ]
      end
  end.

(** The sums of the three category scorers. *)
Lemma sum4_range (w1 w2 w3 w4 s1 s2 s3 s4 : float64) :
  (let lo1 := fadd zero (fmul zero w1) in
   let hi1 := fadd zero (fmul (of_Z 100) w1) in
   let lo2 := fadd lo1 (fmul zero w2) in
   let hi2 := fadd hi1 (fmul (of_Z 100) w2) in
   let lo3 := fadd lo2 (fmul zero w3) in
   let hi3 := fadd hi2 (fmul (of_Z 100) w3) in
   forallb (fun w => is_finite w && fltb zero w && is_finite (fmul (of_Z 100) w))
           [w1; w2; w3; w4]
   && forallb is_finite [lo1; hi1; lo2; hi2; lo3; hi3]
   && fleb zero (fadd lo3 (fmul zero w4))
   && fleb (fadd hi3 (fmul (of_Z 100) w4)) (of_Z 100)) = true ->
  scaled s1 -> scaled s2 -> scaled s3 -> scaled s4 ->
  scaled (fadd (fadd (fadd (fadd zero (fmul s1 w1)) (fmul s2 w2)) (fmul s3 w3)) (fmul s4 w4)).
Proof.
  cbv zeta. intros C S1 S2 S3 S4.
  repeat (apply andb_true_iff in C; let C' := fresh "C" in destruct C as [C C']).
  cbn [forallb] in *.
  repeat match goal with
         | H : _ && _ = true |- _ =>
             apply andb_true_iff in H; let H' := fresh "C" in destruct H as [H H']
         end.
  assert (L0 : fle zero zero) by reflexivity.
  assert (T : true = true -> is_finite zero = true) by reflexivity.
  acc_step w1 s1 L0 L0 S1 L1 U1.
  acc_step w2 s2 L1 U1 S2 L2 U2.
  acc_step w3 s3 L2 U2 S3 L3 U3.
  acc_step w4 s4 L3 U3 S4 L4 U4.
  split.
  - match type of L4 with fle ?lo _ => apply fle_trans with lo; [|exact L4] end.
    match goal with H : fleb zero _ = true |- _ => exact H end.
  - match type of U4 with fle _ ?hi => apply fle_trans with hi; [exact U4|] end.
    match goal with H : fleb _ (of_Z 100) = true |- _ => exact H end.
Qed.

Lemma sum3_range (w1 w2 w3 s1 s2 s3 : float64) :
  (let lo1 := fadd zero (fmul zero w1) in
   let hi1 := fadd zero (fmul (of_Z 100) w1) in
   let lo2 := fadd lo1 (fmul zero w2) in
   let hi2 := fadd hi1 (fmul (of_Z 100) w2) in
   forallb (fun w => is_finite w && fltb zero w && is_finite (fmul (of_Z 100) w))
           [w1; w2; w3]
   && forallb is_finite [lo1; hi1; lo2; hi2]
   && fleb zero (fadd lo2 (fmul zero w3))
   && fleb (fadd hi2 (fmul (of_Z 100) w3)) (of_Z 100)) = true ->
  scaled s1 -> scaled s2 -> scaled s3 ->
  scaled (fadd (fadd (fadd zero (fmul s1 w1)) (fmul s2 w2)) (fmul s3 w3)).
Proof.
  cbv zeta. intros C S1 S2 S3.
  repeat (apply andb_true_iff in C; let C' := fresh "C" in destruct C as [C C']).
  cbn [forallb] in *.
  repeat match goal with
         | H : _ && _ = true |- _ =>
             apply andb_true_iff in H; let H' := fresh "C" in destruct H as [H H']
         end.
  assert (L0 : fle zero zero) by reflexivity.
  acc_step w1 s1 L0 L0 S1 L1 U1.
  acc_step w2 s2 L1 U1 S2 L2 U2.
  acc_step w3 s3 L2 U2 S3 L3 U3.
  split.
  - match type of L3 with fle ?lo _ => apply fle_trans with lo; [|exact L3] end.
    match goal with H : fleb zero _ = true |- _ => exact H end.
  - match type of U3 with fle _ ?hi => apply fle_trans with hi; [exact U3|] end.
    match goal with H : fleb _ (of_Z 100) = true |- _ => exact H end.
Qed.

Ltac mono_step w s s' L U L' U' S S' Ls M M2 :=
  match type of L with
  | fle ?lo ?a =>
      match type of U' with
      | fle ?a' ?hi =>
          assert (M2 : fle (fadd a (fmul s w)) (fadd a' (fmul s' w)));
          [ apply (acc_mono w lo hi a a' s s');
            [ repeat (apply andb_true_iff; split); (assumption || reflexivity)
            | exact L | exact M | exact U' | exact S | exact S' | exact Ls ]
          | ]
      end
  end.

Lemma sum4_mono (w1 w2 w3 w4 s1 s2 s3 s4 s1' s2' s3' s4' : float64) :
  (let lo1 := fadd zero (fmul zero w1) in
   let hi1 := fadd zero (fmul (of_Z 100) w1) in
   let lo2 := fadd lo1 (fmul zero w2) in
   let hi2 := fadd hi1 (fmul (of_Z 100) w2) in
   let lo3 := fadd lo2 (fmul zero w3) in
   let hi3 := fadd hi2 (fmul (of_Z 100) w3) in
   forallb (fun w => is_finite w && fltb zero w && is_finite (fmul (of_Z 100) w))
           [w1; w2; w3; w4]
   && forallb is_finite [lo1; hi1; lo2; hi2; lo3; hi3]) = true ->
  scaled s1 -> scaled s2 -> scaled s3 -> scaled s4 ->
  scaled s1' -> scaled s2' -> scaled s3' -> scaled s4' ->
  fle s1 s1' -> fle s2 s2' -> fle s3 s3' -> fle s4 s4' ->
  fle (fadd (fadd (fadd (fadd zero (fmul s1 w1)) (fmul s2 w2)) (fmul s3 w3)) (fmul s4 w4))
      (fadd (fadd (fadd (fadd zero (fmul s1' w1)) (fmul s2' w2)) (fmul s3' w3)) (fmul s4' w4)).
Proof.
  cbv zeta. intros C S1 S2 S3 S4 S1' S2' S3' S4' E1 E2 E3 E4.
  repeat (apply andb_true_iff in C; let C' := fresh "C" in destruct C as [C C']).
  cbn [forallb] in *.
  repeat match goal with
         | H : _ && _ = true |- _ =>
             apply andb_true_iff in H; let H' := fresh "C" in destruct H as [H H']
         end.
  assert (L0 : fle zero zero) by reflexivity.
  acc_step w1 s1 L0 L0 S1 L1 U1.
  acc_step w1 s1' L0 L0 S1' L1' U1'.
  mono_step w1 s1 s1' L0 L0 L0 L0 S1 S1' E1 L0 M1.
  acc_step w2 s2 L1 U1 S2 L2 U2.
  acc_step w2 s2' L1' U1' S2' L2' U2'.
  mono_step w2 s2 s2' L1 U1 L1' U1' S2 S2' E2 M1 M2.
  acc_step w3 s3 L2 U2 S3 L3 U3.
  acc_step w3 s3' L2' U2' S3' L3' U3'.
  mono_step w3 s3 s3' L2 U2 L2' U2' S3 S3' E3 M2 M3.
  mono_step w4 s4 s4' L3 U3 L3' U3' S4 S4' E4 M3 M4.
  exact M4.
Qed.

Lemma sum3_mono (w1 w2 w3 s1 s2 s3 s1' s2' s3' : float64) :
  (let lo1 := fadd zero (fmul zero w1) in
   let hi1 := fadd zero (fmul (of_Z 100) w1) in
   let lo2 := fadd lo1 (fmul zero w2) in
   let hi2 := fadd hi1 (fmul (of_Z 100) w2) in
   forallb (fun w => is_finite w && fltb zero w && is_finite (fmul (of_Z 100) w))
           [w1; w2; w3]
   && forallb is_finite [lo1; hi1; lo2; hi2]) = true ->
  scaled s1 -> scaled s2 -> scaled s3 ->
  scaled s1' -> scaled s2' -> scaled s3' ->
  fle s1 s1' -> fle s2 s2' -> fle s3 s3' ->
  fle (fadd (fadd (fadd zero (fmul s1 w1)) (fmul s2 w2)) (fmul s3 w3))
      (fadd (fadd (fadd zero (fmul s1' w1)) (fmul s2' w2)) (fmul s3' w3)).
Proof.
  cbv zeta. intros C S1 S2 S3 S1' S2' S3' E1 E2 E3.
  repeat (apply andb_true_iff in C; let C' := fresh "C" in destruct C as [C C']).
  cbn [forallb] in *.
  repeat match goal with
         | H : _ && _ = true |- _ =>
             apply andb_true_iff in H; let H' := fresh "C" in destruct H as [H H']
         end.
  assert (L0 : fle zero zero) by reflexivity.
  acc_step w1 s1 L0 L0 S1 L1 U1.
  acc_step w1 s1' L0 L0 S1' L1' U1'.
  mono_step w1 s1 s1' L0 L0 L0 L0 S1 S1' E1 L0 M1.
  acc_step w2 s2 L1 U1 S2 L2 U2.
  acc_step w2 s2' L1' U1' S2' L2' U2'.
  mono_step w2 s2 s2' L1 U1 L1' U1' S2 S2' E2 M1 M2.
  mono_step w3 s3 s3' L2 U2 L2' U2' S3 S3' E3 M2 M3.
  exact M3.
Qed.

(** The conversion to [int] of a sum within the scale. *)
Lemma to_int_scaled (x : float64) :
  scaled x -> to_int x = Some (floor x) /\ (0 <= floor x <= 100)%Z.
Proof.
  intros [L U].
  assert (F : is_finite x = true)
    by (apply fle_between_finite with zero (of_Z 100); auto).
  assert (Q0 : 0 <= F2Q x) by (apply (fle_fin zero x eq_refl F) in L; exact L).
  assert (Q1 : F2Q x <= 100).
  { apply (fle_fin x (of_Z 100) F eq_refl) in U.
    apply Qle_trans with (F2Q (of_Z 100)); [exact U|]. vm_compute. discriminate. }
  split.
  - apply to_int_nonneg; auto. apply Qle_lt_trans with 100; [exact Q1|reflexivity].
  - unfold floor. split.
    + change 0%Z with (Qfloor 0). apply Qfloor_resp_le. exact Q0.
    + change 100%Z with (Qfloor 100). apply Qfloor_resp_le. exact Q1.
Qed.

Lemma floor_mono (x y : float64) :
  is_finite x = true -> is_finite y = true -> fle x y -> (floor x <= floor y)%Z.
Proof.
  intros Fx Fy L. apply (fle_fin x y Fx Fy) in L. apply Qfloor_resp_le. exact L.
Qed.

Lemma scaled_finite (x : float64) : scaled x -> is_finite x = true.
Proof. intros [L U]. apply fle_between_finite with zero (of_Z 100); auto. Qed.

End Categories.

Section Scores.
Local Open Scope Q_scope.

Lemma nonneg_fadd (x y : float64) : nonneg x -> nonneg y -> nonneg (fadd x y).
Proof.
  intros [_ Hx] [_ Hy]. split; [apply fadd_valid|].
  destruct (fle_not_nan _ _ Hx) as [_ Nx]. destruct (fle_not_nan _ _ Hy) as [_ Ny].
  float_cases x Fx; try discriminate; float_cases y Fy; try discriminate;
    try reflexivity.
  - rewrite fadd_inf_fin by assumption. reflexivity.
  - rewrite fadd_fin_inf by assumption. reflexivity.
  - change zero with (fadd zero zero). apply fadd_mono; auto.
Qed.

Lemma fadd_mono_nonneg (x x' y y' : float64) :
  nonneg x -> nonneg y -> fle x x' -> fle y y' -> fle (fadd x y) (fadd x' y').
Proof.
  intros Nx Ny Lx Ly.
  destruct (nonneg_fadd x y Nx Ny) as [_ S].
  destruct (fle_not_nan _ _ S) as [_ NS].
  destruct Nx as [_ Hx]. destruct Ny as [_ Hy].
  assert (Hx' : fle zero x') by (apply fle_trans with x; assumption).
  assert (Hy' : fle zero y') by (apply fle_trans with y; assumption).
  float_cases x' Fx'; try discriminate; float_cases y' Fy'; try discriminate.
  - apply fle_pinf; assumption.
  - rewrite fadd_inf_fin by assumption. apply fle_pinf; assumption.
  - rewrite fadd_fin_inf by assumption. apply fle_pinf; assumption.
  - apply fadd_mono; auto.
    apply fle_between_finite with zero y'; auto.
Qed.

Lemma nonneg_half (x : float64) : nonneg x -> nonneg (fdiv x (of_Z 2)).
Proof.
  intros [_ Hx]. split; [apply fdiv_valid|].
  change zero with (fdiv zero (of_Z 2)).
  apply fdiv_mono; [reflexivity | reflexivity | exact Hx].
Qed.

Lemma half_mono (x x' : float64) : fle x x' -> fle (fdiv x (of_Z 2)) (fdiv x' (of_Z 2)).
Proof. intros H. apply fdiv_mono; [reflexivity | reflexivity | exact H]. Qed.

(** The float each category scorer converts to [int]. *)
Let cpu_sum (cpu : CPUResults.t) : float64 :=
  fadd (fadd (fadd (fadd zero
    (fmul (scoreMetric (KeccakResult.HashesPerSecond (CPUResults.Keccak cpu))
             (of_Z 50000) (of_Z 100000) (of_Z 200000) (of_Z 500000)) (of_Q 0.25)))
    (fmul (scoreMetric (ECDSAResult.VerificationsPerSecond (CPUResults.ECDSA cpu))
             (of_Z 250) (of_Z 500) (of_Z 1000) (of_Z 2000)) (of_Q 0.35)))
    (fmul (scoreMetric (BLSResult.VerificationsPerSecond (CPUResults.BLS cpu))
             (of_Z 50) (of_Z 100) (of_Z 200) (of_Z 500)) (of_Q 0.25)))
    (fmul (scoreMetric (BN256Result.PairingsPerSecond (CPUResults.BN256 cpu))
             (of_Z 10) (of_Z 25) (of_Z 50) (of_Z 100)) (of_Q 0.15)).

Let memory_sum (mem : MemoryResults.t) : float64 :=
  fadd (fadd (fadd zero
    (fmul (scoreMetric (TrieResult.InsertsPerSecond (MemoryResults.Trie mem))
             (of_Z 5000) (of_Z 10000) (of_Z 20000) (of_Z 50000)) (of_Q 0.40)))
    (fmul (scoreMetric
             (fadd (PoolResult.AllocationsPerSecond (MemoryResults.Pool mem))
                   (PoolResult.ReusesPerSecond (MemoryResults.Pool mem)))
             (of_Z 50000) (of_Z 100000) (of_Z 200000) (of_Z 500000)) (of_Q 0.30)))
    (fmul (scoreMetric
             (StateCacheResult.CacheHitsPerSecond (MemoryResults.StateCache mem))
             (of_Z 50000) (of_Z 100000) (of_Z 200000) (of_Z 500000)) (of_Q 0.30)).

Let disk_sum (disk : DiskResults.t) : float64 :=
  fadd (fadd (fadd zero
    (fmul (scoreMetric
             (fdiv (fadd (SequentialResult.WriteSpeedMBps (DiskResults.Sequential disk))
                         (SequentialResult.ReadSpeedMBps (DiskResults.Sequential disk)))
                   (of_Z 2))
             (of_Z 50) (of_Z 100) (of_Z 200) (of_Z 400)) (of_Q 0.30)))
    (fmul (scoreMetric
             (fdiv (fadd (RandomResult.ReadIOPS (DiskResults.Random disk))
                         (RandomResult.WriteIOPS (DiskResults.Random disk)))
                   (of_Z 2))
             (of_Z 5000) (of_Z 10000) (of_Z 20000) (of_Z 50000)) (of_Q 0.45)))
    (fmul (scoreMetric (BatchResult.ThroughputMBps (DiskResults.Batch disk))
             (of_Z 10) (of_Z 25) (of_Z 50) (of_Z 100)) (of_Q 0.25)).

Lemma calculateCPUScore_sum (cpu : CPUResults.t) :
  calculateCPUScore cpu = to_int (cpu_sum cpu).
Proof. reflexivity. Qed.

Lemma calculateMemoryScore_sum (mem : MemoryResults.t) :
  calculateMemoryScore mem = to_int (memory_sum mem).
Proof. reflexivity. Qed.

Lemma calculateDiskScore_sum (disk : DiskResults.t) :
  calculateDiskScore disk = to_int (disk_sum disk).
Proof. reflexivity. Qed.

Ltac metrics H :=
  unfold spec.scored_metrics, spec.cpu_metrics, spec.memory_metrics, spec.disk_metrics in H;
  cbn [app] in H;
  repeat match type of H with
         | Forall _ (_ :: _) =>
             let A := fresh "N" in
             let B := fresh "H" in
             inversion H as [|? ? A B]; subst; clear H; rename B into H
         | Forall2 _ (_ :: _) (_ :: _) =>
             let A := fresh "L" in
             let B := fresh "H" in
             inversion H as [|? ? ? ? A B]; subst; clear H; rename B into H
         end.

Ltac is_valid :=
  match goal with
  | H : nonneg ?x |- valid ?x = true => exact (proj1 H)
  | |- valid (fadd _ _) = true => apply fadd_valid
  | |- valid (fdiv _ _) = true => apply fdiv_valid
  end.

Ltac is_nonneg :=
  match goal with
  | H : nonneg ?x |- nonneg ?x => exact H
  | |- nonneg (fdiv _ (of_Z 2)) => apply nonneg_half; is_nonneg
  | |- nonneg (fadd _ _) => apply nonneg_fadd; is_nonneg
  end.

Ltac is_le :=
  match goal with
  | H : fle ?x ?y |- fle ?x ?y => exact H
  | |- fle (fdiv _ (of_Z 2)) (fdiv _ (of_Z 2)) => apply half_mono; is_le
  | |- fle (fadd _ _) (fadd _ _) => apply fadd_mono_nonneg; [is_nonneg | is_nonneg | is_le | is_le]
  end.

Ltac in_scale c := apply score_scaled; [exact c | is_nonneg].
Ltac grows c := apply score_mono; [exact c | is_valid | is_valid | is_le].

Lemma cpu_sum_scaled (cpu : CPUResults.t) :
  Forall nonneg (spec.cpu_metrics cpu) -> scaled (cpu_sum cpu).
Proof.
  intros H. metrics H. unfold cpu_sum.
  apply sum4_range;
    [ vm_compute; reflexivity | in_scale keccak_curve | in_scale ecdsa_curve
    | in_scale bls_curve | in_scale bn256_curve ].
Qed.

Lemma memory_sum_scaled (mem : MemoryResults.t) :
  Forall nonneg (spec.memory_metrics mem) -> scaled (memory_sum mem).
Proof.
  intros H. metrics H. unfold memory_sum.
  apply sum3_range;
    [ vm_compute; reflexivity | in_scale trie_curve | in_scale keccak_curve
    | in_scale keccak_curve ].
Qed.

Lemma disk_sum_scaled (disk : DiskResults.t) :
  Forall nonneg (spec.disk_metrics disk) -> scaled (disk_sum disk).
Proof.
  intros H. metrics H. unfold disk_sum.
  apply sum3_range;
    [ vm_compute; reflexivity | in_scale sequential_curve | in_scale trie_curve
    | in_scale bn256_curve ].
Qed.

Lemma cpu_sum_mono (c1 c2 : CPUResults.t) :
  Forall nonneg (spec.cpu_metrics c1) -> Forall nonneg (spec.cpu_metrics c2) ->
  Forall2 fle (spec.cpu_metrics c1) (spec.cpu_metrics c2) ->
  fle (cpu_sum c1) (cpu_sum c2).
Proof.
  intros H1 H2 L. metrics H1. metrics H2. metrics L. unfold cpu_sum.
  apply sum4_mono;
    [ vm_compute; reflexivity
    | in_scale keccak_curve | in_scale ecdsa_curve | in_scale bls_curve | in_scale bn256_curve
    | in_scale keccak_curve | in_scale ecdsa_curve | in_scale bls_curve | in_scale bn256_curve
    | grows keccak_curve | grows ecdsa_curve | grows bls_curve | grows bn256_curve ].
Qed.

Lemma memory_sum_mono (m1 m2 : MemoryResults.t) :
  Forall nonneg (spec.memory_metrics m1) -> Forall nonneg (spec.memory_metrics m2) ->
  Forall2 fle (spec.memory_metrics m1) (spec.memory_metrics m2) ->
  fle (memory_sum m1) (memory_sum m2).
Proof.
  intros H1 H2 L. metrics H1. metrics H2. metrics L. unfold memory_sum.
  apply sum3_mono;
    [ vm_compute; reflexivity
    | in_scale trie_curve | in_scale keccak_curve | in_scale keccak_curve
    | in_scale trie_curve | in_scale keccak_curve | in_scale keccak_curve
    | grows trie_curve | grows keccak_curve | grows keccak_curve ].
Qed.

Lemma disk_sum_mono (d1 d2 : DiskResults.t) :
  Forall nonneg (spec.disk_metrics d1) -> Forall nonneg (spec.disk_metrics d2) ->
  Forall2 fle (spec.disk_metrics d1) (spec.disk_metrics d2) ->
  fle (disk_sum d1) (disk_sum d2).
Proof.
  intros H1 H2 L. metrics H1. metrics H2. metrics L. unfold disk_sum.
  apply sum3_mono;
    [ vm_compute; reflexivity
    | in_scale sequential_curve | in_scale trie_curve | in_scale bn256_curve
    | in_scale sequential_curve | in_scale trie_curve | in_scale bn256_curve
    | grows sequential_curve | grows trie_curve | grows bn256_curve ].
Qed.


Lemma weightedTotal_mono (c m d c' m' d' : Z) :
  (0 <= c <= c')%Z -> (c' <= 100)%Z -> (0 <= m <= m')%Z -> (m' <= 100)%Z ->
  (0 <= d <= d')%Z -> (d' <= 100)%Z ->
  fle (weightedTotal c m d) (weightedTotal c' m' d').
Proof.
  intros Hc Hc' Hm Hm' Hd Hd'. unfold weightedTotal.
  destruct weight_consts as [[F40 P40] [[F35 P35] [F25 P25]]].
  destruct (weight_bounds (of_Q 0.40) c' F40 P40 ltac:(lia)) as [C1 C2].
  destruct (weight_bounds (of_Q 0.35) d F35 P35 ltac:(lia)) as [D1 D2].
  destruct (weight_bounds (of_Q 0.35) d' F35 P35 ltac:(lia)) as [D1' D2'].
  destruct (weight_bounds (of_Q 0.25) m F25 P25 ltac:(lia)) as [M1 M2].
  assert (FC' : is_finite (fmul (of_Z c') (of_Q 0.40)) = true)
    by (eapply fle_between_finite; [| |exact C1|exact C2]; fcompute).
  assert (FD : is_finite (fmul (of_Z d) (of_Q 0.35)) = true)
    by (eapply fle_between_finite; [| |exact D1|exact D2]; fcompute).
  assert (FD' : is_finite (fmul (of_Z d') (of_Q 0.35)) = true)
    by (eapply fle_between_finite; [| |exact D1'|exact D2']; fcompute).
  assert (FM : is_finite (fmul (of_Z m) (of_Q 0.25)) = true)
    by (eapply fle_between_finite; [| |exact M1|exact M2]; fcompute).
  assert (S1 : fle (fadd (fmul (of_Z 0) (of_Q 0.40)) (fmul (of_Z 0) (of_Q 0.35)))
                   (fadd (fmul (of_Z c') (of_Q 0.40)) (fmul (of_Z d') (of_Q 0.35))))
    by (apply fadd_mono; [fcompute | exact FC' | exact C1 | exact D1']).
  assert (S2 : fle (fadd (fmul (of_Z c') (of_Q 0.40)) (fmul (of_Z d') (of_Q 0.35)))
                   (fadd (fmul (of_Z 100) (of_Q 0.40)) (fmul (of_Z 100) (of_Q 0.35))))
    by (apply fadd_mono; [exact FD' | fcompute | exact C2 | exact D2']).
  assert (FS : is_finite (fadd (fmul (of_Z c') (of_Q 0.40)) (fmul (of_Z d') (of_Q 0.35))) = true)
    by (eapply fle_between_finite; [| |exact S1|exact S2]; fcompute).
  apply fadd_mono; [exact FM | exact FS | |].
  - apply fadd_mono; [exact FD | exact FC' | |];
      apply fmul_mono_l; auto; apply of_Z_le; lia.
  - apply fmul_mono_l; auto; apply of_Z_le; lia.
Qed.

Lemma totalScore_mono (c m d c' m' d' : Z) :
  (0 <= c <= c')%Z -> (c' <= 100)%Z -> (0 <= m <= m')%Z -> (m' <= 100)%Z ->
  (0 <= d <= d')%Z -> (d' <= 100)%Z ->
  exists t t' : Z,
    totalScore c m d = Some t /\ totalScore c' m' d' = Some t' /\
    (0 <= t <= t')%Z /\ (t' <= 100)%Z.
Proof.
  intros Hc Hc' Hm Hm' Hd Hd'.
  destruct (totalScore_floor c m d) as [E [L U]]; try lia.
  destruct (totalScore_floor c' m' d') as [E' [L' U']]; try lia.
  destruct (weightedTotal_range c m d) as [F _]; try lia.
  destruct (weightedTotal_range c' m' d') as [F' _]; try lia.
  exists (floor (weightedTotal c m d)), (floor (weightedTotal c' m' d')).
  repeat split; auto.
  apply floor_mono; auto. apply weightedTotal_mono; assumption.
Qed.

(** What each category scorer returns on metrics that are numbers and
    not negative. *)
Lemma cpu_score_scaled (cpu : CPUResults.t) :
  Forall nonneg (spec.cpu_metrics cpu) ->
  calculateCPUScore cpu = Some (floor (cpu_sum cpu)) /\
  (0 <= floor (cpu_sum cpu) <= 100)%Z.
Proof. intros H. rewrite calculateCPUScore_sum. apply to_int_scaled, cpu_sum_scaled, H. Qed.

Lemma memory_score_scaled (mem : MemoryResults.t) :
  Forall nonneg (spec.memory_metrics mem) ->
  calculateMemoryScore mem = Some (floor (memory_sum mem)) /\
  (0 <= floor (memory_sum mem) <= 100)%Z.
Proof.
  intros H. rewrite calculateMemoryScore_sum. apply to_int_scaled, memory_sum_scaled, H.
Qed.

Lemma disk_score_scaled (disk : DiskResults.t) :
  Forall nonneg (spec.disk_metrics disk) ->
  calculateDiskScore disk = Some (floor (disk_sum disk)) /\
  (0 <= floor (disk_sum disk) <= 100)%Z.
Proof. intros H. rewrite calculateDiskScore_sum. apply to_int_scaled, disk_sum_scaled, H. Qed.

Lemma scored_metrics_split (P : float64 -> Prop) (results : Results.t) :
  Forall P (spec.scored_metrics results) ->
  Forall P (spec.cpu_metrics (Results.CPU results)) /\
  Forall P (spec.memory_metrics (Results.Memory results)) /\
  Forall P (spec.disk_metrics (Results.Disk results)).
Proof.
  unfold spec.scored_metrics. intros H.
  apply Forall_app in H. destruct H as [H1 H]. apply Forall_app in H. tauto.
Qed.

Lemma scored_metrics_split2 (R : float64 -> float64 -> Prop) (r1 r2 : Results.t) :
  Forall2 R (spec.scored_metrics r1) (spec.scored_metrics r2) ->
  Forall2 R (spec.cpu_metrics (Results.CPU r1)) (spec.cpu_metrics (Results.CPU r2)) /\
  Forall2 R (spec.memory_metrics (Results.Memory r1))
            (spec.memory_metrics (Results.Memory r2)) /\
  Forall2 R (spec.disk_metrics (Results.Disk r1)) (spec.disk_metrics (Results.Disk r2)).
Proof.
  intros H. metrics H.
  repeat split; unfold spec.cpu_metrics, spec.memory_metrics, spec.disk_metrics;
    repeat constructor; assumption.
Qed.

Lemma summary_scaled (results : Results.t) :
  Forall nonneg (spec.scored_metrics results) ->
  exists s : Summary,
    calculateSummary results = Some s /\
    CPUScore s = floor (cpu_sum (Results.CPU results)) /\
    MemoryScore s = floor (memory_sum (Results.Memory results)) /\
    DiskScore s = floor (disk_sum (Results.Disk results)) /\
    totalScore (CPUScore s) (MemoryScore s) (DiskScore s) = Some (TotalScore s) /\
    (0 <= CPUScore s <= 100)%Z /\ (0 <= MemoryScore s <= 100)%Z /\
    (0 <= DiskScore s <= 100)%Z /\ (0 <= TotalScore s <= 100)%Z.
Proof.
  intros H. destruct (scored_metrics_split _ _ H) as (Hc & Hm & Hd).
  destruct (cpu_score_scaled _ Hc) as [Ec Rc].
  destruct (memory_score_scaled _ Hm) as [Em Rm].
  destruct (disk_score_scaled _ Hd) as [Ed Rd].
  destruct (totalScore_floor _ _ _ Rc Rm Rd) as [Et Rt].
  eexists. unfold calculateSummary. rewrite Ec, Em, Ed, Et.
  split; [reflexivity|]. cbn [CPUScore MemoryScore DiskScore TotalScore].
  repeat split; auto; lia.
Qed.


Ltac sample_metrics :=
  unfold spec.scored_metrics, spec.cpu_metrics, spec.memory_metrics, spec.disk_metrics;
  cbn [app];
  repeat first [ apply Forall_cons | apply Forall_nil | apply Forall2_cons | apply Forall2_nil ];
  try (unfold nonneg; split); vm_compute; reflexivity.

(** X1.  On a calibration curve the score of a metric that is a number
    and is not negative lies within the scale: it is at least 0 and at
    most 100. *)
Theorem scoreMetric_within_scale :
  forall poor marginal good excellent value : float64,
    calibration poor marginal good excellent -> nonneg value ->
    scaled (scoreMetric value poor marginal good excellent).
Proof. intros p m g e v C N. apply score_scaled; assumption. Qed.

Lemma scoreMetric_within_scale_witness :
  scaled (scoreMetric (of_Z 150000) sample.poor sample.marginal sample.good sample.excellent).
Proof.
  apply scoreMetric_within_scale.
  - unfold calibration; repeat match goal with |- _ /\ _ => split end;
      vm_compute; reflexivity.
  - split; vm_compute; reflexivity.
Defined.

(** X2.  When the four CPU metrics are numbers and not negative, the CPU
    score is defined and lies in [0,100]. *)
Theorem calculateCPUScore_within_scale :
  forall cpu : CPUResults.t,
    Forall nonneg (spec.cpu_metrics cpu) ->
    exists n : Z, calculateCPUScore cpu = Some n /\ (0 <= n <= 100)%Z.
Proof. intros cpu H. eexists. apply cpu_score_scaled, H. Qed.

Lemma calculateCPUScore_within_scale_witness :
  exists n : Z,
    calculateCPUScore (Results.CPU sample.excellent_results) = Some n /\ (0 <= n <= 100)%Z.
Proof. apply calculateCPUScore_within_scale. sample_metrics. Defined.

(** X3.  When the four memory metrics are numbers and not negative, the
    memory score is defined and lies in [0,100]. *)
Theorem calculateMemoryScore_within_scale :
  forall mem : MemoryResults.t,
    Forall nonneg (spec.memory_metrics mem) ->
    exists n : Z, calculateMemoryScore mem = Some n /\ (0 <= n <= 100)%Z.
Proof. intros mem H. eexists. apply memory_score_scaled, H. Qed.

Lemma calculateMemoryScore_within_scale_witness :
  exists n : Z,
    calculateMemoryScore (Results.Memory sample.excellent_results) = Some n /\
    (0 <= n <= 100)%Z.
Proof. apply calculateMemoryScore_within_scale. sample_metrics. Defined.

(** X4.  When the five disk metrics are numbers and not negative, the
    disk score is defined and lies in [0,100]. *)
Theorem calculateDiskScore_within_scale :
  forall disk : DiskResults.t,
    Forall nonneg (spec.disk_metrics disk) ->
    exists n : Z, calculateDiskScore disk = Some n /\ (0 <= n <= 100)%Z.
Proof. intros disk H. eexists. apply disk_score_scaled, H. Qed.

Lemma calculateDiskScore_within_scale_witness :
  exists n : Z,
    calculateDiskScore (Results.Disk sample.excellent_results) = Some n /\
    (0 <= n <= 100)%Z.
Proof. apply calculateDiskScore_within_scale. sample_metrics. Defined.

(** X5.  When all the scored metrics are numbers and not negative, the
    summary is defined and its four scores lie in [0,100]. *)
Theorem calculateSummary_within_scale :
  forall results : Results.t,
    Forall nonneg (spec.scored_metrics results) ->
    exists s : Summary,
      calculateSummary results = Some s /\
      (0 <= CPUScore s <= 100)%Z /\ (0 <= MemoryScore s <= 100)%Z /\
      (0 <= DiskScore s <= 100)%Z /\ (0 <= TotalScore s <= 100)%Z.
Proof.
  intros results H.
  destruct (summary_scaled results H) as (s & E & _ & _ & _ & _ & R).
  exists s. split; [exact E | exact R].
Qed.

Lemma calculateSummary_within_scale_witness :
  exists s : Summary,
    calculateSummary sample.rounding_results = Some s /\
    (0 <= CPUScore s <= 100)%Z /\ (0 <= MemoryScore s <= 100)%Z /\
    (0 <= DiskScore s <= 100)%Z /\ (0 <= TotalScore s <= 100)%Z.
Proof. apply calculateSummary_within_scale. sample_metrics. Defined.

(** X6.  The summary is monotone: of two machines whose scored metrics
    are numbers and not negative, the one that is at least as fast on
    every metric gets scores at least as high, in each category and
    overall. *)
Theorem calculateSummary_monotone :
  forall r1 r2 : Results.t,
    Forall nonneg (spec.scored_metrics r1) ->
    Forall nonneg (spec.scored_metrics r2) ->
    Forall2 fle (spec.scored_metrics r1) (spec.scored_metrics r2) ->
    exists s1 s2 : Summary,
      calculateSummary r1 = Some s1 /\ calculateSummary r2 = Some s2 /\
      (CPUScore s1 <= CPUScore s2)%Z /\ (MemoryScore s1 <= MemoryScore s2)%Z /\
      (DiskScore s1 <= DiskScore s2)%Z /\ (TotalScore s1 <= TotalScore s2)%Z.
Proof.
  intros r1 r2 H1 H2 L.
  destruct (summary_scaled r1 H1) as (s1 & E1 & C1 & M1 & D1 & T1 & Rc1 & Rm1 & Rd1 & Rt1).
  destruct (summary_scaled r2 H2) as (s2 & E2 & C2 & M2 & D2 & T2 & Rc2 & Rm2 & Rd2 & Rt2).
  destruct (scored_metrics_split _ _ H1) as (Hc1 & Hm1 & Hd1).
  destruct (scored_metrics_split _ _ H2) as (Hc2 & Hm2 & Hd2).
  destruct (scored_metrics_split2 _ _ _ L) as (Lc & Lm & Ld).
  assert (C : (CPUScore s1 <= CPUScore s2)%Z).
  { rewrite C1, C2.
    apply floor_mono; auto using scaled_finite, cpu_sum_scaled, cpu_sum_mono. }
  assert (M : (MemoryScore s1 <= MemoryScore s2)%Z).
  { rewrite M1, M2.
    apply floor_mono; auto using scaled_finite, memory_sum_scaled, memory_sum_mono. }
  assert (D : (DiskScore s1 <= DiskScore s2)%Z).
  { rewrite D1, D2.
    apply floor_mono; auto using scaled_finite, disk_sum_scaled, disk_sum_mono. }
  exists s1, s2. repeat split; auto.
  destruct (totalScore_mono (CPUScore s1) (MemoryScore s1) (DiskScore s1)
                            (CPUScore s2) (MemoryScore s2) (DiskScore s2))
    as (t & t' & Et & Et' & Lt & _); try lia.
  rewrite T1 in Et. rewrite T2 in Et'.
  injection Et as <-. injection Et' as <-. lia.
Qed.

Lemma calculateSummary_monotone_witness :
  exists s1 s2 : Summary,
    calculateSummary sample.idle_results = Some s1 /\
    calculateSummary sample.excellent_results = Some s2 /\
    (CPUScore s1 <= CPUScore s2)%Z /\ (MemoryScore s1 <= MemoryScore s2)%Z /\
    (DiskScore s1 <= DiskScore s2)%Z /\ (TotalScore s1 <= TotalScore s2)%Z.
Proof. apply calculateSummary_monotone; sample_metrics. Defined.

End Scores.

Section NotANumber.

Lemma is_nan_eq (x : float64) : is_nan x = true -> x = S754_nan.
Proof. destruct x; simpl; intros; try discriminate; reflexivity. Qed.

Lemma scoreMetric_nan (p m g e : float64) : scoreMetric S754_nan p m g e = S754_nan.
Proof.
  unfold scoreMetric, fgeb, fleb. rewrite !fcompare_nan_r.
  destruct (of_Z 25); reflexivity.
Qed.

Lemma fadd_nan_r (x : float64) : fadd x S754_nan = S754_nan.
Proof. destruct x; reflexivity. Qed.

Lemma fadd_nan_l (y : float64) : fadd S754_nan y = S754_nan.
Proof. reflexivity. Qed.

Lemma fdiv_nan_l (y : float64) : fdiv S754_nan y = S754_nan.
Proof. reflexivity. Qed.

Ltac nan_cases H :=
  unfold spec.scored_metrics, spec.cpu_metrics, spec.memory_metrics, spec.disk_metrics in H;
  cbn [app] in H;
  repeat match type of H with
         | Exists _ (_ :: _) =>
             let A := fresh "N" in
             inversion H as [? ? A|? ? A]; subst; clear H;
             [apply is_nan_eq in A | rename A into H]
         | Exists _ [] => inversion H
         end.

Ltac nan_spreads :=
  repeat first [ rewrite scoreMetric_nan | rewrite fadd_nan_l | rewrite fdiv_nan_l
               | rewrite fadd_nan_r ];
  reflexivity.

Lemma cpu_score_nan (cpu : CPUResults.t) :
  Exists (fun x => is_nan x = true) (spec.cpu_metrics cpu) -> calculateCPUScore cpu = None.
Proof.
  intros H. unfold calculateCPUScore. cbv zeta.
  nan_cases H; rewrite N; nan_spreads.
Qed.

Lemma memory_score_nan (mem : MemoryResults.t) :
  Exists (fun x => is_nan x = true) (spec.memory_metrics mem) ->
  calculateMemoryScore mem = None.
Proof.
  intros H. unfold calculateMemoryScore. cbv zeta.
  nan_cases H; rewrite N; nan_spreads.
Qed.

Lemma disk_score_nan (disk : DiskResults.t) :
  Exists (fun x => is_nan x = true) (spec.disk_metrics disk) ->
  calculateDiskScore disk = None.
Proof.
  intros H. unfold calculateDiskScore. cbv zeta.
  nan_cases H; rewrite N; nan_spreads.
Qed.


Lemma summary_nan (results : Results.t) :
  Exists (fun x => is_nan x = true) (spec.scored_metrics results) ->
  calculateSummary results = None.
Proof.
  unfold spec.scored_metrics. intros H.
  apply Exists_app in H. destruct H as [H|H]; [|apply Exists_app in H; destruct H as [H|H]].
  - unfold calculateSummary. rewrite (cpu_score_nan _ H). reflexivity.
  - unfold calculateSummary. rewrite (memory_score_nan _ H).
    destruct (calculateCPUScore (Results.CPU results)); reflexivity.
  - unfold calculateSummary. rewrite (disk_score_nan _ H).
    destruct (calculateCPUScore (Results.CPU results)); [|reflexivity].
    destruct (calculateMemoryScore (Results.Memory results)); reflexivity.
Qed.

(** X7.  A scored metric that is NaN leaves the summary undefined: the
    category sum is NaN and its conversion to [int] is one the Go
    specification does not define. *)
Theorem calculateSummary_nan_metric :
  forall results : Results.t,
    Exists (fun x => is_nan x = true) (spec.scored_metrics results) ->
    calculateSummary results = None.
Proof. exact summary_nan. Qed.

Lemma calculateSummary_nan_metric_witness :
  calculateSummary sample.stalled_results = None.
Proof. apply calculateSummary_nan_metric. apply Exists_cons_hd. reflexivity. Defined.

End NotANumber.

Section Reports.
Local Open Scope string_scope.
Local Open Scope Z_scope.

Lemma determineVerdict_OverallScore (score : Z) (results : Results.t) :
  OverallScore (determineVerdict score results) = score.
Proof.
  unfold determineVerdict.
  destruct (fltb _ (of_Z 10000)), (fltb _ (of_Z 500)), (fltb _ (of_Z 100));
    destruct (score >=? 80), (score >=? 60), (score >=? 40); reflexivity.
Qed.

(** X8.  For metrics that are numbers and not negative [NewReport]
    gives a report: it carries the results it was given, the summary of
    [calculateSummary] with a total in [0,100], and the verdict of that
    total, whose overall score is the total and whose labels follow its
    tier. *)
Theorem NewReport_of_scaled_metrics :
  forall (version : string) (now : Z) (sysInfo : system.Info)
         (results : Results.t) (duration : time.Duration),
    Forall nonneg (spec.scored_metrics results) ->
    exists r : Report.t,
      NewReport version now sysInfo results duration = Some r /\
      calculateSummary results = Some (Report.Summary r) /\
      Report.CPU r = Results.CPU results /\
      Report.Memory r = Results.Memory results /\
      Report.Disk r = Results.Disk results /\
      0 <= TotalScore (Report.Summary r) <= 100 /\
      OverallScore (Report.Verdict r) = TotalScore (Report.Summary r) /\
      (ExecutionClient (Report.Verdict r) = "Ready" <->
       80 <= TotalScore (Report.Summary r)) /\
      (ConsensusClient (Report.Verdict r) = "Ready" <->
       60 <= TotalScore (Report.Summary r)) /\
      (ExecutionClient (Report.Verdict r) = "Unsuitable" <->
       TotalScore (Report.Summary r) < 40).
Proof.
  intros version now sysInfo results duration H.
  destruct (summary_scaled results H) as (s & E & _ & _ & _ & _ & _ & _ & _ & R).
  unfold NewReport. rewrite E. eexists. split; [reflexivity|].
  cbn [Report.Summary Report.Verdict Report.CPU Report.Memory Report.Disk].
  destruct (determineVerdict_labels (TotalScore s) results) as [Le Lc].
  split; [reflexivity|]. split; [reflexivity|]. split; [reflexivity|].
  split; [reflexivity|]. split; [exact R|].
  split; [apply determineVerdict_OverallScore|].
  rewrite Le, Lc.
  destruct (Z.geb_spec (TotalScore s) 80); destruct (Z.geb_spec (TotalScore s) 60);
    destruct (Z.geb_spec (TotalScore s) 40); try lia;
    repeat split; intros; try lia; try discriminate; reflexivity.
Qed.

Lemma NewReport_of_scaled_metrics_witness :
  exists r : Report.t,
    NewReport "0.1.0" 0 sample.raspberry sample.excellent_results
              (60 * time.Second) = Some r /\
    0 <= TotalScore (Report.Summary r) <= 100.
Proof.
  destruct (NewReport_of_scaled_metrics "0.1.0" 0 sample.raspberry
              sample.excellent_results (60 * time.Second))
    as (r & E & _ & _ & _ & _ & R & _).
  - unfold spec.scored_metrics, spec.cpu_metrics, spec.memory_metrics,
      spec.disk_metrics; cbn [app].
    repeat apply Forall_cons; try apply Forall_nil;
      (split; vm_compute; reflexivity).
  - exists r. auto.
Defined.

End Reports.

Section Bands.
Local Open Scope Q_scope.

Variables poor marginal good excellent : float64.
Hypothesis C : calibration poor marginal good excellent.

Let sc (v : float64) : float64 := scoreMetric v poor marginal good excellent.

(** The band a value falls in, by the comparisons a rating makes, and
    the quarter of the scale its score is in. *)
Lemma band_cases (v : float64) :
  valid v = true -> is_nan v = false ->
  (fgeb v excellent = true /\ sc v = of_Z 100) \/
  (fgeb v excellent = false /\ fgeb v good = true /\
   fle (of_Z 75) (sc v) /\ fle (sc v) (of_Z 100)) \/
  (fgeb v excellent = false /\ fgeb v good = false /\ fgeb v marginal = true /\
   fle (of_Z 50) (sc v) /\ fle (sc v) (of_Z 75)) \/
  (fgeb v excellent = false /\ fgeb v good = false /\ fgeb v marginal = false /\
   fgeb v poor = true /\ fle (of_Z 25) (sc v) /\ fle (sc v) (of_Z 50)) \/
  (fgeb v excellent = false /\ fgeb v good = false /\ fgeb v marginal = false /\
   fgeb v poor = false /\ fle (sc v) (of_Z 25)).
Proof.
  destruct C as [Vp [Vm [Vg [Ve [Hp [Hpm [Hmg [Hge H25]]]]]]]].
  intros V N.
  assert (Fp := poor_finite poor marginal Hp Hpm).
  assert (Fm := marginal_finite poor marginal good Hpm Hmg).
  assert (Fg := good_finite marginal good excellent Hmg Hge).
  assert (Fe := excellent_finite good excellent Ve Hge H25).
  destruct band_consts as [_ [_ [_ [Z25 [Z50 [Z75 [_ [_ [_ [F25 [F50 [F75 F100]]]]]]]]]]]].
  destruct (flt_not_nan _ _ Hp) as [_ Np]. destruct (flt_not_nan _ _ Hpm) as [_ Nm].
  destruct (flt_not_nan _ _ Hmg) as [_ Ng]. destruct (flt_not_nan _ _ Hge) as [_ Ne].
  unfold sc.
  destruct (fle_total excellent v Ne N) as [E|E].
  { left. split; [exact E | apply sc_band1; exact E]. }
  right. rewrite (flt_fgeb_false _ _ E).
  destruct (fle_total good v Ng N) as [G|G].
  { left. repeat split; [exact G | | apply sc_le_excellent; assumption].
    rewrite (sc_band2 _ _ _ _ v E G), <- Z75 at 1.
    apply band_lower; auto. apply (good_nonneg poor marginal good); assumption. }
  right. rewrite (flt_fgeb_false _ _ G).
  destruct (fle_total marginal v Nm N) as [M|M].
  { left. repeat split; [exact M | | apply sc_le_good; assumption].
    rewrite (sc_band3 poor _ _ _ Hge v G M), <- Z50 at 1.
    apply band_lower; auto. apply (marginal_nonneg poor marginal); assumption. }
  right. rewrite (flt_fgeb_false _ _ M).
  destruct (fle_total poor v Np N) as [P|P].
  { left. repeat split; [exact P | | apply sc_le_marginal; assumption].
    rewrite (sc_band4 _ _ _ _ Hmg Hge v M P), <- Z25 at 1.
    apply band_lower; auto. apply flt_fle, Hp. }
  right. rewrite (flt_fgeb_false _ _ P).
  repeat split. apply sc_le_poor; assumption.
Qed.

End Bands.

Section Ratings.
Local Open Scope string_scope.

Ltac rated c v V N :=
  destruct (band_cases _ _ _ _ c v V N)
    as [[E S]|[[E [G [S S']]]|[[E [G [M [S S']]]]|[[E [G [M [P [S S']]]]]|[E [G [M [P S]]]]]]]];
  rewrite ?E, ?G, ?M, ?P; unfold spec.band; tauto.

(** X9.  Where a probe is rated on the metric the scorer reads, and by
    the breakpoints of the scorer's curve, the rating names the quarter
    of the scale the metric's score is in: Excellent goes with 100, Good
    with 75 to 100, Adequate with 50 to 75, Marginal with 25 to 50, Poor
    with at most 25. *)
Theorem rating_names_score_band :
  forall v : float64,
    valid v = true -> is_nan v = false ->
    spec.band (cpu.rateKeccak v)
              (scoreMetric v (of_Z 50000) (of_Z 100000) (of_Z 200000) (of_Z 500000)) /\
    spec.band (cpu.rateBLS v)
              (scoreMetric v (of_Z 50) (of_Z 100) (of_Z 200) (of_Z 500)) /\
    spec.band (cpu.rateBN256 v)
              (scoreMetric v (of_Z 10) (of_Z 25) (of_Z 50) (of_Z 100)) /\
    spec.band (memory.rateStateCache v)
              (scoreMetric v (of_Z 50000) (of_Z 100000) (of_Z 200000) (of_Z 500000)) /\
    spec.band (disk.rateBatch v)
              (scoreMetric v (of_Z 10) (of_Z 25) (of_Z 50) (of_Z 100)).
Proof.
  intros v V N.
  repeat match goal with |- _ /\ _ => split end.
  - unfold cpu.rateKeccak. rated keccak_curve v V N.
  - unfold cpu.rateBLS. rated bls_curve v V N.
  - unfold cpu.rateBN256. rated bn256_curve v V N.
  - unfold memory.rateStateCache. rated keccak_curve v V N.
  - unfold disk.rateBatch. rated bn256_curve v V N.
Qed.

Lemma rating_names_score_band_witness :
  spec.band (cpu.rateKeccak (of_Z 150000))
            (scoreMetric (of_Z 150000) (of_Z 50000) (of_Z 100000) (of_Z 200000)
                         (of_Z 500000)).
Proof.
  apply (rating_names_score_band (of_Z 150000)); vm_compute; reflexivity.
Defined.

End Ratings.

Section Budgets.

Lemma wrap64_id (z : Z) : - 2 ^ 63 <= z < 2 ^ 63 -> wrap64 z = z.
Proof. intros H. unfold wrap64. rewrite Z.mod_small; lia. Qed.

Lemma wrapu64_id (z : Z) : 0 <= z < 2 ^ 64 -> wrapu64 z = z.
Proof. intros H. unfold wrapu64. apply Z.mod_small; lia. Qed.

(** A share [total * k / 60] of a total whose multiples do not wrap. *)
Lemma share (total k : Z) :
  0 <= total -> 0 <= k <= 25 -> total * 25 < 2 ^ 63 ->
  time.div (time.mul total k) 60 = total * k / 60.
Proof.
  intros Ht Hk Hb. unfold time.div, time.mul.
  assert (0 <= total * k < 2 ^ 63) by nia.
  rewrite (wrap64_id (total * k)) by lia.
  rewrite Z.quot_div_nonneg by lia.
  apply wrap64_id.
  assert (0 <= total * k / 60) by (apply Z.div_pos; lia).
  assert (total * k / 60 <= total * k) by (apply Z.div_le_upper_bound; lia).
  lia.
Qed.

(** X10.  The CPU budget never exceeds the total it splits.  For a total
    that is not negative and small enough for its multiples not to wrap,
    the four budgets are not negative and add up to at most the total
    and at least the total less 3 ns; they add up to the total when it
    is a multiple of 12 ns. *)
Theorem GetCPUTimeBudget_partition :
  forall c : benchmark.Config,
    0 <= benchmark.CPUDuration c -> benchmark.CPUDuration c * 25 < 2 ^ 63 ->
    let b := benchmark.GetCPUTimeBudget c in
    let sum := benchmark.Keccak256 b + benchmark.ECDSA b
               + benchmark.BLS b + benchmark.BN256 b in
    0 <= benchmark.Keccak256 b /\ 0 <= benchmark.ECDSA b /\
    0 <= benchmark.BLS b /\ 0 <= benchmark.BN256 b /\
    benchmark.CPUDuration c - 3 <= sum <= benchmark.CPUDuration c /\
    (benchmark.CPUDuration c mod 12 = 0 -> sum = benchmark.CPUDuration c).
Proof.
  intros c H0 H1. cbv zeta.
  unfold benchmark.GetCPUTimeBudget.
  cbn [benchmark.Keccak256 benchmark.ECDSA benchmark.BLS benchmark.BN256].
  rewrite !share by lia.
  set (t := benchmark.CPUDuration c) in *.
  repeat match goal with |- _ /\ _ => split end;
    try match goal with |- _ = _ -> _ => intros M end;
    unfold time.Duration in *; Z.to_euclidean_division_equations; lia.
Qed.

Lemma GetCPUTimeBudget_partition_witness :
  let b := benchmark.GetCPUTimeBudget benchmark.QuickConfig in
  let sum := benchmark.Keccak256 b + benchmark.ECDSA b
             + benchmark.BLS b + benchmark.BN256 b in
  0 <= benchmark.Keccak256 b /\ 0 <= benchmark.ECDSA b /\
  0 <= benchmark.BLS b /\ 0 <= benchmark.BN256 b /\
  benchmark.CPUDuration benchmark.QuickConfig - 3 <= sum
    <= benchmark.CPUDuration benchmark.QuickConfig /\
  (benchmark.CPUDuration benchmark.QuickConfig mod 12 = 0 ->
   sum = benchmark.CPUDuration benchmark.QuickConfig).
Proof.
  apply (GetCPUTimeBudget_partition benchmark.QuickConfig); vm_compute;
    [discriminate | reflexivity].
Defined.

(** X11.  The memory budget never exceeds the total it splits: under the
    same conditions the three budgets are not negative and add up to at
    most the total and at least the total less 2 ns, and to the total
    when it is a multiple of 12 ns. *)
Theorem GetMemoryTimeBudget_partition :
  forall c : benchmark.Config,
    0 <= benchmark.MemoryDuration c -> benchmark.MemoryDuration c * 25 < 2 ^ 63 ->
    let b := benchmark.GetMemoryTimeBudget c in
    let sum := benchmark.Trie b + benchmark.Pool b + benchmark.StateCache b in
    0 <= benchmark.Trie b /\ 0 <= benchmark.Pool b /\ 0 <= benchmark.StateCache b /\
    benchmark.MemoryDuration c - 2 <= sum <= benchmark.MemoryDuration c /\
    (benchmark.MemoryDuration c mod 12 = 0 -> sum = benchmark.MemoryDuration c).
Proof.
  intros c H0 H1. cbv zeta.
  unfold benchmark.GetMemoryTimeBudget.
  cbn [benchmark.Trie benchmark.Pool benchmark.StateCache].
  rewrite !share by lia.
  set (t := benchmark.MemoryDuration c) in *.
  repeat match goal with |- _ /\ _ => split end;
    try match goal with |- _ = _ -> _ => intros M end;
    unfold time.Duration in *; Z.to_euclidean_division_equations; lia.
Qed.

Lemma GetMemoryTimeBudget_partition_witness :
  let b := benchmark.GetMemoryTimeBudget benchmark.QuickConfig in
  let sum := benchmark.Trie b + benchmark.Pool b + benchmark.StateCache b in
  0 <= benchmark.Trie b /\ 0 <= benchmark.Pool b /\ 0 <= benchmark.StateCache b /\
  benchmark.MemoryDuration benchmark.QuickConfig - 2 <= sum
    <= benchmark.MemoryDuration benchmark.QuickConfig /\
  (benchmark.MemoryDuration benchmark.QuickConfig mod 12 = 0 ->
   sum = benchmark.MemoryDuration benchmark.QuickConfig).
Proof.
  apply (GetMemoryTimeBudget_partition benchmark.QuickConfig); vm_compute;
    [discriminate | reflexivity].
Defined.

(** X12.  The disk budget never exceeds the total it splits, in the same
    way. *)
Theorem GetDiskTimeBudget_partition :
  forall c : benchmark.Config,
    0 <= benchmark.DiskDuration c -> benchmark.DiskDuration c * 25 < 2 ^ 63 ->
    let b := benchmark.GetDiskTimeBudget c in
    let sum := benchmark.Sequential b + benchmark.Random b + benchmark.Batch b in
    0 <= benchmark.Sequential b /\ 0 <= benchmark.Random b /\ 0 <= benchmark.Batch b /\
    benchmark.DiskDuration c - 2 <= sum <= benchmark.DiskDuration c /\
    (benchmark.DiskDuration c mod 12 = 0 -> sum = benchmark.DiskDuration c).
Proof.
  intros c H0 H1. cbv zeta.
  unfold benchmark.GetDiskTimeBudget.
  cbn [benchmark.Sequential benchmark.Random benchmark.Batch].
  rewrite !share by lia.
  set (t := benchmark.DiskDuration c) in *.
  repeat match goal with |- _ /\ _ => split end;
    try match goal with |- _ = _ -> _ => intros M end;
    unfold time.Duration in *; Z.to_euclidean_division_equations; lia.
Qed.

Lemma GetDiskTimeBudget_partition_witness :
  let b := benchmark.GetDiskTimeBudget benchmark.DefaultConfig in
  let sum := benchmark.Sequential b + benchmark.Random b + benchmark.Batch b in
  0 <= benchmark.Sequential b /\ 0 <= benchmark.Random b /\ 0 <= benchmark.Batch b /\
  benchmark.DiskDuration benchmark.DefaultConfig - 2 <= sum
    <= benchmark.DiskDuration benchmark.DefaultConfig /\
  (benchmark.DiskDuration benchmark.DefaultConfig mod 12 = 0 ->
   sum = benchmark.DiskDuration benchmark.DefaultConfig).
Proof.
  apply (GetDiskTimeBudget_partition benchmark.DefaultConfig); vm_compute;
    [discriminate | reflexivity].
Defined.

End Budgets.

Section Loops.

Lemma wrap64_range (z : Z) : - 2 ^ 63 <= wrap64 z < 2 ^ 63.
Proof. unfold wrap64. pose proof (Z.mod_pos_bound (z + 2 ^ 63) (2 ^ 64)). lia. Qed.

Lemma wrapu64_range (z : Z) : 0 <= wrapu64 z < 2 ^ 64.
Proof. unfold wrapu64. apply Z.mod_pos_bound. lia. Qed.

Lemma wrap64_add_l (a b : Z) : wrap64 (wrap64 a + b) = wrap64 (a + b).
Proof.
  unfold wrap64. f_equal.
  replace ((a + 2 ^ 63) mod 2 ^ 64 - 2 ^ 63 + b + 2 ^ 63)
    with ((a + 2 ^ 63) mod 2 ^ 64 + b) by lia.
  rewrite Zplus_mod_idemp_l. f_equal. lia.
Qed.

Lemma wrapu64_add_l (a b : Z) : wrapu64 (wrapu64 a + b) = wrapu64 (a + b).
Proof. unfold wrapu64. apply Zplus_mod_idemp_l. Qed.

Lemma len_cons {A : Type} (x : A) (l : list A) : len (x :: l) = 1 + len l.
Proof. unfold len. cbn [length]. lia. Qed.

Lemma len_nonneg {A : Type} (l : list A) : 0 <= len l.
Proof. unfold len. lia. Qed.

Lemma len_app {A : Type} (l l' : list A) : len (l ++ l') = len l + len l'.
Proof. unfold len. rewrite length_app. lia. Qed.

(** What the loop leaves, from any state of its counters. *)
Lemma measure_passes (duration : time.Duration) (tr : list Tick)
                     (after n lat : Z) :
  0 <= n < 2 ^ 64 -> - 2 ^ 63 <= lat < 2 ^ 63 ->
  measure duration tr after n lat =
    mkPhase (wrapu64 (n + len (filter ok (spec.started since duration tr))))
            (wrap64 (lat + fold_right Z.add 0 (map latency (spec.started since duration tr))))
            after.
Proof.
  revert n lat. induction tr as [|t rest IH]; intros n lat Hn Hl.
  - cbn [measure spec.started filter map fold_right]. unfold len. cbn [length].
    rewrite Z.add_0_r, Z.add_0_r, wrapu64_id, wrap64_id by lia. reflexivity.
  - cbn [measure spec.started]. destruct (since t <? duration).
    + rewrite IH.
      * cbn [filter map fold_right]. f_equal.
        -- destruct (ok t).
           ++ rewrite len_cons, wrapu64_add_l. f_equal. lia.
           ++ reflexivity.
        -- unfold time.add. rewrite wrap64_add_l. f_equal. lia.
      * destruct (ok t); [apply wrapu64_range | exact Hn].
      * apply wrap64_range.
    + cbn [filter map fold_right]. unfold len. cbn [length].
      rewrite Z.add_0_r, Z.add_0_r, wrapu64_id, wrap64_id by lia. reflexivity.
Qed.

Lemma run_ops_range (duration : time.Duration) (l : Loop) :
  0 <= ops (run duration l) < 2 ^ 64.
Proof.
  unfold run. rewrite measure_passes by lia. cbn [ops]. apply wrapu64_range.
Qed.

Lemma run_elapsed (duration : time.Duration) (l : Loop) :
  elapsed (run duration l) = after l.
Proof. unfold run. rewrite measure_passes by lia. reflexivity. Qed.

(** With the value of the set-up there, the loop is the plain one. *)
Lemma measure_with_present (duration : time.Duration) (tr : list Tick)
                           (after n lat : Z) :
  measure_with true duration tr after n lat = Some (measure duration tr after n lat).
Proof.
  revert n lat. induction tr as [|t rest IH]; intros n lat; cbn [measure_with measure].
  - reflexivity.
  - destruct (since t <? duration); [apply IH | reflexivity].
Qed.

(** A loop over a nil value panics exactly when it makes a pass. *)
Lemma run_with_panics (present : bool) (duration : time.Duration) (l : Loop) :
  run_with present duration l = None <-> present = false /\ spec.passes duration l.
Proof.
  unfold run_with, spec.passes. destruct present.
  - rewrite measure_with_present. split; [discriminate | intros [H _]; discriminate].
  - destruct (trace l) as [|t rest]; cbn [measure_with spec.started].
    + split; [discriminate | intros [_ H]; contradiction].
    + destruct (since t <? duration).
      * split; [intros _; split; [reflexivity | discriminate] | reflexivity].
      * split; [discriminate | intros [_ H]; contradiction].
Qed.

(** When it returns, it returns what the plain loop does. *)
Lemma run_with_returns (present : bool) (duration : time.Duration) (l : Loop)
                       (p : Phase) :
  run_with present duration l = Some p -> p = run duration l.
Proof.
  unfold run_with, run. destruct present.
  - rewrite measure_with_present. intros E. injection E as <-. reflexivity.
  - destruct (trace l) as [|t rest]; cbn [measure_with measure].
    + intros E. injection E as <-. reflexivity.
    + destruct (since t <? duration); [discriminate|].
      intros E. injection E as <-. reflexivity.
Qed.


(** X13.  A measurement loop counts the operations that were started
    before the deadline and succeeded: it acts on the clock readings up
    to the first one that is not below the duration, counts the
    successes among them (modulo 2^64), adds up the latencies of all of
    them, failed ones included, and reports the clock reading taken
    after it as the elapsed time.  Whatever comes after the first late
    reading has no effect. *)
Theorem run_counts_started_successes :
  forall (duration : time.Duration) (l : Loop),
    let started := spec.started since duration (trace l) in
    run duration l =
      mkPhase (wrapu64 (len (filter ok started)))
              (wrap64 (fold_right Z.add 0 (map latency started)))
              (after l) /\
    len (filter ok started) <= len started <= len (trace l).
Proof.
  intros duration l started. split.
  - unfold run. rewrite measure_passes by lia. reflexivity.
  - subst started. unfold len. split.
    + apply Nat2Z.inj_le. apply filter_length_le.
    + apply Nat2Z.inj_le. induction (trace l) as [|t rest IH]; [apply le_n|].
      cbn [spec.started]. destruct (since t <? duration); cbn [length]; lia.
Qed.

End Loops.

Section Measured.
Local Open Scope Q_scope.

Lemma measured_zero : measured zero.
Proof. repeat split. Qed.

Lemma measured_nonneg (x : float64) : measured x -> nonneg x.
Proof. intros (V & _ & N). split; assumption. Qed.

Lemma rate_measured (n : Z) (d : time.Duration) :
  (0 <= n < 2 ^ 64)%Z -> timed d -> measured (fdiv (of_Z n) (time.Seconds d)).
Proof.
  intros Hn Hd. destruct (rate_ok n d) as (V & F & N); [lia | exact Hd |].
  repeat split; assumption.
Qed.

Lemma of_Z_measured (n : Z) : (0 <= n <= 2 ^ 64)%Z -> measured (of_Z n).
Proof.
  intros Hn.
  assert (L : fle (of_Z 0) (of_Z n)) by (apply of_Z_le; lia).
  assert (U : fle (of_Z n) (of_Z (2 ^ 64))) by (apply of_Z_le; lia).
  split; [apply of_Z_valid|]. split; [|exact L].
  apply fle_between_finite with (of_Z 0) (of_Z (2 ^ 64)); auto; vm_compute; reflexivity.
Qed.

(** Dividing by [1024 * 1024]. *)
Lemma megabytes_measured (x : float64) :
  measured x -> measured (fdiv x (of_Z (1024 * 1024))).
Proof.
  intros (V & F & N).
  set (c := of_Z (1024 * 1024)).
  assert (Fc : is_finite c = true) by (vm_compute; reflexivity).
  assert (Pc : 0 < F2Q c) by (vm_compute; reflexivity).
  assert (Ec : F2Q c == 1048576) by (vm_compute; reflexivity).
  assert (Z0 : fle zero (fdiv x c)).
  { change zero with (fdiv zero c). apply fdiv_mono; assumption. }
  split; [apply fdiv_valid|]. split; [|exact Z0].
  apply fle_between_finite with zero x; auto.
  assert (Q0 : 0 <= F2Q x) by (apply (fle_fin zero x eq_refl F) in N; exact N).
  apply fle_trans with (round (F2Q x / F2Q c)).
  - apply fdiv_fin; auto using pos_not_zero.
  - apply fle_trans with (round (F2Q x)).
    + apply round_le. rewrite Ec. apply Qle_shift_div_r; [reflexivity|]. nra.
    + apply round_id; assumption.
Qed.

Lemma phase_rate_measured (duration : time.Duration) (l : Loop) :
  timed (after l) ->
  measured (fdiv (of_Z (ops (run duration l))) (time.Seconds (elapsed (run duration l)))).
Proof.
  intros T. rewrite run_elapsed. apply rate_measured; [apply run_ops_range | exact T].
Qed.

End Measured.

Section CPUProbes.

Ltac clocks H :=
  unfold spec.cpu_clocks, spec.memory_clocks, spec.disk_clocks in H;
  repeat match type of H with
         | Forall _ (_ :: _) =>
             let A := fresh "T" in
             let B := fresh "H" in
             inversion H as [|? ? A B]; subst; clear H; rename B into H
         end.

Lemma cpu_probes_measured (config : benchmark.Config) (w : Runner.CPUWorld)
                           (cpu : CPUResults.t) :
  Forall timed (spec.cpu_clocks w) ->
  Runner.runCPUBenchmarks config w = Some cpu ->
  Forall measured (spec.cpu_rates cpu).
Proof.
  intros H. clocks H.
  unfold Runner.runCPUBenchmarks, cpu.BenchmarkECDSA, cpu.BenchmarkBN256.
  destruct (Runner.keygen w);
    [destruct (run_with _ _ (Runner.ecdsa_verify w)) as [verifyPhase|] eqn:Ev;
       [apply run_with_returns in Ev; subst verifyPhase | discriminate] |];
    (destruct (Runner.randomG1 w);
       [destruct (run_with _ _ (infallible (Runner.bn256_add w))) as [addPhase|] eqn:Ea;
          [apply run_with_returns in Ea; subst addPhase | discriminate];
        destruct (run_with _ _ (infallible (Runner.bn256_pair w))) as [pairPhase|] eqn:Ep;
          [apply run_with_returns in Ep; subst pairPhase | discriminate] |]);
    intros E; injection E as <-;
    unfold spec.cpu_rates;
    cbn [CPUResults.Keccak CPUResults.ECDSA CPUResults.BLS CPUResults.BN256];
    unfold cpu.BenchmarkKeccak256, cpu.KeccakResult_of, cpu.ECDSAResult_of,
      cpu.BenchmarkBLS, cpu.BN256Result_of;
    cbn [KeccakResult.HashesPerSecond KeccakResult.DataProcessedMB
         ECDSAResult.SignaturesPerSecond ECDSAResult.VerificationsPerSecond
         ECDSAResult.RecoveriesPerSecond
         BLSResult.SignaturesPerSecond BLSResult.VerificationsPerSecond
         BLSResult.AggregationsPerSecond
         BN256Result.G1AddsPerSecond BN256Result.G1ScalarMulsPerSecond
         BN256Result.PairingsPerSecond];
    repeat apply Forall_cons; try apply Forall_nil;
    try apply measured_zero;
    try (apply phase_rate_measured; assumption);
    try (rewrite run_elapsed; apply rate_measured; [apply wrapu64_range | assumption]);
    try (apply megabytes_measured, of_Z_measured;
         match goal with
         | |- context [wrapu64 ?z] => pose proof (wrapu64_range z)
         end; lia).
Qed.

(** The CPU probes panic exactly when a loop makes a pass over a value
    that a failed call of the set-up left nil. *)
Lemma cpu_probes_panic (config : benchmark.Config) (w : Runner.CPUWorld) :
  let budget := benchmark.GetCPUTimeBudget config in
  Runner.runCPUBenchmarks config w = None <->
    (Runner.keygen w = nil /\ Runner.presign w <> nil /\
     spec.passes (time.div (benchmark.ECDSA budget) 3) (Runner.ecdsa_verify w)) \/
    (Runner.randomG1 w = nil /\
     ((Runner.randomG1b w <> nil /\
       spec.passes (time.div (time.mul (benchmark.BN256 budget) 3) 10)
                   (Runner.bn256_add w)) \/
      (Runner.randomG2 w <> nil /\
       spec.passes (time.div (time.mul (benchmark.BN256 budget) 4) 10)
                   (Runner.bn256_pair w)))).
Proof.
  intros budget.
  assert (P : forall d l, spec.passes d (infallible l) <-> spec.passes d l).
  { intros d l. unfold spec.passes, infallible. cbn [trace].
    destruct (trace l) as [|t rest]; [reflexivity|].
    cbn [map spec.started since]. destruct (since t <? d); split; intros; try discriminate;
      assumption. }
  assert (R : forall e, returned e = false <-> e <> nil).
  { intros [|m]; cbn [returned]; split; intros; try discriminate; try congruence. }
  unfold Runner.runCPUBenchmarks, cpu.BenchmarkECDSA, cpu.BenchmarkBN256. fold budget.
  pose proof (run_with_panics (returned (Runner.presign w))
                (time.div (benchmark.ECDSA budget) 3) (Runner.ecdsa_verify w)) as V.
  pose proof (run_with_panics (returned (Runner.randomG1b w))
                (time.div (time.mul (benchmark.BN256 budget) 3) 10)
                (infallible (Runner.bn256_add w))) as A.
  pose proof (run_with_panics (returned (Runner.randomG2 w))
                (time.div (time.mul (benchmark.BN256 budget) 4) 10)
                (infallible (Runner.bn256_pair w))) as G.
  rewrite R in V, A, G. rewrite P in A, G.
  destruct (Runner.keygen w) as [|km];
    [destruct (run_with _ _ (Runner.ecdsa_verify w)) |];
    (destruct (Runner.randomG1 w) as [|gm];
       [destruct (run_with _ _ (infallible (Runner.bn256_add w)));
        destruct (run_with _ _ (infallible (Runner.bn256_pair w))) |]);
    split; try discriminate; try reflexivity; intros H;
    repeat match goal with
           | H : _ \/ _ |- _ => destruct H
           | H : _ /\ _ |- _ => destruct H
           | H : err _ = nil |- _ => discriminate H
           end;
    try tauto;
    try (exfalso;
         match goal with
         | X : Some _ = None <-> _ |- _ =>
             let Y := fresh in assert (Y : Some _ = None) by (apply X; tauto);
             discriminate Y
         end).
Qed.

Ltac sample_clocks :=
  unfold spec.cpu_clocks, spec.memory_clocks, spec.disk_clocks;
  repeat first [ apply Forall_cons | apply Forall_nil ];
  unfold timed; vm_compute; split; reflexivity.

(** X14.  Every rate and volume the CPU probes report is a finite number
    that is not negative, when every clock reading after a CPU loop
    shows that time has passed, whether or not a tested set-up call
    failed; and the probes do report when the three set-up calls whose
    error is discarded have succeeded. *)
Theorem runCPUBenchmarks_rates_measured :
  forall (config : benchmark.Config) (w : Runner.CPUWorld),
    Forall timed (spec.cpu_clocks w) ->
    (forall cpu : CPUResults.t,
        Runner.runCPUBenchmarks config w = Some cpu ->
        Forall measured (spec.cpu_rates cpu)) /\
    (Runner.presign w = nil -> Runner.randomG1b w = nil -> Runner.randomG2 w = nil ->
     exists cpu : CPUResults.t, Runner.runCPUBenchmarks config w = Some cpu).
Proof.
  intros config w T. split.
  - intros cpu E. exact (cpu_probes_measured config w cpu T E).
  - intros S B G.
    destruct (Runner.runCPUBenchmarks config w) as [cpu|] eqn:E; [eauto|].
    apply cpu_probes_panic in E.
    destruct E as [(_ & N & _)|(_ & [(N & _)|(N & _)])]; contradiction.
Qed.

Lemma runCPUBenchmarks_rates_measured_witness :
  exists cpu : CPUResults.t,
    Runner.runCPUBenchmarks benchmark.QuickConfig sample.cpu_world = Some cpu /\
    Forall measured (spec.cpu_rates cpu).
Proof.
  destruct (runCPUBenchmarks_rates_measured benchmark.QuickConfig sample.cpu_world)
    as [M [cpu E]]; [sample_clocks | reflexivity | reflexivity | reflexivity |].
  exists cpu. split; [exact E | exact (M cpu E)].
Defined.

End CPUProbes.

Section DiskProbes.
Local Open Scope string_scope.
Local Open Scope Z_scope.

Lemma writeBlocks_range (sizes : list Z) (results : list disk.IO) (total : Z) :
  0 <= total < 2 ^ 64 -> 0 <= disk.writeBlocks sizes results total < 2 ^ 64.
Proof.
  revert results total. induction sizes as [|b sizes IH]; intros results total H.
  - destruct results; exact H.
  - destruct results as [|r rest]; [exact H|]. cbn [disk.writeBlocks].
    destruct (disk.failure r); [|exact H]. apply IH, wrapu64_range.
Qed.

Lemma writeLoop_range (d : time.Duration) (passes : list disk.WritePass) (total : Z) :
  0 <= total < 2 ^ 64 -> 0 <= disk.writeLoop d passes total < 2 ^ 64.
Proof.
  revert total. induction passes as [|p rest IH]; intros total H; [exact H|].
  cbn [disk.writeLoop]. destruct (disk.write_since p <? d); [|exact H].
  apply IH, writeBlocks_range, H.
Qed.

Lemma readLoop_range (d : time.Duration) (passes : list disk.ReadPass) (total : Z) :
  0 <= total < 2 ^ 64 -> 0 <= disk.readLoop d passes total < 2 ^ 64.
Proof.
  revert total. induction passes as [|p rest IH]; intros total H; [exact H|].
  cbn [disk.readLoop]. destruct (disk.read_since p <? d); [|exact H].
  destruct (disk.failure (disk.read_result p)); apply IH; [apply wrapu64_range | exact H].
Qed.

(** The batch loop counts the writes that were started before the
    deadline and succeeded, with their bytes and their latencies. *)
Lemma batchLoop_successes (d : time.Duration) (passes : list disk.BatchPass)
                          (c : disk.BatchCounters) :
  0 <= disk.batchCount c < 2 ^ 64 -> 0 <= disk.totalWritten c < 2 ^ 64 ->
  - 2 ^ 63 <= disk.totalLatency c < 2 ^ 63 ->
  let done := filter (fun p => spec.succeeded (disk.batch_write p))
                     (spec.started disk.batch_since d passes) in
  disk.batchLoop d passes c =
    disk.mkBatchCounters
      (wrapu64 (disk.batchCount c + len done))
      (wrapu64 (disk.totalWritten c
                + fold_right Z.add 0 (map (fun p => disk.bytes (disk.batch_write p)) done)))
      (wrap64 (disk.totalLatency c + fold_right Z.add 0 (map disk.opLatency done))).
Proof.
  cbv zeta. revert c. induction passes as [|p rest IH]; intros c Hc Hw Hl.
  - cbn [disk.batchLoop spec.started filter map fold_right]. unfold len. cbn [length].
    rewrite !Z.add_0_r, !wrapu64_id, wrap64_id by lia. destruct c; reflexivity.
  - cbn [disk.batchLoop spec.started]. destruct (disk.batch_since p <? d).
    + cbn [filter].
      assert (S : spec.succeeded (disk.batch_write p) =
                  match disk.failure (disk.batch_write p) with
                  | nil => true
                  | err _ => false
                  end) by reflexivity.
      rewrite S. clear S.
      destruct (disk.failure (disk.batch_write p)).
      * rewrite IH; cbn [disk.batchCount disk.totalWritten disk.totalLatency];
          try apply wrapu64_range; try apply wrap64_range.
        cbn [map fold_right]. rewrite len_cons, !wrapu64_add_l.
        unfold time.add. rewrite wrap64_add_l.
        f_equal; f_equal; lia.
      * apply IH; assumption.
    + cbn [filter map fold_right]. unfold len. cbn [length].
      rewrite !Z.add_0_r, !wrapu64_id, wrap64_id by lia. destruct c; reflexivity.
Qed.


Ltac clocks H :=
  unfold spec.cpu_clocks, spec.memory_clocks, spec.disk_clocks in H;
  repeat match type of H with
         | Forall _ (_ :: _) =>
             let A := fresh "T" in
             let B := fresh "H" in
             inversion H as [|? ? A B]; subst; clear H; rename B into H
         end.

Lemma disk_probes_measured (config : benchmark.Config) (w : Runner.DiskWorld) :
  Forall timed (spec.disk_clocks w) ->
  Forall measured (spec.disk_rates (Runner.runDiskBenchmarks config w)).
Proof.
  intros H. clocks H.
  unfold Runner.runDiskBenchmarks, spec.disk_rates.
  cbn [DiskResults.Sequential DiskResults.Random DiskResults.Batch].
  unfold disk.BenchmarkSequential, disk.BenchmarkRandom, disk.RandomResult_of,
    disk.BenchmarkBatch.
  set (c := disk.batchLoop _ _ _).
  assert (Rc : 0 <= disk.batchCount c < 2 ^ 64 /\ 0 <= disk.totalWritten c < 2 ^ 64).
  { subst c. rewrite batchLoop_successes by (cbn; lia).
    cbn [disk.batchCount disk.totalWritten]. split; apply wrapu64_range. }
  destruct Rc as [Rc Rw].
  destruct (Runner.seq_create w), (Runner.seq_open w), (Runner.random_open w),
    (Runner.random_truncate w), (Runner.batch_open w);
    cbn [SequentialResult.WriteSpeedMBps SequentialResult.ReadSpeedMBps
         RandomResult.ReadIOPS RandomResult.WriteIOPS
         BatchResult.BatchesPerSecond BatchResult.ThroughputMBps];
    repeat apply Forall_cons; try apply Forall_nil;
    try apply measured_zero;
    try (apply phase_rate_measured; assumption);
    try (apply rate_measured; assumption);
    try (apply megabytes_measured, rate_measured; [|assumption]);
    try assumption;
    try (apply writeLoop_range; lia); try (apply readLoop_range; lia).
Qed.

Ltac sample_clocks :=
  unfold spec.cpu_clocks, spec.memory_clocks, spec.disk_clocks;
  repeat first [ apply Forall_cons | apply Forall_nil ];
  unfold timed; vm_compute; split; reflexivity.

(** X15.  When every clock reading after a disk loop shows that time has
    passed, every rate the disk probes report is a finite number that is
    not negative, whether or not a file could be opened. *)
Theorem runDiskBenchmarks_rates_measured :
  forall (config : benchmark.Config) (w : Runner.DiskWorld),
    Forall timed (spec.disk_clocks w) ->
    Forall measured (spec.disk_rates (Runner.runDiskBenchmarks config w)).
Proof. exact disk_probes_measured. Qed.

Lemma runDiskBenchmarks_rates_measured_witness :
  Forall measured
         (spec.disk_rates (Runner.runDiskBenchmarks benchmark.QuickConfig sample.disk_world)).
Proof. apply runDiskBenchmarks_rates_measured. sample_clocks. Defined.

(** X16.  The batch probe counts only the writes that were started
    before the deadline and succeeded: their number, their bytes and
    their latencies; a failed write leaves no trace.  When none
    succeeded the rate and the throughput are 0, the rating is Poor, and
    the average latency, a quotient by the count, is NaN. *)
Theorem BenchmarkBatch_counts_successes :
  forall (duration : time.Duration) (passes : list disk.BatchPass)
         (elapsed : time.Duration),
    let done := filter (fun p => spec.succeeded (disk.batch_write p))
                       (spec.started disk.batch_since duration passes) in
    let r := disk.BenchmarkBatch duration nil passes elapsed in
    BatchResult.BatchesPerSecond r =
      fdiv (of_Z (wrapu64 (len done))) (time.Seconds elapsed) /\
    BatchResult.ThroughputMBps r =
      fdiv (fdiv (of_Z (wrapu64 (fold_right Z.add 0
                                   (map (fun p => disk.bytes (disk.batch_write p)) done))))
                 (time.Seconds elapsed))
           (of_Z (1024 * 1024)) /\
    BatchResult.AvgBatchLatencyMs r =
      fdiv (of_Z (time.Milliseconds
                    (wrap64 (fold_right Z.add 0 (map disk.opLatency done)))))
           (of_Z (wrapu64 (len done))) /\
    (done = [] -> timed elapsed ->
     BatchResult.BatchesPerSecond r = zero /\
     BatchResult.ThroughputMBps r = zero /\
     BatchResult.AvgBatchLatencyMs r = S754_nan /\
     BatchResult.Rating r = "Poor").
Proof.
  intros duration passes elapsed done r.
  assert (E : r = disk.BenchmarkBatch duration nil passes elapsed) by reflexivity.
  unfold disk.BenchmarkBatch in E.
  rewrite batchLoop_successes in E by (cbn; lia).
  cbn [disk.batchCount disk.totalWritten disk.totalLatency] in E.
  rewrite !Z.add_0_l in E. fold done in E.
  rewrite E.
  cbn [BatchResult.BatchesPerSecond BatchResult.ThroughputMBps
       BatchResult.AvgBatchLatencyMs BatchResult.Rating].
  split; [reflexivity|]. split; [reflexivity|]. split; [reflexivity|].
  intros D T. rewrite D. cbn [map fold_right]. unfold len. cbn [length].
  change (of_Z (wrapu64 (Z.of_nat 0))) with zero.
  change (of_Z (wrapu64 0)) with zero.
  rewrite (fdiv_zero_pos _ (Seconds_pos _ T)).
  repeat split; vm_compute; reflexivity.
Qed.

Lemma BenchmarkBatch_counts_successes_witness :
  let r := disk.BenchmarkBatch time.Second nil
             [disk.mkBatchPass 0 (disk.mkIO 0 (err "EIO")) 150] time.Second in
  BatchResult.BatchesPerSecond r = zero /\
  BatchResult.AvgBatchLatencyMs r = S754_nan /\
  BatchResult.Rating r = "Poor".
Proof.
  pose proof (BenchmarkBatch_counts_successes time.Second
                [disk.mkBatchPass 0 (disk.mkIO 0 (err "EIO")) 150] time.Second) as H.
  cbv zeta in H. destruct H as (_ & _ & _ & H).
  destruct H as (B & _ & N & R);
    [reflexivity | vm_compute; split; reflexivity |].
  cbv zeta. split; [exact B | split; [exact N | exact R]].
Defined.

End DiskProbes.

Section Slices.

Lemma started_length {A : Type} (clock : A -> time.Duration) (d : time.Duration)
                     (tr : list A) :
  len (spec.started clock d tr) <= len tr.
Proof.
  induction tr as [|t rest IH]; [reflexivity|].
  cbn [spec.started]. destruct (clock t <? d).
  - rewrite !len_cons. lia.
  - rewrite len_cons. pose proof (len_nonneg rest). unfold len at 1. cbn [length]. lia.
Qed.

Lemma len_nil {A : Type} : len (@Datatypes.nil A) = 0.
Proof. reflexivity. Qed.

(** An index within the slice finds an element. *)
Lemma index_in_range {A : Type} (s : list A) (i : Z) :
  0 <= i < len s -> exists x, index s i = Some x /\ In x s.
Proof.
  intros H. unfold index. destruct (Z.ltb_spec i 0) as [L|L]; [lia|].
  destruct (nth_error s (Z.to_nat i)) as [x|] eqn:E.
  - exists x. split; [reflexivity|]. eapply nth_error_In; exact E.
  - apply nth_error_None in E. unfold len in H. lia.
Qed.

(** [int(c) % len(s)] is an index within a slice that is not empty, for
    a counter below 2^63. *)
Lemma imod_in_range (c n : Z) :
  0 <= c < 2 ^ 63 -> 0 < n ->
  exists i, imod (wrap64 c) n = Some i /\ 0 <= i < n.
Proof.
  intros Hc Hn. unfold imod. destruct (Z.eqb_spec n 0) as [E|E]; [lia|].
  rewrite wrap64_id by lia. exists (Z.rem c n). split; [reflexivity|].
  apply Z.rem_bound_pos; lia.
Qed.

End Slices.

Section Trie.
Local Open Scope string_scope.
Local Open Scope Z_scope.

Lemma insertLoop_counts (d : time.Duration) (rand : Rand) (tr : list Tick)
                        (s : memory.Inserted) :
  0 <= memory.insertCount s < 2 ^ 64 ->
  let s' := memory.insertLoop d rand tr s in
  len (memory.nodeKeys s') = len (memory.nodeKeys s) + len (spec.started since d tr) /\
  memory.insertCount s' = wrapu64 (memory.insertCount s + len (spec.started since d tr)).
Proof.
  cbv zeta. revert s. induction tr as [|t rest IH]; intros s H.
  - cbn [memory.insertLoop spec.started]. unfold len at 3 4. cbn [length].
    rewrite !Z.add_0_r, wrapu64_id by lia. split; reflexivity.
  - cbn [memory.insertLoop spec.started]. destruct (since t <? d).
    + destruct (IH (memory.mkInserted (memory.nodeKeys s ++ [rand (memory.calls s)])
                                      (wrapu64 (memory.insertCount s + 1))
                                      (S (S (memory.calls s))))) as [L C].
      { cbn [memory.insertCount]. apply wrapu64_range. }
      cbn [memory.nodeKeys memory.insertCount] in L, C.
      rewrite L, C, len_app, !len_cons, len_nil, wrapu64_add_l.
      split; [lia | f_equal; lia].
    + unfold len at 3 4. cbn [length].
      rewrite !Z.add_0_r, wrapu64_id by lia. split; reflexivity.
Qed.

Lemma lookupLoop_counts (d : time.Duration) (keys : list Z) (tr : list Tick) (c : Z) :
  0 < len keys -> 0 <= c -> c + len tr < 2 ^ 63 ->
  memory.lookupLoop d keys tr c = Some (c + len (spec.started since d tr)).
Proof.
  intros K. revert c. induction tr as [|t rest IH]; intros c H0 H1.
  - cbn [memory.lookupLoop spec.started]. unfold len at 1. cbn [length].
    rewrite Z.add_0_r. reflexivity.
  - rewrite len_cons in H1. pose proof (len_nonneg rest).
    cbn [memory.lookupLoop spec.started]. destruct (since t <? d).
    + destruct (imod_in_range c (len keys)) as (i & Ei & Ri); [lia | exact K |].
      rewrite Ei. destruct (index_in_range keys i Ri) as (x & Ex & _). rewrite Ex.
      rewrite wrapu64_id by lia. rewrite IH by lia. rewrite len_cons. f_equal. lia.
    + unfold len at 1. cbn [length]. rewrite Z.add_0_r. reflexivity.
Qed.

Lemma fle_fltb_false (x y : float64) : fle x y -> fltb y x = false.
Proof.
  intros H. destruct (fltb y x) eqn:E; [|reflexivity].
  pose proof (flt_fgeb_false y x E) as G. unfold fgeb in G. congruence.
Qed.

(** The probe in closed form. *)
Lemma BenchmarkTrie_closed (duration : time.Duration) (rand : Rand)
                           (memBefore memAfter : Z) (insert lookup hash : Loop) :
  len (trace lookup) < 2 ^ 63 ->
  let inserted :=
    len (spec.started since (time.div (time.mul duration 2) 5) (trace insert)) in
  let looked :=
    if 0 <? inserted
    then len (spec.started since (time.div (time.mul duration 2) 5) (trace lookup))
    else 0 in
  let hashed := run (time.div duration 5) (infallible hash) in
  let insertRate := fdiv (of_Z (wrapu64 inserted)) (time.Seconds (after insert)) in
  let lookupRate := fdiv (of_Z looked) (time.Seconds (after lookup)) in
  memory.BenchmarkTrie duration rand memBefore memAfter insert lookup hash =
    Some (TrieResult.mk
            insertRate lookupRate
            (fdiv (of_Z (ops hashed)) (time.Seconds (after hash)))
            (fdiv (of_Z (wrapu64 (memAfter - memBefore))) (of_Z (1024 * 1024)))
            (time.add (time.add (after insert) (after lookup)) (after hash))
            (memory.rateTrie insertRate lookupRate)).
Proof.
  intros B. cbv zeta. unfold memory.BenchmarkTrie.
  destruct (insertLoop_counts (time.div (time.mul duration 2) 5) rand (trace insert)
                              (memory.mkInserted [] 0 O)) as [L C].
  { cbn. lia. }
  cbn [memory.nodeKeys memory.insertCount] in L, C.
  rewrite L, C. unfold len at 1 4. cbn [length]. rewrite !Z.add_0_l.
  set (inserted := len (spec.started since _ (trace insert))) in *.
  assert (K : (if 0 <? inserted
               then memory.lookupLoop (time.div (time.mul duration 2) 5)
                      (memory.nodeKeys
                         (memory.insertLoop (time.div (time.mul duration 2) 5) rand
                            (trace insert) (memory.mkInserted [] 0 O)))
                      (trace lookup) 0
               else Some 0) =
              Some (if 0 <? inserted
                    then len (spec.started since (time.div (time.mul duration 2) 5)
                                           (trace lookup))
                    else 0)).
  { destruct (Z.ltb_spec 0 inserted) as [P|P]; [|reflexivity].
    rewrite lookupLoop_counts; [reflexivity | | lia | lia].
    rewrite L. unfold len at 1. cbn [length]. lia. }
  rewrite K. rewrite run_elapsed. cbn [after infallible].
  rewrite (fle_fltb_false zero).
  - reflexivity.
  - apply megabytes_measured, of_Z_measured.
    pose proof (wrapu64_range (memAfter - memBefore)). lia.
Qed.


(** X17.  The trie probe never indexes outside [nodeKeys]: with fewer
    than 2^63 lookup passes it returns a result.  The insert rate counts
    the passes started before the insert deadline; lookups are counted
    only when something was inserted, and then they are the passes
    started before the lookup deadline. *)
Theorem BenchmarkTrie_completes :
  forall (duration : time.Duration) (rand : Rand) (memBefore memAfter : Z)
         (insert lookup hash : Loop),
    len (trace lookup) < 2 ^ 63 ->
    let inserted :=
      len (spec.started since (time.div (time.mul duration 2) 5) (trace insert)) in
    let looked :=
      len (spec.started since (time.div (time.mul duration 2) 5) (trace lookup)) in
    exists r : TrieResult.t,
      memory.BenchmarkTrie duration rand memBefore memAfter insert lookup hash = Some r /\
      TrieResult.InsertsPerSecond r =
        fdiv (of_Z (wrapu64 inserted)) (time.Seconds (after insert)) /\
      TrieResult.LookupsPerSecond r =
        fdiv (of_Z (if 0 <? inserted then looked else 0)) (time.Seconds (after lookup)) /\
      TrieResult.Duration r =
        time.add (time.add (after insert) (after lookup)) (after hash).
Proof.
  intros duration rand memBefore memAfter insert lookup hash B inserted looked.
  eexists. split; [apply BenchmarkTrie_closed; exact B|].
  repeat split.
Qed.

Lemma BenchmarkTrie_completes_witness :
  exists r : TrieResult.t,
    memory.BenchmarkTrie (25 * time.Second) (fun n => Z.of_nat n) 1000 2000
                         sample.short_loop sample.short_loop sample.idle_loop = Some r.
Proof.
  destruct (BenchmarkTrie_completes (25 * time.Second) (fun n => Z.of_nat n) 1000 2000
              sample.short_loop sample.short_loop sample.idle_loop)
    as (r & E & _); [vm_compute; reflexivity|].
  exists r. exact E.
Defined.

(** X18.  The peak memory of the trie probe is never negative, so the
    fallback for a negative value is never taken: the figure is always
    the unsigned difference of the two readings over 2^20.  When the
    second reading is the smaller one the difference wraps, and the
    figure is at least 2^43 MB. *)
Theorem BenchmarkTrie_peak_memory :
  forall (duration : time.Duration) (rand : Rand) (memBefore memAfter : Z)
         (insert lookup hash : Loop),
    len (trace lookup) < 2 ^ 63 ->
    exists r : TrieResult.t,
      memory.BenchmarkTrie duration rand memBefore memAfter insert lookup hash = Some r /\
      TrieResult.PeakMemoryMB r =
        fdiv (of_Z (wrapu64 (memAfter - memBefore))) (of_Z (1024 * 1024)) /\
      measured (TrieResult.PeakMemoryMB r) /\
      (0 <= memAfter < memBefore -> memBefore < 2 ^ 63 ->
       fle (of_Z (2 ^ 43)) (TrieResult.PeakMemoryMB r)).
Proof.
  intros duration rand memBefore memAfter insert lookup hash B.
  eexists. split; [apply BenchmarkTrie_closed; exact B|].
  cbn [TrieResult.PeakMemoryMB].
  pose proof (wrapu64_range (memAfter - memBefore)) as R.
  split; [reflexivity|]. split.
  - apply megabytes_measured, of_Z_measured. lia.
  - intros H0 H1.
    assert (W : wrapu64 (memAfter - memBefore) = 2 ^ 64 + (memAfter - memBefore)).
    { unfold wrapu64. symmetry. apply (Z.mod_unique _ _ (-1)); lia. }
    change (of_Z (2 ^ 43)) with (fdiv (of_Z (2 ^ 63)) (of_Z (1024 * 1024))).
    apply fdiv_mono; [reflexivity | reflexivity |]. apply of_Z_le. lia.
Qed.

Lemma BenchmarkTrie_peak_memory_witness :
  exists r : TrieResult.t,
    memory.BenchmarkTrie (25 * time.Second) (fun n => Z.of_nat n) 2000 1000
                         sample.short_loop sample.short_loop sample.idle_loop = Some r /\
    fle (of_Z (2 ^ 43)) (TrieResult.PeakMemoryMB r).
Proof.
  destruct (BenchmarkTrie_peak_memory (25 * time.Second) (fun n => Z.of_nat n) 2000 1000
              sample.short_loop sample.short_loop sample.idle_loop)
    as (r & E & _ & _ & P); [vm_compute; reflexivity|].
  exists r. split; [exact E|]. apply P; lia.
Defined.

End Trie.

Section Pool.
Local Open Scope Z_scope.

Lemma churn_step (k : Z) :
  0 <= k ->
  spec.churn k mod 15360 = spec.churn (k + 1) - spec.churn k - 1024 /\
  1024 <= spec.churn (k + 1) - spec.churn k <= 8192 /\
  0 <= spec.churn k <= 3840 * k.
Proof.
  intros H. unfold spec.churn.
  destruct (Z.eqb_spec (k mod 4) 0), (Z.eqb_spec (k mod 4) 1), (Z.eqb_spec (k mod 4) 2),
    (Z.eqb_spec ((k + 1) mod 4) 0), (Z.eqb_spec ((k + 1) mod 4) 1),
    (Z.eqb_spec ((k + 1) mod 4) 2);
    Z.to_euclidean_division_equations; lia.
Qed.

Lemma poolLoop_closed (d : time.Duration) (tr : list memory.Got)
                      (c : memory.PoolCounters) (k : Z) :
  0 <= k -> memory.totalBytes c = spec.churn k ->
  0 <= memory.allocCount c -> 0 <= memory.reuseCount c ->
  memory.allocCount c + memory.reuseCount c = k ->
  k + len (spec.started memory.got_since d tr) < 2 ^ 40 ->
  let c' := memory.poolLoop d tr c in
  let n := len (spec.started memory.got_since d tr) in
  memory.totalBytes c' = spec.churn (k + n) /\
  0 <= memory.allocCount c' /\ 0 <= memory.reuseCount c' /\
  memory.allocCount c' + memory.reuseCount c' = k + n.
Proof.
  cbv zeta. revert c k. induction tr as [|g rest IH]; intros c k Hk Hb Ha Hr Hs Hn.
  - cbn [memory.poolLoop spec.started]. rewrite len_nil, Z.add_0_r. auto.
  - cbn [memory.poolLoop spec.started] in *. destruct (memory.got_since g <? d).
    + rewrite len_cons in *. pose proof (len_nonneg (spec.started memory.got_since d rest)).
      destruct (churn_step k Hk) as (M & S & U).
      assert (T : wrap64 (1024 + wrap64 (memory.totalBytes c mod 15360)) =
                  spec.churn (k + 1) - spec.churn k).
      { rewrite Hb, M. rewrite (wrap64_id (_ - 1024)) by lia.
        rewrite wrap64_id by lia. lia. }
      rewrite T.
      replace (k + (1 + len (spec.started memory.got_since d rest)))
        with ((k + 1) + len (spec.started memory.got_since d rest)) by lia.
      assert (U' : spec.churn (k + 1) < 2 ^ 64).
      { destruct (churn_step (k + 1)) as (_ & _ & U'); lia. }
      destruct (memory.capacity g <? spec.churn (k + 1) - spec.churn k);
        cbn [memory.allocCount memory.reuseCount memory.totalBytes];
        apply IH; cbn [memory.allocCount memory.reuseCount memory.totalBytes];
        try lia;
        try (rewrite (wrapu64_id (_ - _)), Hb, wrapu64_id by lia; lia);
        try (rewrite wrapu64_id by lia; lia);
        try (rewrite !wrapu64_id by lia; lia).
    + rewrite len_nil, Z.add_0_r. auto.
Qed.

(** X19.  The pool probe counts every pass once, as an allocation or as
    a reuse, and the sizes it asks for do not vary with the machine:
    they run through 1024, 2048, 4096 and 8192 bytes, so that [n] passes
    ask for [15360 * (n / 4)] bytes plus 0, 1024, 3072 or 7168. *)
Theorem BenchmarkPool_churn :
  forall (duration : time.Duration) (trace : list memory.Got) (elapsed : time.Duration),
    let n := len (spec.started memory.got_since duration trace) in
    n < 2 ^ 40 ->
    let c := memory.poolLoop duration trace (memory.mkPoolCounters 0 0 0) in
    0 <= memory.allocCount c /\ 0 <= memory.reuseCount c /\
    memory.allocCount c + memory.reuseCount c = n /\
    memory.totalBytes c = spec.churn n /\
    PoolResult.MemoryChurnMB (memory.BenchmarkPool duration trace elapsed) =
      fdiv (of_Z (spec.churn n)) (of_Z (1024 * 1024)) /\
    PoolResult.Rating (memory.BenchmarkPool duration trace elapsed) =
      memory.ratePool (fdiv (of_Z n) (time.Seconds elapsed)).
Proof.
  intros duration trace elapsed n Hn c.
  destruct (poolLoop_closed duration trace (memory.mkPoolCounters 0 0 0) 0)
    as (B & A & R & S); cbn [memory.allocCount memory.reuseCount memory.totalBytes];
    try reflexivity; try lia.
  rewrite Z.add_0_l in B, S. fold n in B, S. fold c in B, A, R, S.
  repeat match goal with |- _ /\ _ => split end; auto.
  - unfold memory.BenchmarkPool. cbn [PoolResult.MemoryChurnMB]. fold c. rewrite B.
    reflexivity.
  - unfold memory.BenchmarkPool. cbn [PoolResult.Rating]. fold c. rewrite S.
    rewrite wrapu64_id by lia. reflexivity.
Qed.

Lemma BenchmarkPool_churn_witness :
  let trace := [memory.mkGot 0 4096; memory.mkGot 100 4096; memory.mkGot 200 4096;
                memory.mkGot 300 4096; memory.mkGot 400 8192; memory.mkGot 900 8192] in
  let c := memory.poolLoop 500 trace (memory.mkPoolCounters 0 0 0) in
  memory.allocCount c + memory.reuseCount c = 5 /\
  memory.totalBytes c = spec.churn 5.
Proof.
  cbv zeta.
  destruct (BenchmarkPool_churn 500
              [memory.mkGot 0 4096; memory.mkGot 100 4096; memory.mkGot 200 4096;
               memory.mkGot 300 4096; memory.mkGot 400 8192; memory.mkGot 900 8192] 640)
    as (_ & _ & S & B & _); [vm_compute; reflexivity|].
  split; [exact S | exact B].
Defined.

End Pool.

Section StateCache.
Local Open Scope Z_scope.

Lemma lookup_assign {V : Type} (m : Map V) (k : Z) (v : V) (k' : Z) :
  lookup (assign m k v) k' = if k =? k' then Some v else lookup m k'.
Proof. unfold lookup, assign. cbn [find fst snd]. destruct (k =? k'); reflexivity. Qed.

(** Every key an object lists is a key of its original storage. *)
Let keys_stored (obj : memory.stateObject) : Prop :=
  forall key, In key (memory.storageKeys obj) ->
              lookup (memory.originStorage obj) key <> None.

(** Every listed address is cached, with an object that lists keys, all
    of them stored. *)
Let cached_ok (objects : Map memory.stateObject) (addresses : list Z) : Prop :=
  forall addr, In addr addresses ->
    exists obj, lookup objects addr = Some obj /\
                0 < len (memory.storageKeys obj) /\ keys_stored obj.

Lemma populateStorage_keys (j : nat) (rand : Rand) (n : nat) (obj : memory.stateObject) :
  keys_stored obj ->
  keys_stored (fst (memory.populateStorage j rand n obj)) /\
  len (memory.storageKeys (fst (memory.populateStorage j rand n obj))) =
    len (memory.storageKeys obj) + Z.of_nat j.
Proof.
  revert n obj. induction j as [|j IH]; intros n obj K.
  - cbn [memory.populateStorage fst]. split; [exact K | lia].
  - cbn [memory.populateStorage].
    destruct (IH (S (S n))
                 (memory.mkStateObject (memory.address obj) (memory.data obj)
                    (assign (memory.originStorage obj) (rand n) (rand (S n)))
                    (memory.dirtyStorage obj) (memory.pendingStorage obj)
                    (memory.storageKeys obj ++ [rand n]))) as [K' L'].
    + intros key Hin. cbn [memory.storageKeys memory.originStorage] in *.
      rewrite lookup_assign. destruct (Z.eqb_spec (rand n) key) as [E|E]; [discriminate|].
      apply K. apply in_app_or in Hin. destruct Hin as [Hin|[Hin|[]]]; [exact Hin | contradiction].
    + split; [exact K'|]. rewrite L'. cbn [memory.storageKeys].
      rewrite len_app, len_cons, len_nil. lia.
Qed.

Lemma populate_cached (i : nat) (rand : Rand) (p : memory.Populated) :
  cached_ok (memory.cache p) (memory.addresses p) ->
  cached_ok (memory.cache (memory.populate i rand p))
            (memory.addresses (memory.populate i rand p)) /\
  len (memory.addresses (memory.populate i rand p)) =
    len (memory.addresses p) + Z.of_nat i.
Proof.
  revert p. induction i as [|i IH]; intros p C.
  - cbn [memory.populate]. split; [exact C | lia].
  - cbn [memory.populate].
    set (addr := rand (memory.drawn p)).
    set (obj0 := memory.mkStateObject addr (rand (S (memory.drawn p))) [] [] [] []).
    destruct (populateStorage_keys 50 rand (S (S (memory.drawn p))) obj0) as [K L].
    { intros key []. }
    destruct (memory.populateStorage 50 rand (S (S (memory.drawn p))) obj0) as [obj n].
    cbn [fst] in K, L.
    destruct (IH (memory.mkPopulated (assign (memory.cache p) addr obj)
                                     (memory.addresses p ++ [addr]) n)) as [C' L'].
    + cbn [memory.cache memory.addresses]. intros a Hin.
      rewrite lookup_assign. destruct (Z.eqb_spec addr a) as [E|E].
      * exists obj. split; [reflexivity|]. split; [|exact K].
        rewrite L. subst obj0. cbn [memory.storageKeys]. unfold len. cbn [length]. lia.
      * apply C. apply in_app_or in Hin. destruct Hin as [Hin|[Hin|[]]]; [exact Hin | contradiction].
    + split; [exact C'|]. rewrite L'. cbn [memory.addresses].
      rewrite len_app, len_cons, len_nil. lia.
Qed.

Lemma cached_step (k : Z) :
  0 <= k ->
  spec.cached (k + 1) - spec.cached k = (if k mod 5 <? 4 then 1 else 0).
Proof.
  intros H. unfold spec.cached. destruct (Z.ltb_spec (k mod 5) 4);
    Z.to_euclidean_division_equations; lia.
Qed.

(** One pass of the loop on a cache that holds every listed address. *)
Lemma access_cached (addresses : list Z) (rand : Rand) (s : memory.CacheState) :
  cached_ok (memory.objects s) addresses -> 0 < len addresses ->
  0 <= memory.hits s -> 0 <= memory.misses s ->
  memory.hits s + memory.misses s < 2 ^ 63 - 1 ->
  exists s',
    memory.access addresses rand s = Some s' /\
    cached_ok (memory.objects s') addresses /\
    memory.hits s <= memory.hits s' /\ memory.misses s <= memory.misses s' /\
    memory.hits s' + memory.misses s' = memory.hits s + memory.misses s + 1 /\
    (if (memory.hits s + memory.misses s) mod 5 <? 4
     then memory.hits s' = memory.hits s + 1 /\
          memory.throughput s' = wrapu64 (memory.throughput s + 32)
     else memory.throughput s' = wrapu64 (memory.throughput s + 100)).
Proof.
  intros C A H0 M0 B. unfold memory.access.
  set (k := memory.hits s + memory.misses s) in *.
  rewrite (wrapu64_id k) by lia.
  destruct (Z.ltb_spec (k mod 5) 4) as [P|P].
  - destruct (imod_in_range k (len addresses)) as (idx & Ei & Ri); [lia | exact A |].
    rewrite Ei. destruct (index_in_range addresses idx Ri) as (addr & Ea & Ia). rewrite Ea.
    destruct (C addr Ia) as (obj & Eo & Lk & K). rewrite Eo.
    destruct (imod_in_range k (len (memory.storageKeys obj))) as (ki & Eki & Rki);
      [lia | exact Lk |].
    rewrite Eki.
    destruct (index_in_range (memory.storageKeys obj) ki Rki) as (key & Ek & Ik). rewrite Ek.
    assert (Hit : forall objects,
               cached_ok objects addresses ->
               cached_ok (memory.objects (memory.hit s objects 32)) addresses /\
               memory.hits s <= memory.hits (memory.hit s objects 32) /\
               memory.misses s <= memory.misses (memory.hit s objects 32) /\
               memory.hits (memory.hit s objects 32) + memory.misses (memory.hit s objects 32)
                 = k + 1 /\
               memory.hits (memory.hit s objects 32) = memory.hits s + 1 /\
               memory.throughput (memory.hit s objects 32) =
                 wrapu64 (memory.throughput s + 32)).
    { intros objects Co. unfold memory.hit.
      cbn [memory.objects memory.hits memory.misses memory.throughput].
      rewrite wrapu64_id by lia. repeat split; try lia. exact Co. }
    destruct (lookup (memory.dirtyStorage obj) key);
      [eexists; split; [reflexivity | apply Hit, C]|].
    destruct (lookup (memory.pendingStorage obj) key);
      [eexists; split; [reflexivity | apply Hit, C]|].
    destruct (lookup (memory.originStorage obj) key) as [val|] eqn:Eor;
      [|exfalso; exact (K key Ik Eor)].
    eexists; split; [reflexivity|]. apply Hit.
    intros a Ha. rewrite lookup_assign. destruct (Z.eqb_spec addr a) as [E|E].
    + eexists. split; [reflexivity|]. cbn [memory.storageKeys]. split; [exact Lk|].
      intros key' Hk'. cbn [memory.storageKeys memory.originStorage] in *. apply K, Hk'.
    + apply C, Ha.
  - cbn [memory.objects memory.hits memory.misses memory.throughput memory.reads].
    destruct (lookup (memory.objects s) (rand (memory.reads s)));
      eexists; (split; [reflexivity|]);
      unfold memory.hit, memory.miss;
      cbn [memory.objects memory.hits memory.misses memory.throughput];
      rewrite ?(wrapu64_id (memory.hits s + 1)), ?(wrapu64_id (memory.misses s + 1)) by lia;
      repeat split; try lia; exact C.
Qed.


Lemma cacheLoop_cached (d : time.Duration) (addresses : list Z) (rand : Rand)
                       (tr : list Tick) (s : memory.CacheState) :
  cached_ok (memory.objects s) addresses -> 0 < len addresses ->
  0 <= memory.hits s -> 0 <= memory.misses s ->
  0 <= memory.throughput s < 2 ^ 64 ->
  memory.hits s + memory.misses s + len tr < 2 ^ 63 ->
  let k := memory.hits s + memory.misses s in
  let n := len (spec.started since d tr) in
  let c := spec.cached (k + n) - spec.cached k in
  exists s',
    memory.cacheLoop d addresses rand tr s = Some s' /\
    memory.hits s' + memory.misses s' = k + n /\
    memory.hits s + c <= memory.hits s' /\ memory.misses s <= memory.misses s' /\
    memory.throughput s' = wrapu64 (memory.throughput s + 32 * c + 100 * (n - c)).
Proof.
  cbv zeta. revert s. induction tr as [|t rest IH]; intros s C A H0 M0 T0 B.
  - cbn [memory.cacheLoop spec.started]. exists s. rewrite len_nil, !Z.add_0_r.
    replace (spec.cached _ - spec.cached _) with 0 by lia.
    rewrite Z.sub_0_r. cbn [Z.mul]. rewrite !Z.add_0_r, wrapu64_id by lia.
    repeat split; lia.
  - rewrite len_cons in B. pose proof (len_nonneg rest).
    cbn [memory.cacheLoop spec.started]. destruct (since t <? d).
    + destruct (access_cached addresses rand s C A H0 M0) as (s1 & E1 & C1 & Hh & Hm & Hs & Hp);
        [lia|].
      rewrite E1.
      assert (T1 : 0 <= memory.throughput s1 < 2 ^ 64).
      { destruct ((memory.hits s + memory.misses s) mod 5 <? 4);
          [destruct Hp as [_ ->] | rewrite Hp]; apply wrapu64_range. }
      destruct (IH s1 C1 A) as (s' & E' & S' & Hh' & Hm' & Ht'); try lia.
      exists s'. split; [exact E'|].
      rewrite len_cons.
      pose proof (cached_step (memory.hits s + memory.misses s) ltac:(lia)) as St.
      rewrite Hs in *.
      set (k := memory.hits s + memory.misses s) in *.
      set (n := len (spec.started since d rest)) in *.
      replace (k + (1 + n)) with (k + 1 + n) by lia.
      split; [lia|].
      destruct (k mod 5 <? 4).
      * destruct Hp as [Hh1 Ht1].
        repeat split; try lia. rewrite Ht', Ht1. unfold wrapu64.
        rewrite <- Z.add_assoc, Zplus_mod_idemp_l. f_equal. lia.
      * repeat split; try lia. rewrite Ht', Hp. unfold wrapu64.
        rewrite <- Z.add_assoc, Zplus_mod_idemp_l. f_equal. lia.
    + exists s. rewrite len_nil, !Z.add_0_r.
      replace (spec.cached _ - spec.cached _) with 0 by lia.
      rewrite Z.sub_0_r. cbn [Z.mul]. rewrite !Z.add_0_r, wrapu64_id by lia.
      repeat split; lia.
Qed.

(** The probe returns, with counters within 64 bits. *)
Lemma BenchmarkStateCache_cached (duration : time.Duration) (rand : Rand) (l : Loop) :
  len (trace l) < 2 ^ 63 ->
  exists s : memory.CacheState,
    memory.BenchmarkStateCache duration rand l =
      Some (memory.StateCacheResult_of s (after l)) /\
    0 <= memory.hits s < 2 ^ 64 /\ 0 <= memory.misses s < 2 ^ 64 /\
    0 <= memory.throughput s < 2 ^ 64.
Proof.
  intros B.
  set (p := memory.populate (Z.to_nat 10000) rand (memory.mkPopulated [] [] O)).
  destruct (populate_cached (Z.to_nat 10000) rand (memory.mkPopulated [] [] O)) as [C L].
  { intros addr []. }
  fold p in C, L.
  assert (LA : 0 < len (memory.addresses p)).
  { rewrite L. pose proof (Z2Nat.id 10000 ltac:(discriminate)) as I. rewrite I.
    pose proof (len_nonneg (memory.addresses (memory.mkPopulated [] [] O))). lia. }
  clear L.
  destruct (cacheLoop_cached duration (memory.addresses p) rand (trace l)
              (memory.mkCacheState (memory.cache p) 0 0 0 (memory.drawn p)))
    as (s & E & S & Hh & Hm & Ht);
    cbn [memory.objects memory.hits memory.misses memory.throughput]; try lia; try exact C.
  cbn [memory.objects memory.hits memory.misses memory.throughput] in S, Hh, Hm, Ht.
  exists s. split; [unfold memory.BenchmarkStateCache; fold p; rewrite E; reflexivity|].
  clear E C LA. clearbody p.
  pose proof (started_length since duration (trace l)) as Sl.
  pose proof (len_nonneg (spec.started since duration (trace l))) as Nl.
  set (n := len (spec.started since duration (trace l))) in *.
  assert (0 <= spec.cached (0 + 0 + n) - spec.cached (0 + 0)).
  { unfold spec.cached. clear - Nl. Z.to_euclidean_division_equations. lia. }
  split; [lia|]. split; [lia|]. rewrite Ht. apply wrapu64_range.
Qed.

(** X20.  The state-cache probe is built to hit: it never panics, the
    passes on the path of a cached account (four in five) always find
    their key and count as hits, so that of [n] passes at least
    [n - n/5] are hits and at most [n/5] are misses, the bytes counted
    are 32 for each pass of the first kind and 100 for each of the
    second, and the hit ratio is at least 0.8. *)
Theorem BenchmarkStateCache_hit_path :
  forall (duration : time.Duration) (rand : Rand) (l : Loop),
    len (trace l) < 2 ^ 63 ->
    let n := len (spec.started since duration (trace l)) in
    let p := memory.populate (Z.to_nat 10000) rand (memory.mkPopulated [] [] O) in
    exists (s : memory.CacheState) (r : StateCacheResult.t),
      memory.cacheLoop duration (memory.addresses p) rand (trace l)
                       (memory.mkCacheState (memory.cache p) 0 0 0 (memory.drawn p))
        = Some s /\
      memory.BenchmarkStateCache duration rand l = Some r /\
      r = memory.StateCacheResult_of s (after l) /\
      memory.hits s + memory.misses s = n /\
      spec.cached n <= memory.hits s /\ 0 <= memory.misses s <= n / 5 /\
      memory.throughput s = wrapu64 (32 * spec.cached n + 100 * (n / 5)) /\
      (0 < n < 2 ^ 53 -> fle (of_Q 0.8) (StateCacheResult.HitRatio r)).
Proof.
  intros duration rand l B n p.
  destruct (populate_cached (Z.to_nat 10000) rand (memory.mkPopulated [] [] O)) as [C L].
  { intros addr []. }
  fold p in C, L.
  assert (LA : 0 < len (memory.addresses p)).
  { rewrite L. pose proof (Z2Nat.id 10000 ltac:(discriminate)) as I. rewrite I.
    pose proof (len_nonneg (memory.addresses (memory.mkPopulated [] [] O))). lia. }
  clear L.
  destruct (cacheLoop_cached duration (memory.addresses p) rand (trace l)
              (memory.mkCacheState (memory.cache p) 0 0 0 (memory.drawn p)))
    as (s & E & S & Hh & Hm & Ht);
    cbn [memory.objects memory.hits memory.misses memory.throughput]; try lia; try exact C.
  cbn [memory.objects memory.hits memory.misses memory.throughput] in S, Hh, Hm, Ht.
  rewrite !Z.add_0_l in *. fold n in S, Hh, Ht.
  assert (C0 : spec.cached 0 = 0) by reflexivity.
  rewrite C0, Z.sub_0_r in *.
  assert (Cn : n - spec.cached n = n / 5) by (unfold spec.cached; lia).
  exists s, (memory.StateCacheResult_of s (after l)).
  split; [exact E|]. split; [unfold memory.BenchmarkStateCache; fold p; rewrite E; reflexivity|].
  clear E C B. clearbody p n.
  split; [reflexivity|]. split; [exact S|]. split; [exact Hh|].
  split; [rewrite <- Cn; lia|].
  split; [rewrite Ht, Cn; reflexivity|].
  intros Hn. unfold memory.StateCacheResult_of. cbn [StateCacheResult.HitRatio].
  rewrite S, (wrapu64_id n) by lia.
  assert (Rh : 0 <= memory.hits s < 2 ^ 53).
  { assert (0 <= spec.cached n)
      by (unfold spec.cached; Z.to_euclidean_division_equations; lia).
    lia. }
  destruct (of_Z_exact (memory.hits s) Rh) as [Fh Qh].
  destruct (of_Z_exact n ltac:(lia)) as [Fn Qn].
  assert (Pn : (0 < F2Q (of_Z n))%Q).
  { rewrite Qn. change 0%Q with (inject_Z 0). rewrite <- Zlt_Qlt. lia. }
  apply fle_trans with (round (F2Q (of_Z (memory.hits s)) / F2Q (of_Z n))).
  - unfold of_Q. apply round_le. rewrite Qh, Qn.
    apply Qle_shift_div_l; [rewrite <- Qn; exact Pn|].
    assert (Z4 : 4 * n <= 5 * memory.hits s).
    { clear - Cn Hh Hn. Z.to_euclidean_division_equations. lia. }
    rewrite Zle_Qle in Z4. rewrite !inject_Z_mult in Z4.
    change (inject_Z 4) with 4%Q in Z4. change (inject_Z 5) with 5%Q in Z4.
    lra.
  - apply fdiv_fin; auto using pos_not_zero.
Qed.

Lemma BenchmarkStateCache_hit_path_witness :
  exists r : StateCacheResult.t,
    memory.BenchmarkStateCache 500 (fun n => Z.of_nat n) sample.short_loop = Some r /\
    fle (of_Q 0.8) (StateCacheResult.HitRatio r).
Proof.
  destruct (BenchmarkStateCache_hit_path 500 (fun n => Z.of_nat n) sample.short_loop)
    as (s & r & _ & E & _ & _ & _ & _ & _ & H); [vm_compute; reflexivity|].
  exists r. split; [exact E|]. apply H. vm_compute. split; reflexivity.
Defined.

End StateCache.

Section Run.
Local Open Scope string_scope.
Local Open Scope Z_scope.

Ltac clocks H :=
  unfold spec.cpu_clocks, spec.memory_clocks, spec.disk_clocks in H;
  repeat match type of H with
         | Forall _ (_ :: _) =>
             let A := fresh "T" in
             let B := fresh "H" in
             inversion H as [|? ? A B]; subst; clear H; rename B into H
         end.

Ltac sample_clocks :=
  unfold spec.cpu_clocks, spec.memory_clocks, spec.disk_clocks;
  repeat first [ apply Forall_cons | apply Forall_nil ];
  unfold timed; vm_compute; split; reflexivity.

Lemma poolLoop_range (d : time.Duration) (tr : list memory.Got) (c : memory.PoolCounters) :
  0 <= memory.allocCount c < 2 ^ 64 -> 0 <= memory.reuseCount c < 2 ^ 64 ->
  0 <= memory.totalBytes c < 2 ^ 64 ->
  0 <= memory.allocCount (memory.poolLoop d tr c) < 2 ^ 64 /\
  0 <= memory.reuseCount (memory.poolLoop d tr c) < 2 ^ 64 /\
  0 <= memory.totalBytes (memory.poolLoop d tr c) < 2 ^ 64.
Proof.
  revert c. induction tr as [|g rest IH]; intros c A R B; [cbn; auto|].
  cbn [memory.poolLoop]. destruct (memory.got_since g <? d); [|auto].
  destruct (memory.capacity g <? _);
    cbn [memory.allocCount memory.reuseCount memory.totalBytes];
    apply IH; cbn [memory.allocCount memory.reuseCount memory.totalBytes];
    auto using wrapu64_range.
Qed.

Lemma memory_probes_measured (config : benchmark.Config) (w : Runner.MemoryWorld) :
  Forall timed (spec.memory_clocks w) ->
  len (trace (Runner.trie_lookup w)) < 2 ^ 63 ->
  len (trace (Runner.cache_loop w)) < 2 ^ 63 ->
  exists mem : MemoryResults.t,
    Runner.runMemoryBenchmarks config w = Some mem /\
    Forall measured (spec.memory_rates mem).
Proof.
  intros H Bl Bc. clocks H. unfold Runner.runMemoryBenchmarks.
  set (b := benchmark.GetMemoryTimeBudget config).
  rewrite (BenchmarkTrie_closed (benchmark.Trie b) (Runner.trie_rand w)
             (Runner.memBefore w) (Runner.memAfter w) (Runner.trie_insert w)
             (Runner.trie_lookup w) (Runner.trie_hash w) Bl).
  destruct (BenchmarkStateCache_cached (benchmark.StateCache b) (Runner.cache_rand w)
              (Runner.cache_loop w) Bc) as (s & E & Rh & Rm & Rt).
  rewrite E. eexists. split; [reflexivity|].
  unfold spec.memory_rates.
  cbn [MemoryResults.Trie MemoryResults.Pool MemoryResults.StateCache
       TrieResult.InsertsPerSecond TrieResult.LookupsPerSecond TrieResult.HashesPerSecond
       TrieResult.PeakMemoryMB].
  unfold memory.BenchmarkPool, memory.StateCacheResult_of.
  cbn [PoolResult.AllocationsPerSecond PoolResult.ReusesPerSecond PoolResult.MemoryChurnMB
       StateCacheResult.CacheHitsPerSecond StateCacheResult.CacheMissesPerSecond
       StateCacheResult.ThroughputMBPerSec].
  destruct (poolLoop_range (benchmark.Pool b) (Runner.pool_gets w)
                           (memory.mkPoolCounters 0 0 0)) as (Pa & Pr & Pb);
    cbn [memory.allocCount memory.reuseCount memory.totalBytes]; try lia.
  pose proof (started_length since (time.div (time.mul (benchmark.Trie b) 2) 5)
                (trace (Runner.trie_lookup w))) as Sl.
  pose proof (len_nonneg (spec.started since (time.div (time.mul (benchmark.Trie b) 2) 5)
                            (trace (Runner.trie_lookup w)))) as Nl.
  repeat apply Forall_cons; try apply Forall_nil.
  - apply rate_measured; [apply wrapu64_range | assumption].
  - apply rate_measured; [|assumption].
    destruct (0 <? _); lia.
  - apply rate_measured; [apply run_ops_range | assumption].
  - apply megabytes_measured, of_Z_measured.
    pose proof (wrapu64_range (Runner.memAfter w - Runner.memBefore w)). lia.
  - apply rate_measured; assumption.
  - apply rate_measured; assumption.
  - apply megabytes_measured, of_Z_measured. lia.
  - apply rate_measured; assumption.
  - apply rate_measured; assumption.
  - apply megabytes_measured, rate_measured; assumption.
Qed.


(** X21.  With fewer than 2^63 passes in the trie lookup loop and in the
    state-cache loop no memory probe panics; when moreover every clock
    reading after a memory loop shows that time has passed, every rate
    and volume the memory probes report is a finite number that is not
    negative. *)
Theorem runMemoryBenchmarks_completes :
  forall (config : benchmark.Config) (w : Runner.MemoryWorld),
    Forall timed (spec.memory_clocks w) ->
    len (trace (Runner.trie_lookup w)) < 2 ^ 63 ->
    len (trace (Runner.cache_loop w)) < 2 ^ 63 ->
    exists mem : MemoryResults.t,
      Runner.runMemoryBenchmarks config w = Some mem /\
      Forall measured (spec.memory_rates mem).
Proof. exact memory_probes_measured. Qed.

Lemma runMemoryBenchmarks_completes_witness :
  exists mem : MemoryResults.t,
    Runner.runMemoryBenchmarks benchmark.QuickConfig sample.memory_world = Some mem /\
    Forall measured (spec.memory_rates mem).
Proof.
  apply runMemoryBenchmarks_completes;
    [sample_clocks | vm_compute; reflexivity | vm_compute; reflexivity].
Defined.

(** The scored metrics are among the reported rates. *)
Lemma scored_among_rates (P : float64 -> Prop) (results : Results.t) :
  Forall P (spec.cpu_rates (Results.CPU results)) ->
  Forall P (spec.memory_rates (Results.Memory results)) ->
  Forall P (spec.disk_rates (Results.Disk results)) ->
  Forall P (spec.scored_metrics results).
Proof.
  unfold spec.cpu_rates, spec.memory_rates, spec.disk_rates.
  intros C M D.
  repeat match goal with
         | H : Forall _ (_ :: _) |- _ =>
             let A := fresh "P" in
             let B := fresh "H" in
             inversion H as [|? ? A B]; subst; clear H
         end.
  unfold spec.scored_metrics, spec.cpu_metrics, spec.memory_metrics, spec.disk_metrics.
  cbn [app]. repeat apply Forall_cons; try apply Forall_nil; assumption.
Qed.

(** X22.  A whole run is well formed.  When the three set-up calls
    whose error is discarded have succeeded, the two indexing loops make
    fewer than 2^63 passes and the clock readings after every loop show
    that time has passed, [RunAll] returns results, every reported rate
    is a finite number that is not negative, and [NewReport] builds a
    report from them whose four scores lie in [0,100] and whose verdict
    is the verdict of the total; this whatever the operations did,
    failed tested set-ups and failed I/O included. *)
Theorem RunAll_report_well_formed :
  forall (config : benchmark.Config)
         (cw : Runner.CPUWorld) (mw : Runner.MemoryWorld) (dw : Runner.DiskWorld)
         (version : string) (now : Z) (sysInfo : system.Info)
         (duration : time.Duration),
    Runner.presign cw = nil -> Runner.randomG1b cw = nil -> Runner.randomG2 cw = nil ->
    Forall timed (spec.cpu_clocks cw) ->
    Forall timed (spec.memory_clocks mw) ->
    Forall timed (spec.disk_clocks dw) ->
    len (trace (Runner.trie_lookup mw)) < 2 ^ 63 ->
    len (trace (Runner.cache_loop mw)) < 2 ^ 63 ->
    exists (results : Results.t) (r : Report.t),
      Runner.RunAll config cw mw dw = Some results /\
      Forall measured (spec.cpu_rates (Results.CPU results)) /\
      Forall measured (spec.memory_rates (Results.Memory results)) /\
      Forall measured (spec.disk_rates (Results.Disk results)) /\
      NewReport version now sysInfo results duration = Some r /\
      0 <= CPUScore (Report.Summary r) <= 100 /\
      0 <= MemoryScore (Report.Summary r) <= 100 /\
      0 <= DiskScore (Report.Summary r) <= 100 /\
      0 <= TotalScore (Report.Summary r) <= 100 /\
      Report.Verdict r = determineVerdict (TotalScore (Report.Summary r)) results.
Proof.
  intros config cw mw dw version now sysInfo duration S B G Tc Tm Td Bl Bc.
  destruct (memory_probes_measured config mw Tm Bl Bc) as (mem & Em & Mm).
  destruct (Runner.runCPUBenchmarks config cw) as [cpu|] eqn:Ecpu;
    [|apply cpu_probes_panic in Ecpu;
      destruct Ecpu as [(_ & N & _)|(_ & [(N & _)|(N & _)])]; contradiction].
  pose proof (cpu_probes_measured config cw cpu Tc Ecpu) as Mc.
  pose proof (disk_probes_measured config dw Td) as Md.
  unfold Runner.RunAll. rewrite Ecpu, Em.
  set (results := Results.mk cpu mem (Runner.runDiskBenchmarks config dw)).
  assert (N : Forall nonneg (spec.scored_metrics results)).
  { apply scored_among_rates; subst results;
      cbn [Results.CPU Results.Memory Results.Disk];
      eapply Forall_impl; try apply measured_nonneg; assumption. }
  destruct (summary_scaled results N) as (s & Es & _ & _ & _ & _ & Rc & Rm & Rd & Rt).
  exists results. eexists. split; [reflexivity|].
  split; [exact Mc|]. split; [exact Mm|]. split; [exact Md|].
  unfold NewReport. rewrite Es. split; [reflexivity|].
  cbn [Report.Summary Report.Verdict]. auto.
Qed.

Lemma RunAll_report_well_formed_witness :
  exists (results : Results.t) (r : Report.t),
    Runner.RunAll benchmark.QuickConfig sample.cpu_world sample.memory_world
                  sample.disk_world = Some results /\
    NewReport "0.1.0" 0 sample.raspberry results (60 * time.Second) = Some r /\
    0 <= TotalScore (Report.Summary r) <= 100.
Proof.
  destruct (RunAll_report_well_formed benchmark.QuickConfig sample.cpu_world
              sample.memory_world sample.disk_world "0.1.0" 0 sample.raspberry
              (60 * time.Second))
    as (results & r & E & _ & _ & _ & R & _ & _ & _ & T & _);
    [reflexivity | reflexivity | reflexivity
    | sample_clocks | sample_clocks | sample_clocks
    | vm_compute; reflexivity | vm_compute; reflexivity |].
  exists results, r. auto.
Defined.

(** X24.  The CPU probes test the error of their first set-up call only.
    The errors of the pre-generated [crypto.Sign], of the second
    [bn256.RandomG1] and of [bn256.RandomG2] are discarded, and the run
    panics exactly when one of these calls has failed and the loop that
    uses its value makes a pass: the verification loop slices the nil
    signature, [Add] and [Pair] dereference the nil point.  A panic of
    the CPU probes ends the whole run. *)
Theorem runCPUBenchmarks_panics_on_discarded_error :
  forall (config : benchmark.Config) (cw : Runner.CPUWorld),
    let budget := benchmark.GetCPUTimeBudget config in
    (Runner.runCPUBenchmarks config cw = None <->
       (Runner.keygen cw = nil /\ Runner.presign cw <> nil /\
        spec.passes (time.div (benchmark.ECDSA budget) 3) (Runner.ecdsa_verify cw)) \/
       (Runner.randomG1 cw = nil /\
        ((Runner.randomG1b cw <> nil /\
          spec.passes (time.div (time.mul (benchmark.BN256 budget) 3) 10)
                      (Runner.bn256_add cw)) \/
         (Runner.randomG2 cw <> nil /\
          spec.passes (time.div (time.mul (benchmark.BN256 budget) 4) 10)
                      (Runner.bn256_pair cw))))) /\
    (forall (mw : Runner.MemoryWorld) (dw : Runner.DiskWorld),
        Runner.runCPUBenchmarks config cw = None ->
        Runner.RunAll config cw mw dw = None).
Proof.
  intros config cw budget. split.
  - apply cpu_probes_panic.
  - intros mw dw E. unfold Runner.RunAll. rewrite E. reflexivity.
Qed.

Lemma runCPUBenchmarks_panics_on_discarded_error_witness :
  Runner.RunAll benchmark.QuickConfig sample.unsigned_world sample.memory_world
                sample.disk_world = None.
Proof.
  destruct (runCPUBenchmarks_panics_on_discarded_error benchmark.QuickConfig
              sample.unsigned_world) as [P R].
  apply R. apply P. left.
  split; [reflexivity|]. split; [discriminate | vm_compute; discriminate].
Defined.

End Run.

Section Features.
Local Open Scope string_scope.

(** The loop of [filterRelevantCPUFeatures] from any [result] so far. *)
Lemma filter_loop (features result : list string) :
  fold_left (fun result f => if flag relevant f then (result ++ [f])%list else result)
            features result
  = (result ++ filter (flag relevant) features)%list.
Proof.
  revert result.
  induction features as [|f features IH]; intros result; cbn [fold_left filter].
  - now rewrite app_nil_r.
  - rewrite IH. destruct (flag relevant f); [|reflexivity].
    now rewrite <- app_assoc.
Qed.

Lemma flag_relevant (f : string) :
  flag relevant f = true <->
  In f ["asimd"; "aes"; "sha1"; "sha2"; "sha3"; "crc32"; "pmull"; "atomics"; "fp"].
Proof.
  unfold flag, relevant. cbn [find fst snd].
  split.
  - repeat match goal with
           | |- context [String.eqb ?a f] =>
               destruct (String.eqb_spec a f) as [<-|_];
               [intros _; cbn [In]; tauto|]
           end.
    discriminate.
  - cbn [In]. intros H.
    repeat (destruct H as [<-|H]; [reflexivity|]).
    contradiction.
Qed.

(** X23.  [filterRelevantCPUFeatures] keeps exactly the features that
    are one of the nine names of its map, in the order and with the
    multiplicity of the input: a feature is in the result when it is in
    the input and among the nine names, filtering a concatenation is
    concatenating the filtered parts, and filtering twice changes
    nothing. *)
Theorem filterRelevantCPUFeatures_keeps_relevant :
  forall features more : list string,
    filterRelevantCPUFeatures features = filter (flag relevant) features /\
    (forall f : string,
        In f (filterRelevantCPUFeatures features) <->
        In f features /\
        In f ["asimd"; "aes"; "sha1"; "sha2"; "sha3"; "crc32"; "pmull";
              "atomics"; "fp"]) /\
    filterRelevantCPUFeatures (features ++ more)
    = (filterRelevantCPUFeatures features ++ filterRelevantCPUFeatures more)%list /\
    filterRelevantCPUFeatures (filterRelevantCPUFeatures features)
    = filterRelevantCPUFeatures features /\
    (length (filterRelevantCPUFeatures features) <= length features)%nat.
Proof.
  intros features more.
  assert (E : forall l, filterRelevantCPUFeatures l = filter (flag relevant) l).
  { intros l. unfold filterRelevantCPUFeatures. now rewrite filter_loop. }
  rewrite !E. split; [reflexivity|]. split; [|split; [|split]].
  - intros f. rewrite filter_In, flag_relevant. reflexivity.
  - apply filter_app.
  - induction features as [|f features IH]; [reflexivity|].
    cbn [filter]. destruct (flag relevant f) eqn:F; [|exact IH].
    cbn [filter]. rewrite F. now f_equal.
  - apply filter_length_le.
Qed.

End Features.

Section ProbeRatings.
Local Open Scope string_scope.
Local Open Scope Z_scope.


















End ProbeRatings.

Section NoTime.
Local Open Scope string_scope.
Local Open Scope Z_scope.





























End NoTime.
